(** * Source Hunter: comment scoring, comment source, request queue,
      candidate query and scan controller

    A shallow embedding of
    - [services/analysisService.ts]  (analyzeComment and its four patterns),
    - [services/youtubeService.ts]   (request queue, the three fetch operations,
                                      the key format check, the redaction of
                                      error messages, validateApiKey),
    - [components/Dashboard.tsx]     (the queries of the tabs, scan start/stop/run,
                                      Clear),
    - [components/CommentCard.tsx]   (HighlightedText),
    - [db.ts]                        (resetDatabaseForVideo),
    - [App.tsx]                      (extractVideoId),
    - [services/analyticsService.ts] (isYouTubeShort),
    with the properties the specification states about them, and further
    properties of the code. *)

From Stdlib Require Import ZArith NArith Lia Ascii String DecimalString.
From stdpp Require Import gmap strings list fin_maps sorting.

Local Open Scope Z_scope.

(* ===================================================================== *)
(** * JavaScript strings: sequences of UTF-16 code units *)
(* ===================================================================== *)
Module JSString.

(** A JS string is a sequence of 16-bit code units; offsets (match
    indices, highlight spans) count code units. *)
Abbreviation jsstring := (list N).

Definition cu (c : ascii) : N := N_of_ascii c.

(** An ASCII literal of the source as a JS string. *)
Definition lit (s : string) : jsstring := map cu (list_ascii_of_string s).

(** [s.slice(i, j)] for [0 <= i], [0 <= j]. *)
Definition slice (s : jsstring) (i j : nat) : jsstring := take (j - i) (drop i s).

Fixpoint startsWith (s needle : jsstring) : bool :=
  match needle, s with
  | [], _ => true
  | _ :: _, [] => false
  | n :: needle', c :: s' => (n =? c)%N && startsWith s' needle'
  end.

(** [s.indexOf(needle)] scanning from offset [k]: the first offset at
    which [needle] occurs, [-1] when there is none. *)
Fixpoint indexOf_from (s needle : jsstring) (k : Z) : Z :=
  if startsWith s needle then k
  else match s with
       | [] => -1
       | _ :: s' => indexOf_from s' needle (k + 1)
       end.

Definition indexOf (s needle : jsstring) : Z := indexOf_from s needle 0.

(** ECMAScript LineTerminator and WhiteSpace code points ([\s] is their union). *)
Definition isLineTerminator (c : N) : bool :=
  ((c =? 0x0A) || (c =? 0x0D) || (c =? 0x2028) || (c =? 0x2029))%N.

Definition isWhiteSpace (c : N) : bool :=
  ((c =? 0x09) || (c =? 0x0B) || (c =? 0x0C) || (c =? 0x20) || (c =? 0xA0)
   || (c =? 0x1680) || ((0x2000 <=? c) && (c <=? 0x200A))
   || (c =? 0x202F) || (c =? 0x205F) || (c =? 0x3000) || (c =? 0xFEFF)
   || isLineTerminator c)%N.

(** Canonicalize of the RegExp semantics (non-unicode mode).  With the
    [i] flag a code unit is replaced by its upper-case form, except that
    a non-ASCII code unit is never mapped to an ASCII one.  Only ASCII
    letters occur as literals in the patterns of this program, and they
    are compared with the canonical form of the input code unit, which
    is ASCII only for ASCII input; the case mapping is therefore given
    on ASCII and is the identity elsewhere. *)
Definition Canonicalize (ignoreCase : bool) (c : N) : N :=
  if ignoreCase && (97 <=? c)%N && (c <=? 122)%N then (c - 32)%N else c.

End JSString.
Import JSString.

(* ===================================================================== *)
(** * Regular expressions: the backtracking matcher of ECMAScript *)
(* ===================================================================== *)
Module RegExp.

(** Pattern syntax, as far as the patterns of analysisService.ts use it. *)
Inductive regex : Type :=
| Empty
| CharSet (A : N -> bool)
| Seq (r1 r2 : regex)
| Disj (r1 r2 : regex)
| Star (greedy : bool) (r : regex)
| Group (parenIndex : nat) (r : regex).

(** [r+] and [r?] (greedy), derived. *)
Definition Plus (r : regex) : regex := Seq r (Star true r).
Definition Opt (r : regex) : regex := Disj r Empty.

(** A literal character and a literal word under the [i] flag. *)
Definition Chr (ignoreCase : bool) (c : N) : regex :=
  CharSet (fun ch => (Canonicalize ignoreCase ch =? Canonicalize ignoreCase c)%N).

Fixpoint Word (ignoreCase : bool) (w : jsstring) : regex :=
  match w with
  | [] => Empty
  | c :: w' => Seq (Chr ignoreCase c) (Word ignoreCase w')
  end.

Definition Range (lo hi : N) : regex := CharSet (fun ch => (lo <=? ch)%N && (ch <=? hi)%N).
Definition Dot : regex := CharSet (fun ch => negb (isLineTerminator ch)).
Definition Space : regex := CharSet isWhiteSpace.

(** Match state: where the match has come to, and the captures so far
    (slot [k] holds the span of capture group [k+1]). *)
Record MatchState : Type := mkState {
  endIndex : nat;
  captures : list (option (nat * nat))
}.

Definition Continuation : Type := MatchState -> option MatchState.

Fixpoint groups (r : regex) : list nat :=
  match r with
  | Empty | CharSet _ => []
  | Seq r1 r2 | Disj r1 r2 => groups r1 ++ groups r2
  | Star _ r1 => groups r1
  | Group n r1 => n :: groups r1
  end.

Definition resetCaptures (gs : list nat) (caps : list (option (nat * nat)))
  : list (option (nat * nat)) :=
  foldr (fun g c => <[g := None]> c) caps gs.

Section Matcher.
Variable Input : jsstring.

(** RepeatMatcher for [{0,}]: one more iteration of the atom matcher
    [m], or the continuation; which comes first is decided by
    greediness.  The captures of the groups inside the atom are reset
    at the start of an iteration, and an iteration that consumes
    nothing is rejected (the empty check).  Hence an iteration moves
    [endIndex] forward, at most [length Input - endIndex x] iterations
    can follow [x], and [fuel] above that number is never used up. *)
Fixpoint RepeatMatcher (m : MatchState -> Continuation -> option MatchState)
    (greedy : bool) (parens : list nat) (c : Continuation)
    (fuel : nat) (x : MatchState) {struct fuel} : option MatchState :=
  match fuel with
  | O => c x
  | S fuel' =>
      let d : Continuation :=
        fun y => if (endIndex y =? endIndex x)%nat then None
                 else RepeatMatcher m greedy parens c fuel' y in
      let xr := mkState (endIndex x) (resetCaptures parens (captures x)) in
      if greedy then
        match m xr d with
        | Some z => Some z
        | None => c x
        end
      else
        match c x with
        | Some z => Some z
        | None => m xr d
        end
  end.

(** The matcher of a pattern, in continuation-passing style: alternatives
    are tried in priority order, and the first one whose continuation
    succeeds wins. *)
Fixpoint compile (r : regex) (x : MatchState) (c : Continuation) {struct r}
  : option MatchState :=
  match r with
  | Empty => c x
  | CharSet A =>
      match Input !! endIndex x with
      | Some ch => if A ch then c (mkState (S (endIndex x)) (captures x)) else None
      | None => None
      end
  | Seq r1 r2 => compile r1 x (fun y => compile r2 y c)
  | Disj r1 r2 =>
      match compile r1 x c with
      | Some z => Some z
      | None => compile r2 x c
      end
  | Star greedy r1 =>
      RepeatMatcher (compile r1) greedy (groups r1) c (S (length Input - endIndex x)) x
  | Group n r1 =>
      compile r1 x
        (fun y => c (mkState (endIndex y)
                       (<[n := Some (endIndex x, endIndex y)]> (captures y))))
  end.

(** One attempt at start offset [i]. *)
Definition matchAt (r : regex) (nGroups : nat) (i : nat) : option MatchState :=
  compile r (mkState i (replicate nGroups None)) Some.

(** Attempts at [i], [i+1], ... for [S fuel] offsets. *)
Fixpoint scanFrom (r : regex) (nGroups : nat) (fuel : nat) (i : nat)
  : option (nat * MatchState) :=
  match matchAt r nGroups i with
  | Some z => Some (i, z)
  | None =>
      match fuel with
      | O => None
      | S fuel' => scanFrom r nGroups fuel' (S i)
      end
  end.
End Matcher.

(** A RegExp object: its pattern and flags, and the mutable [lastIndex]. *)
Record RegExpObj : Type := mkRegExp {
  pattern : regex;
  nGroups : nat;
  global : bool;
  sticky : bool;
  lastIndex : nat
}.

Definition setLastIndex (R : RegExpObj) (i : nat) : RegExpObj :=
  mkRegExp (pattern R) (nGroups R) (global R) (sticky R) i.

(** The array a successful exec returns: [index], element 0 (the matched
    text) and one element per capture group ([None] for undefined).  The
    array [String.prototype.match] returns for a global RegExp has no
    [index] and lists all the matched texts. *)
Record MatchResult : Type := mkResult {
  index : option nat;
  items : list (option jsstring)
}.

Definition resultOf (str : jsstring) (i : nat) (z : MatchState) : MatchResult :=
  mkResult (Some i)
    (Some (slice str i (endIndex z))
     :: map (fun cap => match cap with
                        | Some (s, e) => Some (slice str s e)
                        | None => None
                        end) (captures z)).

(** RegExpBuiltinExec: a RegExp that is neither global nor sticky starts
    at offset 0 and leaves [lastIndex] alone. *)
Definition RegExpBuiltinExec (R : RegExpObj) (str : jsstring)
  : option (nat * MatchState) * RegExpObj :=
  let useLast := global R || sticky R in
  let i0 := if useLast then lastIndex R else O in
  let fail := if useLast then setLastIndex R 0 else R in
  if (length str <? i0)%nat then (None, fail)
  else
    let found :=
      if sticky R then
        match matchAt str (pattern R) (nGroups R) i0 with
        | Some z => Some (i0, z)
        | None => None
        end
      else scanFrom str (pattern R) (nGroups R) (length str - i0) i0 in
    match found with
    | None => (None, fail)
    | Some (i, z) =>
        (Some (i, z), if useLast then setLastIndex R (endIndex z) else R)
    end.

(** [R.test(str)]. *)
Definition test (R : RegExpObj) (str : jsstring) : bool * RegExpObj :=
  let '(m, R') := RegExpBuiltinExec R str in
  (match m with Some _ => true | None => false end, R').

(** The loop of [RegExp.prototype[Symbol.match]] for a global RegExp:
    collect the matched texts until exec fails; an empty match advances
    [lastIndex] by one.  Every round moves [lastIndex] forward, so
    [length str + 2] rounds reach the failing exec. *)
Fixpoint matchAll (fuel : nat) (R : RegExpObj) (str : jsstring) (acc : list (option jsstring))
  : list (option jsstring) * RegExpObj :=
  match fuel with
  | O => (acc, R)
  | S fuel' =>
      match RegExpBuiltinExec R str with
      | (None, R') => (acc, R')
      | (Some (i, z), R') =>
          let R'' := if (endIndex z =? i)%nat then setLastIndex R' (S (lastIndex R')) else R' in
          matchAll fuel' R'' str (acc ++ [Some (slice str i (endIndex z))])
      end
  end.

(** [str.match(R)]. *)
Definition String_match (str : jsstring) (R : RegExpObj) : option MatchResult * RegExpObj :=
  if global R then
    match matchAll (length str + 2) (setLastIndex R 0) str [] with
    | ([], R') => (None, R')
    | (A, R') => (Some (mkResult None A), R')
    end
  else
    match RegExpBuiltinExec R str with
    | (Some (i, z), R') => (Some (resultOf str i z), R')
    | (None, R') => (None, R')
    end.

(** The language of a pattern: which code-unit sequences it can consume.
    Iterations of a [Star] are non-empty, as in the matcher. *)
Inductive Lang : regex -> jsstring -> Prop :=
| L_Empty : Lang Empty []
| L_CharSet A ch : A ch = true -> Lang (CharSet A) [ch]
| L_Seq r1 r2 s1 s2 : Lang r1 s1 -> Lang r2 s2 -> Lang (Seq r1 r2) (s1 ++ s2)
| L_DisjL r1 r2 s : Lang r1 s -> Lang (Disj r1 r2) s
| L_DisjR r1 r2 s : Lang r2 s -> Lang (Disj r1 r2) s
| L_StarNil g r : Lang (Star g r) []
| L_StarCons g r s1 s2 :
    s1 <> [] -> Lang r s1 -> Lang (Star g r) s2 -> Lang (Star g r) (s1 ++ s2)
| L_Group n r s : Lang r s -> Lang (Group n r) s.

End RegExp.
Import RegExp.

(* ===================================================================== *)
(** * Outcomes of fallible code *)
(* ===================================================================== *)
Module Eff.

(** What a call produces: a value, or a thrown Error with its message. *)
Inductive Outcome (A : Type) : Type :=
| Return (a : A)
| Throw (message : string).
Arguments Return {A} a.
Arguments Throw {A} message.

Definition isThrow {A} (o : Outcome A) : bool :=
  match o with Throw _ => true | Return _ => false end.

End Eff.
Import Eff.

(* ===================================================================== *)
(** * services/analysisService.ts *)
(* ===================================================================== *)
Module AnalysisService.

Inductive HighlightType : Type := source | helper | bracket.

#[global] Instance HighlightType_eq_dec : EqDecision HighlightType.
Proof. solve_decision. Defined.

Record Highlight : Type := mkHighlight {
  h_start : Z;
  h_end : Z;
  h_type : HighlightType
}.

(** AnalysisResult of types.ts. *)
Record AnalysisResult : Type := mkAnalysis {
  score : Z;
  highlights : list Highlight
}.

Definition labelWords : list string :=
  ["name"; "source"; "sauce"; "anime"; "movie"; "title"; "track"; "song"]%string.

Definition isSeparator (c : N) : bool :=
  ((c =? cu ":") || (c =? cu "=") || (c =? cu "-"))%N.

(** The code units between the brackets of the HELPER class, as the
    source file spells them: U+0027, U+00E2, U+20AC, U+2122. *)
Definition isApostrophe (c : N) : bool :=
  ((c =? 0x27) || (c =? 0xE2) || (c =? 0x20AC) || (c =? 0x2122))%N.

(** An alternation of literal words, [w1|w2|...]. *)
Fixpoint anyWord (ignoreCase : bool) (ws : list string) : regex :=
  match ws with
  | [] => CharSet (fun _ => false)
  | [w] => Word ignoreCase (lit w)
  | w :: ws' => Disj (Word ignoreCase (lit w)) (anyWord ignoreCase ws')
  end.

(** SOURCE: group 1 is one of the label words, then [\s*], one of
    [:], [=], [-], then [\s*], then group 2: [.+]; flag [i]. *)
Definition SOURCE_pattern : regex :=
  Seq (Group 0 (anyWord true labelWords))
    (Seq (Star true Space)
       (Seq (CharSet isSeparator)
          (Seq (Star true Space)
             (Group 1 (Plus Dot))))).

(** HELPER: [it], an optional code unit of the apostrophe class, [s],
    [\s*], then group 1: a capitalized word followed by any number of
    group 2 (one [\s] and a capitalized word); case-sensitive. *)
Definition capitalized : regex := Seq (Range (cu "A") (cu "Z")) (Plus (Range (cu "a") (cu "z"))).

Definition HELPER_pattern : regex :=
  Seq (Word false (lit "it"))
    (Seq (Opt (CharSet isApostrophe))
       (Seq (Chr false (cu "s"))
          (Seq (Star true Space)
             (Group 0 (Seq capitalized (Star true (Group 1 (Seq Space capitalized)))))))).

(** BRACKET: an opening bracket, group 1: [.*?] (lazy), a closing
    bracket. *)
Definition BRACKET_pattern : regex :=
  Seq (Chr false (cu "[")) (Seq (Group 0 (Star false Dot)) (Chr false (cu "]"))).

(** QUESTION: group 1 is one of what, name, sauce, then a question
    mark; flag [i]. *)
Definition QUESTION_pattern : regex :=
  Seq (Group 0 (anyWord true ["what"; "name"; "sauce"]%string)) (Chr true (cu "?")).

(** The module-level PATTERNS object: four RegExp objects shared by all
    calls. *)
Record Patterns : Type := mkPatterns {
  SOURCE : RegExpObj;
  HELPER : RegExpObj;
  BRACKET : RegExpObj;
  QUESTION : RegExpObj
}.

(** PATTERNS with the given values of the four [lastIndex] properties;
    none of the four has the [g] or the [y] flag. *)
Definition PATTERNS_at (l1 l2 l3 l4 : nat) : Patterns :=
  mkPatterns (mkRegExp SOURCE_pattern 2 false false l1)
             (mkRegExp HELPER_pattern 2 false false l2)
             (mkRegExp BRACKET_pattern 1 false false l3)
             (mkRegExp QUESTION_pattern 1 false false l4).

Definition PATTERNS : Patterns := PATTERNS_at 0 0 0 0.

(** [m[k]]: undefined past the end of the array and for a group that
    did not take part in the match. *)
Definition item (m : MatchResult) (k : nat) : option jsstring :=
  match items m !! k with
  | Some (Some s) => Some s
  | _ => None
  end.

(** The body of [if (m.index !== undefined) { ... highlights.push(...) }]
    of the source and helper steps, highlighting group [g].  Reading
    [indexOf] or [length] of an undefined element throws. *)
Definition groupHighlight (m : MatchResult) (g : nat) (ty : HighlightType)
  : Outcome (list Highlight) :=
  match index m with
  | None => Return []
  | Some i =>
      match item m 0, item m g with
      | Some fullMatch, Some value =>
          let valueStart := Z.of_nat i + indexOf fullMatch value in
          Return [mkHighlight valueStart (valueStart + Z.of_nat (length value)) ty]
      | _, _ => Throw "TypeError"
      end
  end.

Definition bracketHighlight (m : MatchResult) : Outcome (list Highlight) :=
  match index m with
  | None => Return []
  | Some i =>
      match item m 0 with
      | Some full =>
          Return [mkHighlight (Z.of_nat i) (Z.of_nat i + Z.of_nat (length full)) bracket]
      | None => Throw "TypeError"
      end
  end.

(** One scoring step: on a match add [points] and push what [hl] gives. *)
Definition step (m : option MatchResult) (points : Z)
    (hl : MatchResult -> Outcome (list Highlight)) (acc : AnalysisResult)
  : Outcome AnalysisResult :=
  match m with
  | None => Return acc
  | Some r =>
      match hl r with
      | Return hs => Return (mkAnalysis (score acc + points) (highlights acc ++ hs))
      | Throw e => Throw e
      end
  end.

Definition analyzeComment (text : jsstring) (P : Patterns)
  : Outcome AnalysisResult * Patterns :=
  let acc0 := mkAnalysis 0 [] in
  (* 1. The Answer *)
  let '(sourceMatch, R1) := String_match text (SOURCE P) in
  let P1 := mkPatterns R1 (HELPER P) (BRACKET P) (QUESTION P) in
  match step sourceMatch 80 (fun m => groupHighlight m 2 source) acc0 with
  | Throw e => (Throw e, P1)
  | Return acc1 =>
  (* 2. The Helper *)
  let '(helperMatch, R2) := String_match text (HELPER P1) in
  let P2 := mkPatterns (SOURCE P1) R2 (BRACKET P1) (QUESTION P1) in
  match step helperMatch 50 (fun m => groupHighlight m 1 helper) acc1 with
  | Throw e => (Throw e, P2)
  | Return acc2 =>
  (* 3. The Bracket *)
  let '(bracketMatch, R3) := String_match text (BRACKET P2) in
  let P3 := mkPatterns (SOURCE P2) (HELPER P2) R3 (QUESTION P2) in
  match step bracketMatch 40 bracketHighlight acc2 with
  | Throw e => (Throw e, P3)
  | Return acc3 =>
  (* 4. The Question *)
  let '(question, R4) := test (QUESTION P3) text in
  let P4 := mkPatterns (SOURCE P3) (HELPER P3) (BRACKET P3) R4 in
  let score4 := if question then score acc3 + 10 else score acc3 in
  (Return (mkAnalysis (Z.min score4 100) (highlights acc3)), P4)
  end end end.

End AnalysisService.

(* ===================================================================== *)
(** * types.ts *)
(* ===================================================================== *)
Module Comment.
Record t : Type := mk {
  id : string;
  parentId : option string;    (* null if top-level *)
  videoId : string;
  authorName : string;
  authorProfileImageUrl : string;
  textDisplay : jsstring;
  textOriginal : jsstring;
  likeCount : Z;
  replyCount : Z;
  publishedAt : string;
  isSuperThanks : bool;
  isPinned : bool;
  repliesFetched : bool;
  score : Z
}.

(** [{ ...c, repliesFetched: b }] *)
Definition setRepliesFetched (b : bool) (c : t) : t :=
  mk (id c) (parentId c) (videoId c) (authorName c) (authorProfileImageUrl c)
     (textDisplay c) (textOriginal c) (likeCount c) (replyCount c) (publishedAt c)
     (isSuperThanks c) (isPinned c) b (score c).
End Comment.

Module VideoMetadata.
Inductive ScanStatus : Type := idle | scanning_toplevel | scanning_replies | complete.

Record t : Type := mk {
  videoId : string;
  title : string;
  thumbnailUrl : string;
  totalComments : Z;
  lastScanned : Z;
  scanStatus : ScanStatus
}.
End VideoMetadata.

Module Status.
Inductive t : Type := idle | running | paused | error | complete.
End Status.

Module Mode.
Inductive t : Type := smart | deep.
End Mode.

Module ScanStats.
Record t : Type := mk {
  fetchedCount : Z;
  totalEstimated : Z;
  status : Status.t;
  mode : option Mode.t;
  error : option string       (* error?: string *)
}.
End ScanStats.

(* ===================================================================== *)
(** * The remote API and the local database *)
(* ===================================================================== *)
Module Remote.

(** The snippet of a comment resource, as far as the code reads it. *)
Record Snippet : Type := mkSnippet {
  authorDisplayName : string;
  authorProfileImageUrl : string;
  textDisplay : jsstring;
  textOriginal : jsstring;
  likeCount : Z;
  totalReplyCount : option Z;
  publishedAt : string
}.

(** A comment resource: [id], [snippet] and, when present, a [replies]
    member with its [comments] array. *)
#[warnings="-register-all"]
Inductive ApiComment : Type :=
  mkApiComment (id : string) (snippet : Snippet) (replies : option (list ApiComment)).

Definition id (c : ApiComment) : string := let 'mkApiComment i _ _ := c in i.
Definition snippet (c : ApiComment) : Snippet := let 'mkApiComment _ s _ := c in s.
Definition replies (c : ApiComment) : option (list ApiComment) :=
  let 'mkApiComment _ _ r := c in r.

(** A commentThread resource: [snippet.topLevelComment], [replies] with
    its [comments] array when the thread has inlined replies, and
    [snippet.totalReplyCount], the number of replies that the thread
    reports.  The service reads the first two; the reply count it records
    comes from the comment resource handed to mapApiCommentToLocal, and
    no line of it reads the total of the thread. *)
Record ApiThread : Type := mkApiThread {
  topLevelComment : ApiComment;
  threadReplies : option (list ApiComment);
  threadTotalReplyCount : option Z
}.

(** A video resource: [snippet.title], [snippet.thumbnails.medium.url],
    [statistics.commentCount] (already read as a number when present). *)
Record ApiVideo : Type := mkApiVideo {
  title : string;
  thumbnailUrl : string;
  commentCount : option Z
}.

Inductive Items : Type :=
| Videos (l : list ApiVideo)
| Threads (l : list ApiThread)
| Comments (l : list ApiComment).

(** A parsed response body: [items] (possibly missing, as in an error
    body) and [nextPageToken]. *)
Record Body : Type := mkBody {
  items : option Items;
  nextPageToken : option string
}.

(** An HTTP response; [body = None] when the body is not JSON, so that
    [json()] rejects. *)
Record Response : Type := mkResponse {
  status : Z;
  body : option Body
}.

(** [res.ok]: the status is in the range 200-299. *)
Definition ok (res : Response) : bool := (200 <=? status res) && (status res <=? 299).

Record Request : Type := mkRequest {
  endpoint : string;
  params : list (string * string)
}.

(** The world the service acts on: the responses the remote side will
    give to the coming requests, the requests sent so far, the two
    tables of the database the service writes, and the clock. *)
Record World : Type := mkWorld {
  remote : list Response;
  sent : list Request;
  comments : gmap string Comment.t;
  videos : gmap string VideoMetadata.t;
  now : Z
}.

Definition setComments (f : gmap string Comment.t -> gmap string Comment.t) (w : World) : World :=
  mkWorld (remote w) (sent w) (f (comments w)) (videos w) (now w).

Definition setVideos (f : gmap string VideoMetadata.t -> gmap string VideoMetadata.t) (w : World) : World :=
  mkWorld (remote w) (sent w) (comments w) (f (videos w)) (now w).

(** The world after [req] went out, with [rest] the responses still to come. *)
Definition sendTo (req : Request) (rest : list Response) (w : World) : World :=
  mkWorld rest (sent w ++ [req]) (comments w) (videos w) (now w).

(** [fetch(url)]: the request goes out and the next response comes
    back; with no response to come the promise rejects. *)
Definition fetch (req : Request) (w : World) : Outcome Response * World :=
  match remote w with
  | [] => (Throw "Failed to fetch", sendTo req [] w)
  | res :: rest => (Return res, sendTo req rest w)
  end.

(** [db.comments.bulkPut(cs)]: rows keyed by [id], later rows win. *)
Definition bulkPut (cs : list Comment.t) (tbl : gmap string Comment.t) : gmap string Comment.t :=
  foldl (fun m c => <[Comment.id c := c]> m) tbl cs.

(** [db.comments.update(key, { repliesFetched: true })]: changes the row
    when there is one. *)
Definition update_repliesFetched (key : string) (tbl : gmap string Comment.t)
  : gmap string Comment.t :=
  alter (Comment.setRepliesFetched true) key tbl.

End Remote.

(* ===================================================================== *)
(** * services/youtubeService.ts: the three fetch operations *)
(* ===================================================================== *)
Module YoutubeService.
Import Remote.

(** [x || 0] on an optional number. *)
Definition orZero (x : option Z) : Z :=
  match x with Some n => n | None => 0 end.

(** [tok || null] on an optional string: the empty string is falsy. *)
Definition orNull (tok : option string) : option string :=
  match tok with
  | Some t => if decide (t = "") then None else Some t
  | None => None
  end.

(** mapApiCommentToLocal.  analyzeComment leaves PATTERNS as it finds it
    (lemma [analyzeComment_eq] below), so the state of the patterns is
    not threaded through the service. *)
Definition mapApiCommentToLocal (item : ApiComment) (videoId : string)
    (parentId : option string) : Outcome Comment.t :=
  let snippet := snippet item in
  match fst (AnalysisService.analyzeComment (textOriginal snippet) AnalysisService.PATTERNS) with
  | Throw e => Throw e
  | Return analysis =>
      Return (Comment.mk (id item) parentId videoId
                (authorDisplayName snippet) (authorProfileImageUrl snippet)
                (textDisplay snippet) (textOriginal snippet) (likeCount snippet)
                (match replies item with
                 | Some comments => Z.of_nat (length comments)
                 | None => orZero (totalReplyCount snippet)
                 end)
                (publishedAt snippet)
                false false false
                (AnalysisService.score analysis))
  end.

(** [items.map(item => mapApiCommentToLocal(item, videoId, parentId))] *)
Fixpoint mapComments (items : list ApiComment) (videoId : string) (parentId : option string)
  : Outcome (list Comment.t) :=
  match items with
  | [] => Return []
  | item :: rest =>
      match mapApiCommentToLocal item videoId parentId with
      | Throw e => Throw e
      | Return c =>
          match mapComments rest videoId parentId with
          | Throw e => Throw e
          | Return cs => Return (c :: cs)
          end
      end
  end.

(** fetchVideoDetails: no status check; a body without items gives null. *)
Definition fetchVideoDetails (videoId apiKey : string) (w : World)
  : Outcome (option VideoMetadata.t) * World :=
  let req := mkRequest "videos"
               [("part", "snippet,statistics"); ("id", videoId); ("key", apiKey)] in
  match fetch req w with
  | (Throw e, w1) => (Throw e, w1)
  | (Return response, w1) =>
      match body response with
      | None => (Throw "SyntaxError", w1)
      | Some data =>
          match items data with
          | None | Some (Videos []) | Some (Threads []) | Some (Comments []) => (Return None, w1)
          | Some (Videos (item :: _)) =>
              let meta := VideoMetadata.mk videoId (title item) (thumbnailUrl item)
                            (orZero (commentCount item)) (now w1) VideoMetadata.idle in
              (Return (Some meta), setVideos (fun t => <[videoId := meta]> t) w1)
          | Some _ => (Throw "TypeError", w1)
          end
      end
  end.

(** The objects created while a thread page is mapped: [heap] holds
    them by address, [refs] is the [comments] array, which holds
    addresses.  [topLevelComment] is pushed before its [repliesFetched]
    is assigned, and the array sees the assignment. *)
Record Batch : Type := mkBatch {
  heap : list Comment.t;
  refs : list nat
}.

Definition push (c : Comment.t) (b : Batch) : nat * Batch :=
  (length (heap b), mkBatch (heap b ++ [c]) (refs b ++ [length (heap b)])).

Definition deref (b : Batch) : list Comment.t :=
  omap (fun a => heap b !! a) (refs b).

Fixpoint pushReplies (rs : list ApiComment) (videoId parent : string) (b : Batch)
  : Outcome Batch :=
  match rs with
  | [] => Return b
  | reply :: rest =>
      match mapApiCommentToLocal reply videoId (Some parent) with
      | Throw e => Throw e
      | Return c => pushReplies rest videoId parent (snd (push c b))
      end
  end.

(** The body of [for (const item of data.items)]. *)
Definition threadItem (item : ApiThread) (videoId : string) (b : Batch) : Outcome Batch :=
  match mapApiCommentToLocal (topLevelComment item) videoId None with
  | Throw e => Throw e
  | Return topLevel =>
      let '(a, b1) := push topLevel b in
      match threadReplies item with
      | Some comments =>
          match pushReplies comments videoId (Comment.id topLevel) b1 with
          | Throw e => Throw e
          | Return b2 =>
              (* If we got all replies, mark fetched *)
              if Z.of_nat (length comments) >=? Comment.replyCount topLevel then
                Return (mkBatch (alter (Comment.setRepliesFetched true) a (heap b2)) (refs b2))
              else Return b2
          end
      | None => Return b1
      end
  end.

Fixpoint threadItems (items : list ApiThread) (videoId : string) (b : Batch) : Outcome Batch :=
  match items with
  | [] => Return b
  | item :: rest =>
      match threadItem item videoId b with
      | Throw e => Throw e
      | Return b' => threadItems rest videoId b'
      end
  end.

(** fetchCommentThreads.  The value is the next page token together
    with the count handed to [onProgress], which is called once, after
    the bulkPut. *)
Definition fetchCommentThreads (videoId apiKey pageToken : string) (w : World)
  : Outcome (option string * Z) * World :=
  let req := mkRequest "commentThreads"
               ([("part", "snippet,replies"); ("videoId", videoId); ("maxResults", "100");
                 ("key", apiKey); ("textFormat", "plainText")]
                ++ if decide (pageToken = "") then [] else [("pageToken", pageToken)]) in
  match fetch req w with
  | (Throw e, w1) => (Throw e, w1)
  | (Return res, w1) =>
      if status res =? 403 then (Throw "Quota Exceeded", w1)
      else if negb (ok res) then (Throw "Network Error", w1)
      else
        match body res with
        | None => (Throw "SyntaxError", w1)
        | Some data =>
            match items data with
            | Some (Threads its) =>
                match threadItems its videoId (mkBatch [] []) with
                | Throw e => (Throw e, w1)
                | Return b =>
                    let comments := deref b in
                    (Return (orNull (nextPageToken data), Z.of_nat (length comments)),
                     setComments (bulkPut comments) w1)
                end
            | Some (Videos []) | Some (Comments []) =>
                (Return (orNull (nextPageToken data), 0), w1)
            | _ => (Throw "TypeError", w1)
            end
        end
  end.

(** The pagination loop of fetchReplies.  Each round sends one request
    and takes the next response ([fetch], written out so that the loop
    recurses on the responses to come, [rs = remote w]).  [false] in the
    result means that the loop was left by [break] after a response
    that was not ok, [true] that a page came without a next token. *)
Fixpoint repliesLoop (rs : list Response) (parentId videoId apiKey pageToken : string)
    (w : World) : Outcome bool * World :=
  let req := mkRequest "comments"
               ([("part", "snippet"); ("parentId", parentId); ("maxResults", "100");
                 ("key", apiKey); ("textFormat", "plainText")]
                ++ if decide (pageToken = "") then [] else [("pageToken", pageToken)]) in
  match rs with
  | [] => (Throw "Failed to fetch", sendTo req [] w)
  | res :: rs' =>
      let w1 := sendTo req rs' w in
      if negb (ok res) then (Return false, w1)   (* Fail silently *)
      else
        match body res with
        | None => (Throw "SyntaxError", w1)
        | Some data =>
            match items data with
            | Some (Comments its) =>
                match mapComments its videoId (Some parentId) with
                | Throw e => (Throw e, w1)
                | Return replies =>
                    let w2 := setComments (bulkPut replies) w1 in
                    match orNull (nextPageToken data) with
                    | None => (Return true, w2)
                    | Some tok => repliesLoop rs' parentId videoId apiKey tok w2
                    end
                end
            | Some (Videos []) | Some (Threads []) =>
                match orNull (nextPageToken data) with
                | None => (Return true, w1)
                | Some tok => repliesLoop rs' parentId videoId apiKey tok w1
                end
            | _ => (Throw "TypeError", w1)
            end
        end
  end.

(** fetchReplies: the loop, then the parent is marked as fetched. *)
Definition fetchReplies (parentId videoId apiKey : string) (w : World)
  : Outcome unit * World :=
  match repliesLoop (remote w) parentId videoId apiKey "" w with
  | (Throw e, w') => (Throw e, w')
  | (Return _, w') =>
      (* Mark parent as fetched *)
      (Return tt, setComments (update_repliesFetched parentId) w')
  end.

End YoutubeService.

(* ===================================================================== *)
(** * services/youtubeService.ts: the rate limiter queue *)
(* ===================================================================== *)
Module RequestQueue.

(** Where processQueue stands: not running ([isProcessingQueue] is
    false), at [await task()], or at [await delay(250)] with the time
    at which the timer is due. *)
Inductive Worker : Type :=
| Idle
| AwaitTask (task : nat)
| AwaitDelay (due : N).

(** One dispatch: which request, when its task was started and when it
    settled. *)
Record Dispatch : Type := mkDispatch {
  task : nat;
  started : N;
  settled : option N
}.

(** The queue, the worker, the time in milliseconds, and a record of
    what was enqueued (oldest first) and dispatched (newest first) so
    far. *)
Record State : Type := mk {
  requestQueue : list nat;
  worker : Worker;
  clock : N;
  enqueued : list nat;
  dispatched : list Dispatch
}.

Definition initial : State := mk [] Idle 0 [] [].

Definition isProcessingQueue (s : State) : bool :=
  match worker s with Idle => false | _ => true end.

(** The head of [while (requestQueue.length > 0)]: shift the next task
    and start it, or leave the loop and clear [isProcessingQueue]. *)
Definition loopHead (s : State) : State :=
  match requestQueue s with
  | [] => mk [] Idle (clock s) (enqueued s) (dispatched s)
  | t :: q =>
      mk q (AwaitTask t) (clock s) (enqueued s)
         (mkDispatch t (clock s) None :: dispatched s)
  end.

(** processQueue(), when called. *)
Definition processQueue (s : State) : State :=
  if isProcessingQueue s then s else loopHead s.

(** enqueueRequest(request): push the wrapped request, call processQueue. *)
Definition enqueueRequest (request : nat) (s : State) : State :=
  processQueue (mk (requestQueue s ++ [request]) (worker s) (clock s)
                   (enqueued s ++ [request]) (dispatched s)).

Definition settleLast (t : N) (l : list Dispatch) : list Dispatch :=
  match l with
  | [] => []
  | d :: before => mkDispatch (task d) (started d) (Some t) :: before
  end.

Inductive Event : Type :=
| Enqueue (request : nat)     (* a caller calls enqueueRequest *)
| TaskSettles                 (* the promise of the running task settles *)
| TimerFires                  (* the timer of delay(250) fires *)
| Tick (ms : N).              (* time passes *)

(** One event; [None] when it cannot happen in this state: no task is
    running, or the timer is not set or not yet due. *)
Definition step (s : State) (e : Event) : option State :=
  match e with
  | Enqueue request => Some (enqueueRequest request s)
  | Tick ms => Some (mk (requestQueue s) (worker s) (clock s + ms) (enqueued s) (dispatched s))
  | TaskSettles =>
      match worker s with
      | AwaitTask _ =>
          Some (mk (requestQueue s) (AwaitDelay (clock s + 250)) (clock s) (enqueued s)
                   (settleLast (clock s) (dispatched s)))
      | _ => None
      end
  | TimerFires =>
      match worker s with
      | AwaitDelay due => if (due <=? clock s)%N then Some (loopHead s) else None
      | _ => None
      end
  end.

Fixpoint run (s : State) (es : list Event) : option State :=
  match es with
  | [] => Some s
  | e :: es' =>
      match step s e with
      | Some s' => run s' es'
      | None => None
      end
  end.

End RequestQueue.

(* ===================================================================== *)
(** * The queries of Dexie that the dashboard uses *)
(* ===================================================================== *)
Module Dexie.

(** [Array.prototype.sort] with a comparator, as a stable insertion
    sort; [before a b] says that [a] may stand in front of [b]. *)
Fixpoint insertSorted {A} (before : A -> A -> bool) (x : A) (l : list A) : list A :=
  match l with
  | [] => [x]
  | y :: l' => if before x y then x :: l else y :: insertSorted before x l'
  end.

Definition sort {A} (before : A -> A -> bool) (l : list A) : list A :=
  foldr (insertSorted before) [] l.

(** The rows of the comments table in the order of the primary key. *)
Definition rows (tbl : gmap string Comment.t) : list Comment.t :=
  (map_to_list tbl).*2.

(** [toArray()]: the rows by ascending id.  Ids are compared character
    by character; for ids of ASCII characters this is the order of the
    keys of IndexedDB, which compares the code units of UTF-16. *)
Definition toArray (tbl : gmap string Comment.t) : list Comment.t :=
  sort (fun a b => String.leb (Comment.id a) (Comment.id b)) (rows tbl).

(** [where('videoId').equals(v)] *)
Definition whereVideoId (v : string) (tbl : gmap string Comment.t) : list Comment.t :=
  filter (fun c => Comment.videoId c = v) (toArray tbl).

(** The order of the keys [[videoId, score]] of the compound index:
    arrays are compared member by member. *)
Definition compareKey (k1 k2 : string * Z) : comparison :=
  match String.compare (fst k1) (fst k2) with
  | Eq => Z.compare (snd k1) (snd k2)
  | c => c
  end.

Definition keyLe (k1 k2 : string * Z) : bool :=
  match compareKey k1 k2 with Gt => false | _ => true end.

Definition videoId_score (c : Comment.t) : string * Z := (Comment.videoId c, Comment.score c).

(** The rows in the order of the index [[videoId+score]]. *)
Definition index_videoId_score (tbl : gmap string Comment.t) : list Comment.t :=
  sort (fun a b => keyLe (videoId_score a) (videoId_score b)) (toArray tbl).

(** [.between(lower, upper, true, true)] on that index. *)
Definition between (lower upper : string * Z) (l : list Comment.t) : list Comment.t :=
  filter (fun c => keyLe lower (videoId_score c) && keyLe (videoId_score c) upper = true) l.

(** [.sortBy('score')] of a collection whose direction is [prev] (after
    [.reverse()]): the array in collection order, sorted by descending
    score. *)
Definition sortBy_score_prev (l : list Comment.t) : list Comment.t :=
  sort (fun a b => Comment.score b <=? Comment.score a) l.

End Dexie.

(* ===================================================================== *)
(** * components/Dashboard.tsx: queries, scan start / stop / run *)
(* ===================================================================== *)
Module Dashboard.
Import Remote.

(** The candidates query:
    [where('[videoId+score]').between([videoId, 1], [videoId, 100], true, true)
     .reverse().sortBy('score')]. *)
Definition candidates (videoId : string) (tbl : gmap string Comment.t) : list Comment.t :=
  Dexie.sortBy_score_prev
    (reverse (Dexie.between (videoId, 1) (videoId, 100) (Dexie.index_videoId_score tbl))).

(** [!c.parentId]: null and the empty string are falsy. *)
Definition noParent (c : Comment.t) : bool :=
  match Comment.parentId c with
  | None => true
  | Some p => bool_decide (p = "")
  end.

(** The filter of the smart scan and the filter of the deep scan. *)
Definition promising (c : Comment.t) : bool :=
  noParent c && negb (Comment.repliesFetched c) && (0 <? Comment.replyCount c)
  && (10 <? Comment.score c).

Definition unexpanded (c : Comment.t) : bool :=
  noParent c && (0 <? Comment.replyCount c) && negb (Comment.repliesFetched c).

(** Where a scan is suspended: the [await] it waits at, with the local
    variables that are live there. *)
Inductive Frame : Type :=
| SmartGetMeta
| SmartFetchDetails
| SmartFetchThreads (pageToken : string) (totalFetched : Z)
| SmartPromising (pageToken : option string) (totalFetched : Z)
| SmartReplies (thread : Comment.t) (rest : list Comment.t)
               (pageToken : option string) (totalFetched : Z)
| DeepThreads
| DeepReplies (t : Comment.t) (rest : list Comment.t) (totalFetched : Z).

(** The component: the [stats] state, [cancelScanRef.current], the scans
    suspended at an [await], and the world of the service. *)
Record State : Type := mk {
  stats : ScanStats.t;
  cancelScanRef : bool;
  runs : list Frame;
  world : World
}.

Definition setStats (f : ScanStats.t -> ScanStats.t) (d : State) : State :=
  mk (f (stats d)) (cancelScanRef d) (runs d) (world d).

Definition setStatus (st : Status.t) (prev : ScanStats.t) : ScanStats.t :=
  ScanStats.mk (ScanStats.fetchedCount prev) (ScanStats.totalEstimated prev) st
               (ScanStats.mode prev) (ScanStats.error prev).

(** [{ ...prev, fetchedCount: prev.fetchedCount + count }].  The sum is
    that of the integers; the sum of two numbers of JS is this one as
    long as the operands and the result are safe integers. *)
Definition addFetched (count : Z) (prev : ScanStats.t) : ScanStats.t :=
  ScanStats.mk (ScanStats.fetchedCount prev + count) (ScanStats.totalEstimated prev)
               (ScanStats.status prev) (ScanStats.mode prev) (ScanStats.error prev).

(** [catch (e) { setStats(prev => ({ ...prev, status: 'error', error: e.message })) }] *)
Definition catch (message : string) (d : State) : State :=
  setStats (fun prev => ScanStats.mk (ScanStats.fetchedCount prev) (ScanStats.totalEstimated prev)
                          Status.error (ScanStats.mode prev) (Some message)) d.

Section Props.
Variables videoId apiKey : string.

(** The synchronous part of handleSmartScan, up to its first [await]:
    [{ ...prev, status: 'running', mode: 'smart', error: undefined }]. *)
Definition handleSmartScan (d : State) : State :=
  mk (ScanStats.mk (ScanStats.fetchedCount (stats d)) (ScanStats.totalEstimated (stats d))
        Status.running (Some Mode.smart) None)
     false (runs d ++ [SmartGetMeta]) (world d).

(** The synchronous part of handleDeepScan:
    [{ ...stats, status: 'running', mode: 'deep' }]. *)
Definition handleDeepScan (d : State) : State :=
  mk (ScanStats.mk (ScanStats.fetchedCount (stats d)) (ScanStats.totalEstimated (stats d))
        Status.running (Some Mode.deep) (ScanStats.error (stats d)))
     false (runs d ++ [DeepThreads]) (world d).

Definition stopScan (d : State) : State :=
  mk (setStatus Status.paused (stats d)) true (runs d) (world d).

(** After the loops: [setStats(prev => ({ ...prev, status: 'complete' }))];
    the scan has ended. *)
Definition finish (d : State) : option Frame * State :=
  (None, setStats (setStatus Status.complete) d).

(** The head of [while (pageToken !== null && !cancelScanRef.current)]. *)
Definition smartWhile (pageToken : option string) (totalFetched : Z) (d : State)
  : option Frame * State :=
  match pageToken with
  | Some tok =>
      if cancelScanRef d then finish d
      else (Some (SmartFetchThreads tok totalFetched), d)
  | None => finish d
  end.

(** The head of [for (const thread of promisingThreads)]. *)
Definition smartFor (threads : list Comment.t) (pageToken : option string)
    (totalFetched : Z) (d : State) : option Frame * State :=
  match threads with
  | [] => smartWhile pageToken totalFetched d
  | thread :: rest =>
      if cancelScanRef d then smartWhile pageToken totalFetched d   (* break *)
      else (Some (SmartReplies thread rest pageToken totalFetched), d)
  end.

(** The head of [for (let i = 0; i < threads.length; i++)]. *)
Definition deepFor (threads : list Comment.t) (totalFetched : Z) (d : State)
  : option Frame * State :=
  match threads with
  | [] => finish d
  | t :: rest =>
      if cancelScanRef d then finish d   (* break *)
      else (Some (DeepReplies t rest totalFetched), d)
  end.

Definition withWorld (w : World) (d : State) : State :=
  mk (stats d) (cancelScanRef d) (runs d) w.

(** The awaited call of a suspended scan settles, and the scan runs
    on to its next [await] or to its end.  A call of the service is
    carried out, requests and writes together, when the frame that waits
    for it is resumed: the world records what a call has done once it has
    settled, and not the moment at which its first request left. *)
Definition resume (f : Frame) (d : State) : option Frame * State :=
  match f with
  | SmartGetMeta =>
      match videos (world d) !! videoId with
      | None => (Some SmartFetchDetails, d)
      | Some _ => smartWhile (Some "") 0 d
      end
  | SmartFetchDetails =>
      match YoutubeService.fetchVideoDetails videoId apiKey (world d) with
      | (Throw e, w) => (None, catch e (withWorld w d))
      | (Return _, w) => smartWhile (Some "") 0 (withWorld w d)
      end
  | SmartFetchThreads pageToken totalFetched =>
      match YoutubeService.fetchCommentThreads videoId apiKey pageToken (world d) with
      | (Throw e, w) => (None, catch e (withWorld w d))
      | (Return (next, count), w) =>
          (Some (SmartPromising next (totalFetched + count)),
           setStats (addFetched count) (withWorld w d))
      end
  | SmartPromising pageToken totalFetched =>
      smartFor (filter (fun c => promising c = true)
                  (Dexie.whereVideoId videoId (comments (world d))))
               pageToken totalFetched d
  | SmartReplies thread rest pageToken totalFetched =>
      match YoutubeService.fetchReplies (Comment.id thread) videoId apiKey (world d) with
      | (Throw e, w) => (None, catch e (withWorld w d))
      | (Return _, w) => smartFor rest pageToken totalFetched (withWorld w d)
      end
  | DeepThreads =>
      deepFor (filter (fun c => unexpanded c = true)
                 (Dexie.whereVideoId videoId (comments (world d))))
              0 d
  | DeepReplies t rest totalFetched =>
      match YoutubeService.fetchReplies (Comment.id t) videoId apiKey (world d) with
      | (Throw e, w) => (None, catch e (withWorld w d))
      | (Return _, w) =>
          deepFor rest (totalFetched + Comment.replyCount t)
            (setStats (addFetched (Comment.replyCount t)) (withWorld w d))
      end
  end.

(** What can happen to the component: a click on a scan button, a
    click on Stop, or the awaited call of the [k]-th suspended scan
    settling. *)
Inductive Event : Type :=
| StartSmart
| StartDeep
| Stop
| Settle (k : nat).

Definition step (d : State) (e : Event) : State :=
  match e with
  | StartSmart => handleSmartScan d
  | StartDeep => handleDeepScan d
  | Stop => stopScan d
  | Settle k =>
      match runs d !! k with
      | None => d
      | Some f =>
          let '(f', d') := resume f d in
          mk (stats d') (cancelScanRef d')
             (match f' with
              | Some g => <[k := g]> (runs d')
              | None => delete k (runs d')
              end)
             (world d')
      end
  end.

Definition run (d : State) (es : list Event) : State := foldl step d es.

End Props.

(** The component as it is mounted. *)
Definition initial (w : World) : State :=
  mk (ScanStats.mk 0 0 Status.idle None None) false [] w.

End Dashboard.

(* ===================================================================== *)
(** * components/CommentCard.tsx: HighlightedText *)
(* ===================================================================== *)
Module CommentCard.
Import AnalysisService.

(** An index argument of [String.prototype.slice] brought into
    [0 .. len]: a negative index counts from the end. *)
Definition clampIndex (len : nat) (k : Z) : nat :=
  if k <? 0 then Z.to_nat (Z.max (Z.of_nat len + k) 0)
  else Z.to_nat (Z.min k (Z.of_nat len)).

(** [text.slice(a, b)] and [text.slice(a)]. *)
Definition sliceZ (text : jsstring) (a b : Z) : jsstring :=
  slice text (clampIndex (length text) a) (clampIndex (length text) b).

Definition sliceFrom (text : jsstring) (a : Z) : jsstring :=
  slice text (clampIndex (length text) a) (length text).

(** The class of a highlighted span. *)
Definition colorClass (ty : HighlightType) : string :=
  match ty with
  | source => "bg-green-500/20 text-green-300 font-bold border-b-2 border-green-500"
  | bracket => "bg-yellow-500/20 text-yellow-300 border-b border-yellow-500/50"
  | helper => "bg-blue-500/20 text-blue-300 border-b border-blue-500/50"
  end.

(** A rendered [span]: plain text ([kind = None]) or a highlighted span. *)
Record Part : Type := mkPart {
  kind : option HighlightType;
  content : jsstring
}.

(** The body of [forEach]: the state is [lastIndex] and [parts]. *)
Definition renderStep (text : jsstring) (st : Z * list Part) (h : Highlight)
  : Z * list Part :=
  let '(lastIndex, parts) := st in
  let parts1 :=
    if lastIndex <? h_start h
    then parts ++ [mkPart None (sliceZ text lastIndex (h_start h))]
    else parts in
  (h_end h, parts1 ++ [mkPart (Some (h_type h)) (sliceZ text (h_start h) (h_end h))]).

(** [highlights.sort((a, b) => a.start - b.start)] *)
Definition sortByStart (highlights : list Highlight) : list Highlight :=
  Dexie.sort (fun a b => h_start a <=? h_start b) highlights.

(** What HighlightedText renders for [text] with the given highlights. *)
Definition renderParts (text : jsstring) (highlights : list Highlight) : list Part :=
  match highlights with
  | [] => [mkPart None text]
  | _ =>
      let '(lastIndex, parts) := foldl (renderStep text) (0, []) (sortByStart highlights) in
      if lastIndex <? Z.of_nat (length text)
      then parts ++ [mkPart None (sliceFrom text lastIndex)]
      else parts
  end.

(** The component: the highlights come from analyzeComment. *)
Definition HighlightedText (text : jsstring) : Outcome (list Part) :=
  match fst (analyzeComment text PATTERNS) with
  | Return r => Return (renderParts text (highlights r))
  | Throw e => Throw e
  end.

End CommentCard.

(* ===================================================================== *)
(** * db.ts: resetDatabaseForVideo *)
(* ===================================================================== *)
Module Db.
Import Remote.

(** [db.comments.where('videoId').equals(videoId).delete()] *)
Definition deleteWhereVideoId (videoId : string) (tbl : gmap string Comment.t)
  : gmap string Comment.t :=
  filter (fun kv => Comment.videoId kv.2 <> videoId) tbl.

Definition resetDatabaseForVideo (videoId : string) (w : World) : World :=
  setVideos (delete videoId) (setComments (deleteWhereVideoId videoId) w).

End Db.

(* ===================================================================== *)
(** * components/Dashboard.tsx: the All tab and Clear *)
(* ===================================================================== *)
Module DashboardRest.
Import Remote.

Definition keyLt (k1 k2 : string * Z) : bool :=
  match Dexie.compareKey k1 k2 with Lt => true | _ => false end.

Definition videoId_likeCount (c : Comment.t) : string * Z :=
  (Comment.videoId c, Comment.likeCount c).

(** The rows in the order of the index [[videoId+likeCount]]: by key, and
    by primary key where the keys are equal. *)
Definition index_videoId_likeCount (tbl : gmap string Comment.t) : list Comment.t :=
  Dexie.sort (fun a b => Dexie.keyLe (videoId_likeCount a) (videoId_likeCount b))
    (Dexie.toArray tbl).

(** [.between(lower, upper)]: the lower bound is included, the upper
    bound is not. *)
Definition between (lower upper : string * Z) (l : list Comment.t) : list Comment.t :=
  filter (fun c => Dexie.keyLe lower (videoId_likeCount c)
                   && keyLt (videoId_likeCount c) upper = true) l.

(** The query of the All tab:
    [where('[videoId+likeCount]').between([videoId, 0], [videoId, 99999999])
     .reverse().limit(100).toArray()]. *)
Definition allComments (videoId : string) (tbl : gmap string Comment.t) : list Comment.t :=
  take 100 (reverse (between (videoId, 0) (videoId, 99999999) (index_videoId_likeCount tbl))).

(** handleClear, run from the click to its end:
    [await resetDatabaseForVideo(videoId)] and then
    [setStats({ fetchedCount: 0, totalEstimated: 0, status: 'idle', mode: null })]. *)
Definition handleClear (videoId : string) (d : Dashboard.State) : Dashboard.State :=
  Dashboard.mk (ScanStats.mk 0 0 Status.idle None None)
    (Dashboard.cancelScanRef d) (Dashboard.runs d)
    (Db.resetDatabaseForVideo videoId (Dashboard.world d)).

End DashboardRest.

(* ===================================================================== *)
(** * services/youtubeService.ts: isValidApiKeyFormat, sanitizeError *)
(* ===================================================================== *)
Module ApiKey.

(** [r{n}] for an atom without capture groups: the atom [n] times. *)
Fixpoint Times (n : nat) (r : regex) : regex :=
  match n with
  | O => Empty
  | S n' => Seq r (Times n' r)
  end.

(** The class [A-Za-z0-9_-]. *)
Definition keyChar (ch : N) : bool :=
  (((cu "A" <=? ch) && (ch <=? cu "Z")) || ((cu "a" <=? ch) && (ch <=? cu "z"))
   || ((cu "0" <=? ch) && (ch <=? cu "9")) || (ch =? cu "_") || (ch =? cu "-"))%N.

(** [AIza], then 35 code units of the class. *)
Definition KEY_pattern : regex :=
  Seq (Word false (lit "AIza")) (Times 35 (CharSet keyChar)).

Section Anchors.
Variable Input : jsstring.

(** The assertions [^] and [$] without the [m] flag: the match is at
    offset 0, or at the end of the input. *)
Definition AssertStart (x : MatchState) (c : Continuation) : option MatchState :=
  if (endIndex x =? 0)%nat then c x else None.

Definition AssertEnd (x : MatchState) (c : Continuation) : option MatchState :=
  if (endIndex x =? length Input)%nat then c x else None.

(** The matcher of [^r$]. *)
Definition anchored (r : regex) (x : MatchState) (c : Continuation) : option MatchState :=
  AssertStart x (fun y => compile Input r y (fun z => AssertEnd z c)).

(** The attempts of exec at the offsets [i], [i+1], ... *)
Fixpoint scanWith (m : MatchState -> Continuation -> option MatchState) (nGroups : nat)
    (fuel : nat) (i : nat) : option (nat * MatchState) :=
  match m (mkState i (replicate nGroups None)) Some with
  | Some z => Some (i, z)
  | None =>
      match fuel with
      | O => None
      | S fuel' => scanWith m nGroups fuel' (S i)
      end
  end.
End Anchors.

(** [/^AIza[A-Za-z0-9_-]{35}$/.test(key)]; the RegExp is created by the
    call and has no [g] or [y] flag. *)
Definition isValidApiKeyFormat (key : jsstring) : bool :=
  match scanWith (anchored key KEY_pattern) 0 (length key) 0 with
  | Some _ => true
  | None => false
  end.

(** The results that [RegExp.prototype[Symbol.replace]] collects for a
    global RegExp: the spans of the matches, until exec fails; after an
    empty match [lastIndex] is advanced by one. *)
Fixpoint execAll (fuel : nat) (R : RegExpObj) (str : jsstring) : list (nat * nat) * RegExpObj :=
  match fuel with
  | O => ([], R)
  | S fuel' =>
      match RegExpBuiltinExec R str with
      | (None, R') => ([], R')
      | (Some (i, z), R') =>
          let R'' := if (endIndex z =? i)%nat then setLastIndex R' (S (lastIndex R')) else R' in
          let '(results, Rf) := execAll fuel' R'' str in
          ((i, endIndex z) :: results, Rf)
      end
  end.

(** The result string: for each match at or after [nextSourcePosition],
    the text up to the match and the replacement; at last the rest of
    the text.  None of the replacement strings of sanitizeError has a
    dollar sign, so the substitution is the replacement as it is. *)
Fixpoint substitute (str replacement : jsstring) (nextSourcePosition : nat)
    (results : list (nat * nat)) : jsstring :=
  match results with
  | [] => drop nextSourcePosition str
  | (position, e) :: results' =>
      if (nextSourcePosition <=? position)%nat
      then slice str nextSourcePosition position ++ replacement
           ++ substitute str replacement e results'
      else substitute str replacement nextSourcePosition results'
  end.

(** [str.replace(R, replacement)] for a global [R]: [lastIndex] is set
    to 0 first.  Every exec moves [lastIndex] forward, so
    [length str + 2] rounds reach the failing exec. *)
Definition replace (str : jsstring) (R : RegExpObj) (replacement : jsstring) : jsstring :=
  substitute str replacement 0 (fst (execAll (length str + 2) (setLastIndex R 0) str)).

(** [https?:\/\/[^\s]+] *)
Definition URL_pattern : regex :=
  Seq (Word false (lit "http"))
    (Seq (Opt (Chr false (cu "s")))
       (Seq (Word false (lit "://"))
          (Plus (CharSet (fun ch => negb (isWhiteSpace ch)))))).

(** The class [a-zA-Z0-9_\-\/]. *)
Definition pathChar (ch : N) : bool := (keyChar ch || (ch =? cu "/")%N).

(** A slash, code units of the class, a dot, and group 1: one of ts,
    tsx, js, jsx. *)
Definition FILE_pattern : regex :=
  Seq (Chr false (cu "/"))
    (Seq (Plus (CharSet pathChar))
       (Seq (Chr false (cu "."))
          (Group 0 (Disj (Word false (lit "ts"))
                      (Disj (Word false (lit "tsx"))
                         (Disj (Word false (lit "js")) (Word false (lit "jsx")))))))).

Definition sanitizeError (error : jsstring) : jsstring :=
  let sanitized := replace error (mkRegExp KEY_pattern 0 true false 0) (lit "[REDACTED_KEY]") in
  let sanitized := replace sanitized (mkRegExp URL_pattern 0 true false 0) (lit "[URL_REDACTED]") in
  replace sanitized (mkRegExp FILE_pattern 1 true false 0) (lit "[FILE]").

End ApiKey.

(* ===================================================================== *)
(** * services/youtubeService.ts: validateApiKey *)
(* ===================================================================== *)
Module ValidateKey.
Import ApiKey.

(** What the request of validateApiKey comes to: [fetch] rejects with
    an error, of which the code reads [e.message], or a response arrives,
    of which the code reads [ok], [status] and, when it is not ok,
    [data.error.message] of the body; [errorMessage] is [None] when the
    body is not JSON, has no such member, or the member is not a string
    (the inner [catch] covers all of these). *)
Inductive FetchOutcome : Type :=
| Rejects (message : option jsstring)
| Responds (status : Z) (errorMessage : option jsstring).

Record Validation : Type := mkValidation {
  isValid : bool;
  error : option jsstring
}.

(** A string in a condition: the empty string is falsy. *)
Definition truthy (s : option jsstring) : option jsstring :=
  match s with
  | Some (ch :: m) => Some (ch :: m)
  | _ => None
  end.

(** A status number in a template literal. *)
Definition decimal (n : Z) : jsstring := lit (NilZero.string_of_int (Z.to_int n)).

Definition quote : N := 34%N.

Definition formatError : jsstring :=
  lit "Invalid key format. YouTube API v3 keys typically start with "
  ++ [quote] ++ lit "AIza" ++ [quote] ++ lit " and are 39 characters long.".

Definition validationUrl (apiKey : jsstring) : jsstring :=
  lit "https://www.googleapis.com/youtube/v3/videos?part=snippet&chart=mostPopular&maxResults=1&key="
  ++ apiKey.

(** validateApiKey: the result, and the URLs that were requested.  The
    request does not go through the rate limiter queue. *)
Definition validateApiKey (apiKey : jsstring) (remote : jsstring -> FetchOutcome)
  : Validation * list jsstring :=
  if negb (isValidApiKeyFormat apiKey) then (mkValidation false (Some formatError), [])
  else
    let url := validationUrl apiKey in
    (match remote url with
     | Responds status errorMessage =>
         if (200 <=? status) && (status <=? 299) then mkValidation true None
         else
           mkValidation false
             (Some (match truthy errorMessage with
                    | Some m => sanitizeError m
                    | None => lit "API Error " ++ decimal status
                    end))
     | Rejects message =>
         mkValidation false
           (Some (sanitizeError (match truthy message with
                                 | Some m => m
                                 | None => lit "Network validation failed"
                                 end)))
     end, [url]).

End ValidateKey.

(* ===================================================================== *)
(** * App.tsx: extractVideoId; services/analyticsService.ts: isYouTubeShort *)
(* ===================================================================== *)
Module VideoId.
Import ApiKey.

(** [s.trim()]: white space and line terminators are removed at both
    ends. *)
Fixpoint trimStart (s : jsstring) : jsstring :=
  match s with
  | [] => []
  | ch :: s' => if isWhiteSpace ch then trimStart s' else s
  end.

Definition trim (s : jsstring) : jsstring := reverse (trimStart (reverse (trimStart s))).

(** The body of the pattern for a raw id: 11 code units of the class
    [a-zA-Z0-9_-]; in isYouTubeShort they are group 1. *)
Definition ID_pattern : regex := Times 11 (CharSet keyChar).

(** [\w] *)
Definition wordChar (ch : N) : bool :=
  (((cu "A" <=? ch) && (ch <=? cu "Z")) || ((cu "a" <=? ch) && (ch <=? cu "z"))
   || ((cu "0" <=? ch) && (ch <=? cu "9")) || (ch =? cu "_"))%N.

(** Group 1 of the URL pattern: one of [youtu.be/] (the dot is any
    character), [v/], [u/\w/], [embed/], [watch?v=], [&v=], [shorts/]. *)
Definition markers : regex :=
  Disj (Seq (Word false (lit "youtu")) (Seq Dot (Word false (lit "be/"))))
    (Disj (Word false (lit "v/"))
       (Disj (Seq (Word false (lit "u/")) (Seq (CharSet wordChar) (Chr false (cu "/"))))
          (Disj (Word false (lit "embed/"))
             (Disj (Word false (lit "watch?v="))
                (Disj (Word false (lit "&v=")) (Word false (lit "shorts/"))))))).

(** The class [^#&?]. *)
Definition notDelim (ch : N) : bool :=
  negb ((ch =? cu "#") || (ch =? cu "&") || (ch =? cu "?"))%N.

(** The URL pattern after its [^]: [.*], group 1, group 2: [[^#&?]*],
    [.*]. *)
Definition URL_ID_pattern : regex :=
  Seq (Star true Dot)
    (Seq (Group 0 markers)
       (Seq (Group 1 (Star true (CharSet notDelim))) (Star true Dot))).

(** The matcher of [^r]. *)
Definition anchoredStart (Input : jsstring) (r : regex) (x : MatchState) (c : Continuation)
  : option MatchState :=
  AssertStart x (fun y => compile Input r y c).

Definition extractVideoId (url : jsstring) : Outcome (option jsstring) :=
  let cleanUrl := trim url in
  match scanWith (anchored cleanUrl ID_pattern) 0 (length cleanUrl) 0 with
  | Some _ => Return (Some cleanUrl)
  | None =>
      match scanWith (anchoredStart cleanUrl URL_ID_pattern) 2 (length cleanUrl) 0 with
      | None => Return None
      | Some (_, z) =>
          match captures z !! 1%nat with
          | Some (Some (s, e)) =>
              if (length (slice cleanUrl s e) =? 11)%nat
              then Return (Some (slice cleanUrl s e))
              else Return None
          | _ => Throw "TypeError"   (* match[2] is undefined *)
          end
      end
  end.

(** [youtube\.com\/shorts\/] with the [i] flag. *)
Definition SHORTS_pattern : regex := Word true (lit "youtube.com/shorts/").

Definition isYouTubeShort (url : jsstring) : bool :=
  match scanFrom url SHORTS_pattern 0 (length url) 0 with
  | Some _ => true
  | None =>
      match scanWith (anchored (trim url) (Group 0 ID_pattern)) 1 (length (trim url)) 0 with
      | Some _ => true
      | None => false
      end
  end.

End VideoId.

(* ===================================================================== *)
(** * Properties *)
(* ===================================================================== *)

Module RegExpFacts.

Lemma slice_nil (s : jsstring) i : slice s i i = [].
Proof. unfold slice. by rewrite Nat.sub_diag. Qed.

Lemma slice_app (s : jsstring) i j k :
  (i <= j)%nat -> (j <= k)%nat -> (k <= length s)%nat ->
  slice s i j ++ slice s j k = slice s i k.
Proof.
  intros Hij Hjk Hk. unfold slice.
  replace (drop j s) with (drop (j - i) (drop i s))
    by (rewrite drop_drop; f_equal; lia).
  rewrite take_take_drop. f_equal. lia.
Qed.

Lemma slice_one (s : jsstring) i ch : s !! i = Some ch -> slice s i (S i) = [ch].
Proof.
  intros H. unfold slice. replace (S i - i)%nat with 1%nat by lia.
  by rewrite (drop_S _ _ _ H).
Qed.

Lemma length_slice (s : jsstring) i j :
  (i <= j)%nat -> (j <= length s)%nat -> length (slice s i j) = (j - i)%nat.
Proof. intros. unfold slice. rewrite length_take, length_drop. lia. Qed.

Lemma length_resetCaptures gs caps : length (resetCaptures gs caps) = length caps.
Proof. induction gs as [|g gs IH]; simpl; [done|]. by rewrite length_insert. Qed.

(** ** Inversion of the language of a pattern *)

Lemma Lang_Empty_inv s : Lang Empty s -> s = [].
Proof. by inversion 1. Qed.

Lemma Lang_CharSet_inv A s : Lang (CharSet A) s -> exists ch, s = [ch] /\ A ch = true.
Proof. inversion 1; subst; eauto. Qed.

Lemma Lang_Seq_inv r1 r2 s :
  Lang (Seq r1 r2) s -> exists s1 s2, s = s1 ++ s2 /\ Lang r1 s1 /\ Lang r2 s2.
Proof. inversion 1; subst; eauto. Qed.

Lemma Lang_Disj_inv r1 r2 s : Lang (Disj r1 r2) s -> Lang r1 s \/ Lang r2 s.
Proof. inversion 1; subst; eauto. Qed.

Lemma Lang_Group_inv n r s : Lang (Group n r) s -> Lang r s.
Proof. by inversion 1. Qed.

Lemma Lang_Star_CharSet g A s :
  Lang (Star g (CharSet A)) s <-> Forall (fun ch => A ch = true) s.
Proof.
  split.
  - intros H. remember (Star g (CharSet A)) as r eqn:Er.
    induction H as [| | | | | |g' r' s1 s2 Hne H1 _ H2 IH|]; try discriminate.
    + constructor.
    + inversion Er; subst. apply Lang_CharSet_inv in H1 as (ch & -> & HA).
      constructor; [done | by apply IH].
  - induction 1 as [|ch s HA _ IH]; [constructor|].
    change (ch :: s) with ([ch] ++ s). apply L_StarCons; [done | by constructor | done].
Qed.

Lemma Lang_Plus_CharSet A s :
  Lang (Plus (CharSet A)) s <-> s <> [] /\ Forall (fun ch => A ch = true) s.
Proof.
  unfold Plus. split.
  - intros H. apply Lang_Seq_inv in H as (s1 & s2 & -> & H1 & H2).
    apply Lang_CharSet_inv in H1 as (ch & -> & HA).
    apply Lang_Star_CharSet in H2. split; [done | by constructor].
  - intros [Hne H]. destruct H as [|ch s HA H]; [done|].
    change (ch :: s) with ([ch] ++ s). constructor; [by constructor|].
    by apply Lang_Star_CharSet.
Qed.

Lemma Lang_Word ic w s :
  Lang (Word ic w) s <-> map (Canonicalize ic) s = map (Canonicalize ic) w.
Proof.
  revert s. induction w as [|c w IH]; intros s; simpl.
  - split.
    + intros H. apply Lang_Empty_inv in H. by subst.
    + intros H. destruct s; [constructor | done].
  - split.
    + intros H. apply Lang_Seq_inv in H as (s1 & s2 & -> & H1 & H2).
      apply Lang_CharSet_inv in H1 as (ch & -> & HA). apply N.eqb_eq in HA.
      simpl. f_equal; [done | by apply IH].
    + intros H. destruct s as [|ch s]; [done|]. simpl in H. inversion H as [[Hc Hs]].
      change (ch :: s) with ([ch] ++ s). constructor.
      * constructor. by apply N.eqb_eq.
      * by apply IH.
Qed.

Section Soundness.
Variable Input : jsstring.

(** What a successful run of a matcher [m] for pattern [r] guarantees. *)
Definition sound_for (r : regex) (m : MatchState -> Continuation -> option MatchState) : Prop :=
  forall x c z, (endIndex x <= length Input)%nat -> m x c = Some z ->
    exists y, (endIndex x <= endIndex y)%nat /\ (endIndex y <= length Input)%nat /\
              length (captures y) = length (captures x) /\
              Lang r (slice Input (endIndex x) (endIndex y)) /\
              c y = Some z.

Lemma RepeatMatcher_sound g r m gs :
  sound_for r m ->
  forall fuel, sound_for (Star g r) (fun x c => RepeatMatcher m g gs c fuel x).
Proof.
  intros Hm fuel. induction fuel as [|fuel IH]; intros x c z Hx H; simpl in H.
  - exists x. rewrite slice_nil. repeat split; try lia; try done. constructor.
  - assert (Hstop : c x = Some z ->
              exists y, (endIndex x <= endIndex y)%nat /\ (endIndex y <= length Input)%nat /\
                length (captures y) = length (captures x) /\
                Lang (Star g r) (slice Input (endIndex x) (endIndex y)) /\ c y = Some z).
    { intros Hc. exists x. rewrite slice_nil. repeat split; try lia; try done. constructor. }
    assert (Hiter : m (mkState (endIndex x) (resetCaptures gs (captures x)))
                      (fun y => if (endIndex y =? endIndex x)%nat then None
                                else RepeatMatcher m g gs c fuel y) = Some z ->
              exists y, (endIndex x <= endIndex y)%nat /\ (endIndex y <= length Input)%nat /\
                length (captures y) = length (captures x) /\
                Lang (Star g r) (slice Input (endIndex x) (endIndex y)) /\ c y = Some z).
    { intros Hi. apply Hm in Hi; [|done]. simpl in Hi.
      destruct Hi as (y & Hxy & Hy & Hlen & HL & Hd).
      destruct (Nat.eqb_spec (endIndex y) (endIndex x)) as [|Hne]; [done|].
      apply IH in Hd; [|done].
      destruct Hd as (y' & Hyy' & Hy' & Hlen' & HL' & Hc).
      exists y'. repeat split; try lia; try done.
      - rewrite Hlen', Hlen. apply length_resetCaptures.
      - rewrite <- (slice_app Input (endIndex x) (endIndex y) (endIndex y')) by lia.
        apply L_StarCons; try done.
        intros E. apply (f_equal length) in E. rewrite length_slice in E by lia.
        simpl in E. lia. }
    destruct g.
    + destruct (m _ _) eqn:E; [inversion H; subst; by apply Hiter | by apply Hstop].
    + destruct (c x) eqn:E; [inversion H; subst; by apply Hstop | by apply Hiter].
Qed.

Lemma compile_sound r : sound_for r (compile Input r).
Proof.
  induction r as [|A|r1 IH1 r2 IH2|r1 IH1 r2 IH2|g r1 IH1|n r1 IH1]; intros x c z Hx H; simpl in H.
  - exists x. rewrite slice_nil. repeat split; try lia; try done. constructor.
  - destruct (Input !! endIndex x) as [ch|] eqn:E; [|done].
    destruct (A ch) eqn:EA; [|done].
    exists (mkState (S (endIndex x)) (captures x)). simpl.
    apply lookup_lt_Some in E as Hlt.
    repeat split; try lia; try done.
    rewrite (slice_one _ _ _ E). by constructor.
  - apply IH1 in H; [|done]. destruct H as (y1 & H1 & H1' & Hl1 & HL1 & H).
    apply IH2 in H; [|done]. destruct H as (y2 & H2 & H2' & Hl2 & HL2 & H).
    exists y2. repeat split; try lia; try done; try congruence.
    rewrite <- (slice_app Input (endIndex x) (endIndex y1) (endIndex y2)) by lia.
    by constructor.
  - destruct (compile Input r1 x c) eqn:E.
    + inversion H; subst. apply IH1 in E; [|done].
      destruct E as (y & ? & ? & ? & ? & ?). exists y. repeat split; try done. by apply L_DisjL.
    + apply IH2 in H; [|done].
      destruct H as (y & ? & ? & ? & ? & ?). exists y. repeat split; try done. by apply L_DisjR.
  - exact (RepeatMatcher_sound g r1 _ (groups r1) IH1
             (S (length Input - endIndex x)) x c z Hx H).
  - apply IH1 in H; [|done]. destruct H as (y & H1 & H1' & Hl1 & HL1 & H).
    exists (mkState (endIndex y) (<[n := Some (endIndex x, endIndex y)]> (captures y))).
    simpl. rewrite length_insert. repeat split; try done. by constructor.
Qed.
End Soundness.

Section Completeness.
Variable Input : jsstring.

Definition accepts (c : Continuation) (j : nat) : Prop :=
  forall caps, c (mkState j caps) <> None.

(** A matcher [m] for [r] finds a match whenever the input at [x]
    starts with a word of the language that the continuation accepts. *)
Definition complete_for (r : regex) (m : MatchState -> Continuation -> option MatchState) : Prop :=
  forall s x c rest, Lang r s -> drop (endIndex x) Input = s ++ rest ->
    accepts c (endIndex x + length s) -> m x c <> None.

Lemma accepts_at c x : accepts c (endIndex x + 0) -> c x <> None.
Proof. intros H. destruct x as [i caps]. simpl in H. rewrite Nat.add_0_r in H. apply H. Qed.

Lemma RepeatMatcher_complete g r m gs :
  complete_for r m ->
  forall fuel s x c rest, Lang (Star g r) s -> (length s < fuel)%nat ->
    drop (endIndex x) Input = s ++ rest ->
    accepts c (endIndex x + length s) ->
    RepeatMatcher m g gs c fuel x <> None.
Proof.
  intros Hm fuel. induction fuel as [|fuel IH]; intros s x c rest HL Hlen Hd Hacc; [lia|].
  simpl. inversion HL as [| | | | |g' r'|g' r' s1 s2 Hne H1 H2|]; subst.
  - apply accepts_at in Hacc.
    destruct g; [destruct (m _ _); done | destruct (c x); done].
  - assert (Hit : m (mkState (endIndex x) (resetCaptures gs (captures x)))
                    (fun y => if (endIndex y =? endIndex x)%nat then None
                              else RepeatMatcher m g gs c fuel y) <> None).
    { apply (Hm s1 _ _ (s2 ++ rest) H1); simpl.
      - by rewrite Hd, <- app_assoc.
      - intros caps. simpl.
        assert (0 < length s1)%nat by (destruct s1; [done | simpl; lia]).
        destruct (Nat.eqb_spec (endIndex x + length s1) (endIndex x)) as [E|_]; [lia|].
        rewrite length_app in Hlen, Hacc.
        apply (IH s2 _ _ rest H2); simpl; [lia | |].
        + rewrite <- drop_drop, Hd, <- app_assoc. apply drop_app_length.
        + by rewrite <- Nat.add_assoc. }
    destruct g; [destruct (m _ _); done | destruct (c x); done].
Qed.

Lemma compile_complete r : complete_for r (compile Input r).
Proof.
  induction r as [|A|r1 IH1 r2 IH2|r1 IH1 r2 IH2|g r1 IH1|n r1 IH1];
    intros s x c rest HL Hd Hacc.
  - inversion HL; subst. simpl. by apply accepts_at.
  - inversion HL as [|A' ch HA| | | | | |]; subst. simpl.
    assert (E : Input !! endIndex x = Some ch).
    { pose proof (lookup_drop Input (endIndex x) 0) as E0.
      rewrite Nat.add_0_r in E0. by rewrite <- E0, Hd. }
    rewrite E, HA. simpl in Hacc. rewrite Nat.add_1_r in Hacc. apply Hacc.
  - inversion HL as [| |r1' r2' s1 s2 H1 H2| | | | |]; subst. simpl.
    apply (IH1 s1 _ _ (s2 ++ rest) H1); [by rewrite Hd, <- app_assoc|].
    intros caps. apply (IH2 s2 _ _ rest H2); simpl.
    + rewrite <- drop_drop, Hd, <- app_assoc. apply drop_app_length.
    + rewrite length_app in Hacc. by rewrite <- Nat.add_assoc.
  - simpl. inversion HL as [| | |r1' r2' s' H1|r1' r2' s' H2| | |]; subst.
    + pose proof (IH1 s x c rest H1 Hd Hacc). by destruct (compile Input r1 x c).
    + pose proof (IH2 s x c rest H2 Hd Hacc). by destruct (compile Input r1 x c).
  - apply (RepeatMatcher_complete g r1 _ (groups r1) IH1 _ s x c rest HL); [|done|done].
    apply (f_equal length) in Hd. rewrite length_drop, length_app in Hd. lia.
  - inversion HL as [| | | | | | |n' r' s' H1]; subst. simpl.
    apply (IH1 s x _ rest H1 Hd). intros caps. apply Hacc.
Qed.
End Completeness.

(** ** The search over start offsets *)

Lemma scanFrom_Some str r n fuel i j z :
  scanFrom str r n fuel i = Some (j, z) ->
  (i <= j)%nat /\ (j <= i + fuel)%nat /\ matchAt str r n j = Some z /\
  forall k, (i <= k)%nat -> (k < j)%nat -> matchAt str r n k = None.
Proof.
  revert i. induction fuel as [|fuel IH]; intros i H; simpl in H.
  - destruct (matchAt str r n i) eqn:E; [|done]. inversion H; subst.
    repeat split; try lia; try done; intros; lia.
  - destruct (matchAt str r n i) eqn:E.
    + inversion H; subst. repeat split; try lia; try done; intros; lia.
    + apply IH in H as (? & ? & ? & Hk). repeat split; try lia; try done.
      intros k ? ?. destruct (decide (k = i)) as [->|]; [done|]. apply Hk; lia.
Qed.

Lemma scanFrom_None str r n fuel i :
  scanFrom str r n fuel i = None <->
  forall k, (i <= k)%nat -> (k <= i + fuel)%nat -> matchAt str r n k = None.
Proof.
  revert i. induction fuel as [|fuel IH]; intros i; simpl.
  - split.
    + intros H k ? ?. replace k with i by lia. by destruct (matchAt str r n i).
    + intros H. rewrite (H i); [done|lia|lia].
  - split.
    + intros H k ? ?. destruct (matchAt str r n i) eqn:E; [done|].
      destruct (decide (k = i)) as [->|]; [done|].
      apply (proj1 (IH (S i)) H); lia.
    + intros H. rewrite (H i) by lia. apply IH. intros k ? ?. apply H; lia.
Qed.

(** [contains r str]: some substring of [str] is in the language of [r]. *)
Definition contains (r : regex) (str : jsstring) : Prop :=
  exists pre s post, str = pre ++ s ++ post /\ Lang r s.

Lemma slice_split (s : jsstring) i j :
  (i <= j)%nat -> (j <= length s)%nat -> s = take i s ++ slice s i j ++ drop j s.
Proof.
  intros Hij Hj. unfold slice.
  replace (drop j s) with (drop (j - i) (drop i s)) by (rewrite drop_drop; f_equal; lia).
  by rewrite !take_drop.
Qed.

Lemma scanFrom_contains str r n :
  scanFrom str r n (length str) 0 <> None <-> contains r str.
Proof.
  split.
  - intros H. destruct (scanFrom str r n (length str) 0) as [[j z]|] eqn:E; [|done].
    apply scanFrom_Some in E as (_ & Hj & Hm & _). simpl in Hj.
    apply compile_sound in Hm; [|done]. simpl in Hm.
    destruct Hm as (y & H1 & H2 & _ & HL & _).
    exists (take j str), (slice str j (endIndex y)), (drop (endIndex y) str).
    split; [by apply slice_split | done].
  - intros (pre & s & post & -> & HL) H.
    rewrite scanFrom_None in H.
    specialize (H (length pre)). rewrite !length_app in H.
    assert (Hm : matchAt (pre ++ s ++ post) r n (length pre) <> None).
    { apply (compile_complete _ r s _ _ post HL); simpl; [apply drop_app_length | done]. }
    apply Hm, H; lia.
Qed.

(** A RegExp without the [g] and [y] flags: exec and match do not read
    [lastIndex] and leave the object as it is. *)
Lemma String_match_plain str R :
  global R = false -> sticky R = false ->
  String_match str R =
    (match scanFrom str (pattern R) (nGroups R) (length str) 0 with
     | Some (i, z) => Some (resultOf str i z)
     | None => None
     end, R).
Proof.
  intros Hg Hs. unfold String_match, RegExpBuiltinExec. rewrite Hg, Hs. simpl.
  rewrite Nat.sub_0_r. by destruct (scanFrom _ _ _ _ _) as [[i z]|].
Qed.

Lemma test_plain R str :
  global R = false -> sticky R = false ->
  test R str =
    (match scanFrom str (pattern R) (nGroups R) (length str) 0 with
     | Some _ => true
     | None => false
     end, R).
Proof.
  intros Hg Hs. unfold test, RegExpBuiltinExec. rewrite Hg, Hs. simpl.
  rewrite Nat.sub_0_r. by destruct (scanFrom _ _ _ _ _) as [[i z]|].
Qed.

End RegExpFacts.

Module AnalysisFacts.
Import RegExpFacts AnalysisService.

(** ** Stepping through a sequence of sub-patterns *)

Lemma compile_Seq_inv Input r1 r2 x c z :
  (endIndex x <= length Input)%nat ->
  compile Input (Seq r1 r2) x c = Some z ->
  exists y, (endIndex x <= endIndex y)%nat /\ (endIndex y <= length Input)%nat /\
            length (captures y) = length (captures x) /\
            Lang r1 (slice Input (endIndex x) (endIndex y)) /\
            compile Input r2 y c = Some z.
Proof. intros Hx H. exact (compile_sound Input r1 x _ z Hx H). Qed.

(** A capture group in tail position: its span is recorded in the final
    state, and it ends where the whole match ends. *)
Lemma compile_Group_last Input n r x z :
  (endIndex x <= length Input)%nat -> (n < length (captures x))%nat ->
  compile Input (Group n r) x Some = Some z ->
  captures z !! n = Some (Some (endIndex x, endIndex z)) /\
  (endIndex x <= endIndex z)%nat /\ (endIndex z <= length Input)%nat /\
  Lang r (slice Input (endIndex x) (endIndex z)).
Proof.
  intros Hx Hn H. simpl in H.
  apply compile_sound in H; [|done].
  destruct H as (y & H1 & H2 & Hl & HL & H). inversion H; subst; clear H. simpl.
  repeat split; try done.
  apply list_lookup_insert_eq. lia.
Qed.

Definition scan (R : RegExpObj) (text : jsstring) : option (nat * MatchState) :=
  scanFrom text (pattern R) (nGroups R) (length text) 0.

Lemma scan_Some R text i z :
  scan R text = Some (i, z) ->
  (i <= length text)%nat /\ matchAt text (pattern R) (nGroups R) i = Some z.
Proof. intros H. apply scanFrom_Some in H as (_ & H1 & H2 & _). simpl in H1. done. Qed.

(** Group 2 of SOURCE always takes part in a match, is not empty, and
    ends the match. *)
Lemma SOURCE_captures text i z :
  (i <= length text)%nat -> matchAt text SOURCE_pattern 2 i = Some z ->
  exists s, captures z !! 1%nat = Some (Some (s, endIndex z)) /\
            (i < s)%nat /\ (s < endIndex z)%nat /\ (endIndex z <= length text)%nat.
Proof.
  intros Hi H. unfold matchAt, SOURCE_pattern in H.
  apply compile_Seq_inv in H as (y1 & H1 & H1' & Hl1 & HL1 & H); [|done].
  apply compile_Seq_inv in H as (y2 & H2 & H2' & Hl2 & _ & H); [|done].
  apply compile_Seq_inv in H as (y3 & H3 & H3' & Hl3 & HL3 & H); [|done].
  apply compile_Seq_inv in H as (y4 & H4 & H4' & Hl4 & _ & H); [|done].
  simpl in Hl1. 
  apply compile_Group_last in H as (Hc & H5 & H5' & HL5); [|done|lia].
  exists (endIndex y4). split; [done|].
  assert (endIndex y2 < endIndex y3)%nat.
  { apply Lang_CharSet_inv in HL3 as (ch & E & _).
    apply (f_equal length) in E. rewrite length_slice in E by lia. simpl in E. lia. }
  assert (endIndex y4 < endIndex z)%nat.
  { apply Lang_Plus_CharSet in HL5 as [Hne _].
    destruct (decide (endIndex y4 = endIndex z)) as [E|]; [|lia].
    rewrite E, slice_nil in Hne. done. }
  simpl in *. lia.
Qed.

(** Group 1 of HELPER always takes part in a match. *)
Lemma HELPER_captures text i z :
  (i <= length text)%nat -> matchAt text HELPER_pattern 2 i = Some z ->
  exists s, captures z !! 0%nat = Some (Some (s, endIndex z)) /\
            (i <= s)%nat /\ (s <= endIndex z)%nat /\ (endIndex z <= length text)%nat.
Proof.
  intros Hi H. unfold matchAt, HELPER_pattern in H.
  apply compile_Seq_inv in H as (y1 & H1 & H1' & Hl1 & _ & H); [|done].
  apply compile_Seq_inv in H as (y2 & H2 & H2' & Hl2 & _ & H); [|done].
  apply compile_Seq_inv in H as (y3 & H3 & H3' & Hl3 & _ & H); [|done].
  apply compile_Seq_inv in H as (y4 & H4 & H4' & Hl4 & _ & H); [|done].
  simpl in Hl1.
  apply compile_Group_last in H as (Hc & H5 & H5' & _); [|done|lia].
  exists (endIndex y4). simpl in *. repeat split; try done; lia.
Qed.

(** ** The shape of a text on which the source pattern matches *)


(** [label] is one of [words], up to the case of ASCII letters. *)
Definition isLabelOf (words : list string) (label : jsstring) : Prop :=
  exists w, w ∈ words /\ map (Canonicalize true) label = map (Canonicalize true) (lit w).


Lemma Lang_anyWord ic ws s :
  Lang (anyWord ic ws) s <-> exists w, w ∈ ws /\ Lang (Word ic (lit w)) s.
Proof.
  induction ws as [|w ws IH].
  - simpl. split.
    + intros H. by apply Lang_CharSet_inv in H as (ch & _ & ?).
    + intros (w & Hw & _). by apply elem_of_nil in Hw.
  - destruct ws as [|w' ws].
    + simpl. split.
      * intros H. exists w. split; [apply list_elem_of_here | done].
      * intros (w0 & Hw & H). apply list_elem_of_singleton in Hw. by subst.
    + change (anyWord ic (w :: w' :: ws))
        with (Disj (Word ic (lit w)) (anyWord ic (w' :: ws))).
      split.
      * intros H. apply Lang_Disj_inv in H as [H|H].
        -- exists w. split; [apply list_elem_of_here | done].
        -- apply IH in H as (w0 & Hw & H). exists w0. split; [by apply list_elem_of_further | done].
      * intros (w0 & Hw & H). apply elem_of_cons in Hw as [->|Hw].
        -- by apply L_DisjL.
        -- apply L_DisjR, IH. eauto.
Qed.



(** ** analyzeComment in closed form *)

Definition fired (R : RegExpObj) (text : jsstring) : bool :=
  match scan R text with Some _ => true | None => false end.

Definition points (b : bool) (p : Z) : Z := if b then p else 0.

(** The highlight pushed for capture slot [k] of a match of [R]. *)
Definition captureHighlight (R : RegExpObj) (k : nat) (ty : HighlightType)
    (text : jsstring) : list Highlight :=
  match scan R text with
  | Some (i, z) =>
      match captures z !! k with
      | Some (Some (s, e)) =>
          let value := slice text s e in
          let valueStart := Z.of_nat i + indexOf (slice text i (endIndex z)) value in
          [mkHighlight valueStart (valueStart + Z.of_nat (length value)) ty]
      | _ => []
      end
  | None => []
  end.

Definition wholeHighlight (R : RegExpObj) (text : jsstring) : list Highlight :=
  match scan R text with
  | Some (i, z) =>
      [mkHighlight (Z.of_nat i)
         (Z.of_nat i + Z.of_nat (length (slice text i (endIndex z)))) bracket]
  | None => []
  end.

Lemma item_resultOf text i z k s e :
  captures z !! k = Some (Some (s, e)) ->
  item (resultOf text i z) (S k) = Some (slice text s e).
Proof. intros H. unfold item, resultOf. simpl. by rewrite list_lookup_fmap, H. Qed.

Lemma step_source text acc :
  step (match scan (SOURCE PATTERNS) text with
        | Some (i, z) => Some (resultOf text i z)
        | None => None
        end) 80 (fun m => groupHighlight m 2 source) acc =
  Return (mkAnalysis (score acc + points (fired (SOURCE PATTERNS) text) 80)
            (highlights acc ++ captureHighlight (SOURCE PATTERNS) 1 source text)).
Proof.
  unfold step, fired, captureHighlight.
  destruct (scan (SOURCE PATTERNS) text) as [[i z]|] eqn:E; simpl.
  - apply scan_Some in E as [Hi Hm].
    apply SOURCE_captures in Hm as (s & Hc & _); [|done].
    unfold groupHighlight. simpl index. cbv iota beta.
    rewrite (item_resultOf _ _ _ _ _ _ Hc), Hc. done.
  - destruct acc. simpl. by rewrite Z.add_0_r, app_nil_r.
Qed.

Lemma step_helper text acc :
  step (match scan (HELPER PATTERNS) text with
        | Some (i, z) => Some (resultOf text i z)
        | None => None
        end) 50 (fun m => groupHighlight m 1 helper) acc =
  Return (mkAnalysis (score acc + points (fired (HELPER PATTERNS) text) 50)
            (highlights acc ++ captureHighlight (HELPER PATTERNS) 0 helper text)).
Proof.
  unfold step, fired, captureHighlight.
  destruct (scan (HELPER PATTERNS) text) as [[i z]|] eqn:E; simpl.
  - apply scan_Some in E as [Hi Hm].
    apply HELPER_captures in Hm as (s & Hc & _); [|done].
    unfold groupHighlight. simpl index. cbv iota beta.
    rewrite (item_resultOf _ _ _ _ _ _ Hc), Hc. done.
  - destruct acc. simpl. by rewrite Z.add_0_r, app_nil_r.
Qed.

Lemma step_bracket text acc :
  step (match scan (BRACKET PATTERNS) text with
        | Some (i, z) => Some (resultOf text i z)
        | None => None
        end) 40 bracketHighlight acc =
  Return (mkAnalysis (score acc + points (fired (BRACKET PATTERNS) text) 40)
            (highlights acc ++ wholeHighlight (BRACKET PATTERNS) text)).
Proof.
  unfold step, fired, wholeHighlight.
  destruct (scan (BRACKET PATTERNS) text) as [[i z]|] eqn:E; simpl; [done|].
  destruct acc. simpl. by rewrite Z.add_0_r, app_nil_r.
Qed.

(** The score before the cap. *)
Definition rawScore (text : jsstring) : Z :=
  points (fired (SOURCE PATTERNS) text) 80 + points (fired (HELPER PATTERNS) text) 50
  + points (fired (BRACKET PATTERNS) text) 40 + points (fired (QUESTION PATTERNS) text) 10.

Definition analysis (text : jsstring) : AnalysisResult :=
  mkAnalysis (Z.min (rawScore text) 100)
    (captureHighlight (SOURCE PATTERNS) 1 source text
     ++ captureHighlight (HELPER PATTERNS) 0 helper text
     ++ wholeHighlight (BRACKET PATTERNS) text).

(** Whatever the four [lastIndex] values are, analyzeComment returns
    [analysis text] without throwing and leaves PATTERNS as it found it. *)
Lemma analyzeComment_eq text l1 l2 l3 l4 :
  analyzeComment text (PATTERNS_at l1 l2 l3 l4) =
  (Return (analysis text), PATTERNS_at l1 l2 l3 l4).
Proof.
  unfold analyzeComment.
  rewrite (String_match_plain text (SOURCE (PATTERNS_at l1 l2 l3 l4))) by done.
  cbv zeta. change (SOURCE (PATTERNS_at l1 l2 l3 l4)) with (mkRegExp SOURCE_pattern 2 false false l1).
  change (scanFrom text (pattern (mkRegExp SOURCE_pattern 2 false false l1))
            (nGroups (mkRegExp SOURCE_pattern 2 false false l1)) (length text) 0)
    with (scan (SOURCE PATTERNS) text).
  rewrite step_source.
  rewrite (String_match_plain text (HELPER _)) by done.
  change (scanFrom text (pattern (HELPER _)) (nGroups (HELPER _)) (length text) 0)
    with (scan (HELPER PATTERNS) text).
  rewrite step_helper.
  rewrite (String_match_plain text (BRACKET _)) by done.
  change (scanFrom text (pattern (BRACKET _)) (nGroups (BRACKET _)) (length text) 0)
    with (scan (BRACKET PATTERNS) text).
  rewrite step_bracket.
  rewrite (test_plain (QUESTION _) text) by done.
  change (scanFrom text (pattern (QUESTION _)) (nGroups (QUESTION _)) (length text) 0)
    with (scan (QUESTION PATTERNS) text).
  assert (Hq : match scan (QUESTION PATTERNS) text with Some _ => true | None => false end
               = fired (QUESTION PATTERNS) text) by done.
  rewrite Hq. unfold analysis, rawScore.
  cbv beta iota zeta. cbn [score highlights SOURCE HELPER BRACKET QUESTION PATTERNS_at].
  rewrite <- !app_assoc. simpl app.
  destruct (fired (QUESTION PATTERNS) text);
    [change (points true 10) with 10 | change (points false 10) with 0];
    do 3 f_equal; lia.
Qed.

Lemma points_range b p : 0 <= p -> 0 <= points b p <= p.
Proof. intros. destruct b; simpl; lia. Qed.

Lemma rawScore_nonneg text : 0 <= rawScore text.
Proof.
  unfold rawScore.
  pose proof (points_range (fired (SOURCE PATTERNS) text) 80).
  pose proof (points_range (fired (HELPER PATTERNS) text) 50).
  pose proof (points_range (fired (BRACKET PATTERNS) text) 40).
  pose proof (points_range (fired (QUESTION PATTERNS) text) 10).
  lia.
Qed.

Lemma captureHighlight_kind R k ty text :
  map h_type (captureHighlight R k ty text) = [] \/
  map h_type (captureHighlight R k ty text) = [ty].
Proof.
  unfold captureHighlight. destruct (scan R text) as [[i z]|]; [|by left].
  destruct (captures z !! k) as [[[s e]|]|]; [by right | by left | by left].
Qed.

Lemma wholeHighlight_kind R text :
  map h_type (wholeHighlight R text) = [] \/ map h_type (wholeHighlight R text) = [bracket].
Proof. unfold wholeHighlight. destruct (scan R text) as [[i z]|]; [by right | by left]. Qed.

(** ** indexOf, and where the source highlight is put *)

Lemma startsWith_take (s needle : jsstring) :
  startsWith s needle = true <-> take (length needle) s = needle.
Proof.
  revert s. induction needle as [|n needle IH]; intros s; simpl.
  { destruct s; simpl; by split. }
  destruct s as [|c s]; simpl; [by split|].
  rewrite andb_true_iff, N.eqb_eq, IH. split.
  - intros [-> ->]. done.
  - intros H. inversion H as [[H1 H2]]. by rewrite H2.
Qed.

Lemma indexOf_from_found (s needle : jsstring) k p :
  startsWith (drop p s) needle = true -> (p <= length s)%nat ->
  exists q, (q <= p)%nat /\ indexOf_from s needle k = k + Z.of_nat q /\
            startsWith (drop q s) needle = true /\
            forall j, (j < q)%nat -> startsWith (drop j s) needle = false.
Proof.
  revert k p. induction s as [|c s IH]; intros k p Hp Hlen.
  - exists 0%nat. assert (p = 0%nat) by (simpl in Hlen; lia). subst p.
    change (indexOf_from [] needle k) with (if startsWith [] needle then k else -1).
    change (drop 0 (@nil N)) with (@nil N) in *. rewrite Hp.
    split; [lia|]. split; [lia|]. split; [done|]. intros; lia.
  - change (indexOf_from (c :: s) needle k)
      with (if startsWith (c :: s) needle then k else indexOf_from s needle (k + 1)).
    destruct (startsWith (c :: s) needle) eqn:E.
    + exists 0%nat. split; [lia|]. split; [lia|]. split; [done|]. intros; lia.
    + destruct p as [|p]; [change (drop 0 (c :: s)) with (c :: s) in Hp; congruence|].
      change (drop (S p) (c :: s)) with (drop p s) in Hp. simpl in Hlen. destruct (IH (k + 1) p Hp ltac:(lia)) as (q & Hq & Hi & Hs & Hmin).
      exists (S q). split; [lia|]. split; [rewrite Hi; lia|]. split; [done|].
      intros [|j] Hj; [done|]. apply Hmin. lia.
Qed.

Lemma take_drop_slice (text : jsstring) i e q n :
  (q + n <= e - i)%nat ->
  take n (drop q (slice text i e)) = slice text (i + q) (i + q + n).
Proof.
  intros H. unfold slice.
  replace (e - i)%nat with (q + (e - i - q))%nat by lia.
  rewrite <- take_drop_commute, take_take, drop_drop.
  f_equal; lia.
Qed.




Lemma fired_contains R text : fired R text = true <-> contains (pattern R) text.
Proof.
  rewrite <- (scanFrom_contains text (pattern R) (nGroups R)). unfold fired, scan.
  destruct (scanFrom _ _ _ _ _); split; done.
Qed.



(** C3: for every text and whatever state the shared PATTERNS objects
    are in, analyzeComment returns (it does not throw) a result whose
    score is an integer between 0 and 100; two calls on the same text
    return the same score and highlights, and a call leaves PATTERNS
    unchanged. *)
Theorem analyzeComment_score_range_deterministic
    (text : jsstring) (l1 l2 l3 l4 m1 m2 m3 m4 : nat) :
  exists r : AnalysisResult,
    analyzeComment text (PATTERNS_at l1 l2 l3 l4) = (Return r, PATTERNS_at l1 l2 l3 l4) /\
    analyzeComment text (PATTERNS_at m1 m2 m3 m4) = (Return r, PATTERNS_at m1 m2 m3 m4) /\
    0 <= score r <= 100.
Proof.
  exists (analysis text). rewrite !analyzeComment_eq. repeat split; simpl.
  - pose proof (rawScore_nonneg text). lia.
  - lia.
Qed.

(** C10: analyzeComment produces at most one highlight of each kind, at
    most three in all, and the kinds that are present come in the order
    source, helper, bracket. *)
Theorem analyzeComment_highlights_order (text : jsstring) :
  exists r : AnalysisResult,
    fst (analyzeComment text PATTERNS) = Return r /\
    (length (highlights r) <= 3)%nat /\
    (forall ty, (length (filter (fun t => t = ty) (map h_type (highlights r))) <= 1)%nat) /\
    sublist (map h_type (highlights r)) [source; helper; bracket].
Proof.
  exists (analysis text). unfold PATTERNS. rewrite analyzeComment_eq.
  split; [done|]. rewrite <- (length_map h_type). unfold analysis. cbn [highlights].
  rewrite !map_app.
  destruct (captureHighlight_kind (SOURCE PATTERNS) 1 source text) as [-> | ->],
           (captureHighlight_kind (HELPER PATTERNS) 0 helper text) as [-> | ->],
           (wholeHighlight_kind (BRACKET PATTERNS) text) as [-> | ->];
    (split; [simpl; lia | split; [intros []; vm_compute; lia | simpl; repeat constructor]]).
Qed.



End AnalysisFacts.

Module ServiceFacts.
Import Remote YoutubeService.

(** ** mapApiCommentToLocal never throws *)

(** The reply count that mapApiCommentToLocal records for a comment
    resource: the length of the resource's own [replies.comments] when it
    has that member, otherwise [snippet.totalReplyCount || 0] of the
    resource's own snippet. *)
Definition recordedReplyCount (item : ApiComment) : Z :=
  match replies item with
  | Some comments => Z.of_nat (length comments)
  | None => orZero (totalReplyCount (snippet item))
  end.

Definition localOf (item : ApiComment) (videoId : string) (parentId : option string)
  : Comment.t :=
  Comment.mk (id item) parentId videoId
    (authorDisplayName (snippet item)) (authorProfileImageUrl (snippet item))
    (textDisplay (snippet item)) (textOriginal (snippet item)) (likeCount (snippet item))
    (recordedReplyCount item) (publishedAt (snippet item)) false false false
    (AnalysisService.score (AnalysisFacts.analysis (textOriginal (snippet item)))).

Lemma mapApiCommentToLocal_eq item videoId parentId :
  mapApiCommentToLocal item videoId parentId = Return (localOf item videoId parentId).
Proof.
  unfold mapApiCommentToLocal, AnalysisService.PATTERNS.
  by rewrite AnalysisFacts.analyzeComment_eq.
Qed.

Lemma mapComments_eq items videoId parentId :
  mapComments items videoId parentId
  = Return (map (fun item => localOf item videoId parentId) items).
Proof.
  induction items as [|item items IH]; simpl; [done|].
  by rewrite mapApiCommentToLocal_eq, IH.
Qed.

(** ** The comments of a thread page, without the heap *)

(** Whether the replies inlined for a thread reach the reply count of its
    top-level comment. *)
Definition gotAll (item : ApiThread) : bool :=
  match threadReplies item with
  | Some comments =>
      Z.of_nat (length comments) >=? recordedReplyCount (topLevelComment item)
  | None => false
  end.

Definition threadComments (item : ApiThread) (videoId : string) : list Comment.t :=
  let topLevel := localOf (topLevelComment item) videoId None in
  (if gotAll item then Comment.setRepliesFetched true topLevel else topLevel)
  :: match threadReplies item with
     | Some comments => map (fun r => localOf r videoId (Some (id (topLevelComment item)))) comments
     | None => []
     end.

Fixpoint pageComments (items : list ApiThread) (videoId : string) : list Comment.t :=
  match items with
  | [] => []
  | item :: rest => threadComments item videoId ++ pageComments rest videoId
  end.

(** The array holds every object of the heap once, in order. *)
Definition dense (b : Batch) : Prop := refs b = seq 0 (length (heap b)).

Lemma deref_dense b : dense b -> deref b = heap b.
Proof.
  unfold dense, deref. destruct b as [h r]. simpl. intros ->.
  assert (G : forall pre l : list Comment.t,
             omap (fun a => (pre ++ l) !! a) (seq (length pre) (length l)) = l).
  { intros pre l. revert pre. induction l as [|x l IH]; intros pre; simpl; [done|].
    rewrite list_lookup_middle by done. f_equal.
    specialize (IH (pre ++ [x])). rewrite length_app, <- app_assoc in IH. simpl in IH.
    by rewrite Nat.add_1_r in IH. }
  exact (G [] h).
Qed.

Lemma push_dense c b :
  dense b -> dense (snd (push c b)) /\ heap (snd (push c b)) = heap b ++ [c].
Proof.
  unfold dense, push. simpl. intros ->. split; [|done].
  by rewrite length_app, Nat.add_1_r, seq_S.
Qed.

Lemma pushReplies_eq rs videoId parent b :
  dense b ->
  exists b', pushReplies rs videoId parent b = Return b' /\ dense b' /\
             heap b' = heap b ++ map (fun r => localOf r videoId (Some parent)) rs.
Proof.
  revert b. induction rs as [|r rs IH]; intros b Hb; simpl.
  - exists b. by rewrite app_nil_r.
  - rewrite mapApiCommentToLocal_eq.
    destruct (push_dense (localOf r videoId (Some parent)) b Hb) as [Hd Hh].
    destruct (IH _ Hd) as (b' & Hb' & Hd' & Hh').
    exists b'. split; [exact Hb'|]. split; [done|]. by rewrite Hh', Hh, <- app_assoc.
Qed.

Lemma threadItem_eq item videoId b :
  dense b ->
  exists b', threadItem item videoId b = Return b' /\ dense b' /\
             heap b' = heap b ++ threadComments item videoId.
Proof.
  intros Hb. unfold threadItem, threadComments, gotAll.
  rewrite mapApiCommentToLocal_eq.
  set (topLevel := localOf (topLevelComment item) videoId None).
  destruct (push_dense topLevel b Hb) as [Hd Hh].
  destruct (push topLevel b) as [a b1] eqn:Ep.
  assert (Ha : a = length (heap b)) by (unfold push in Ep; by inversion Ep).
  simpl in Hd, Hh.
  destruct (threadReplies item) as [comments|].
  - destruct (pushReplies_eq comments videoId (Comment.id topLevel) b1 Hd)
      as (b2 & -> & Hd2 & Hh2).
    change (Comment.replyCount topLevel) with (recordedReplyCount (topLevelComment item)).
    rewrite Hh in Hh2.
    destruct (Z.of_nat (length comments) >=? recordedReplyCount (topLevelComment item)).
    + eexists. split; [done|]. unfold dense in *. simpl.
      rewrite length_alter. split; [done|].
      rewrite Hh2, <- app_assoc, Ha.
      rewrite <- (Nat.add_0_r (length (heap b))), alter_app_r. done.
    + exists b2. repeat split; try done. by rewrite Hh2, <- app_assoc.
  - exists b1. done.
Qed.

Lemma threadItems_eq items videoId b :
  dense b ->
  exists b', threadItems items videoId b = Return b' /\ dense b' /\
             heap b' = heap b ++ pageComments items videoId.
Proof.
  revert b. induction items as [|item items IH]; intros b Hb; simpl.
  - exists b. by rewrite app_nil_r.
  - destruct (threadItem_eq item videoId b Hb) as (b1 & -> & Hd1 & Hh1).
    destruct (IH b1 Hd1) as (b2 & -> & Hd2 & Hh2).
    exists b2. repeat split; try done. by rewrite Hh2, Hh1, <- app_assoc.
Qed.

Lemma threadItems_page items videoId :
  exists b, threadItems items videoId (mkBatch [] []) = Return b /\
            deref b = pageComments items videoId.
Proof.
  destruct (threadItems_eq items videoId (mkBatch [] []) eq_refl) as (b & H & Hd & Hh).
  exists b. split; [done|]. by rewrite deref_dense.
Qed.

Lemma elem_of_pageComments c items videoId :
  c ∈ pageComments items videoId <-> exists item, item ∈ items /\ c ∈ threadComments item videoId.
Proof.
  induction items as [|item items IH]; cbn [pageComments].
  - split; [by intros ?%elem_of_nil | by intros (? & ?%elem_of_nil & _)].
  - rewrite elem_of_app, IH. split.
    + intros [H|(it & H1 & H2)]; [exists item | exists it]; split; try done.
      * apply list_elem_of_here.
      * by apply list_elem_of_further.
    + intros (it & [->|H1]%elem_of_cons & H2); [by left | right; eauto].
Qed.

Lemma threadComments_top item videoId :
  exists c, c ∈ threadComments item videoId /\
    Comment.id c = id (topLevelComment item) /\ Comment.parentId c = None /\
    Comment.replyCount c = recordedReplyCount (topLevelComment item) /\
    Comment.repliesFetched c = gotAll item.
Proof.
  unfold threadComments. eexists. split; [apply list_elem_of_here|].
  by destruct (gotAll item).
Qed.

Lemma threadComments_fetched item videoId c :
  c ∈ threadComments item videoId -> Comment.repliesFetched c = true ->
  Comment.id c = id (topLevelComment item) /\ Comment.parentId c = None /\
  Comment.replyCount c = recordedReplyCount (topLevelComment item) /\
  gotAll item = true.
Proof.
  unfold threadComments. intros [->|H]%elem_of_cons Hf.
  - destruct (gotAll item); [done | simpl in Hf; done].
  - destruct (threadReplies item) as [comments|]; [|by apply elem_of_nil in H].
    apply list_elem_of_fmap in H as (r & -> & _). done.
Qed.

Lemma gotAll_iff item :
  gotAll item = true <->
  exists comments, threadReplies item = Some comments /\
    recordedReplyCount (topLevelComment item) <= Z.of_nat (length comments).
Proof.
  unfold gotAll. destruct (threadReplies item) as [comments|].
  - rewrite Z.geb_le. split; [eauto|]. by intros (? & [= <-] & ?).
  - split; [done | by intros (? & ? & _)].
Qed.

Lemma ok_not_403 res : ok res = true -> (status res =? 403) = false.
Proof. unfold ok. intros H. apply andb_true_iff in H as [H1 H2]. lia. Qed.

(** C2 (what the code does): fetchCommentThreads never reads the total
    reply count that the thread reports.  The top-level comment of a
    thread is stored with [repliesFetched = true] exactly when replies
    are inlined and their number reaches the [replyCount] that
    mapApiCommentToLocal computed from the top-level comment resource
    alone.  When that resource has no [replies] member and no
    [totalReplyCount] in its snippet, this count is 0 and the thread is
    marked as soon as replies are inlined, whatever total the thread
    reports, also one above the number of inlined replies.  No other
    comment of the page has the flag set. *)
Theorem fetchCommentThreads_ignores_thread_total
    (videoId apiKey pageToken : string) (w : World)
    (res : Response) (rest : list Response) (data : Body) (its : list ApiThread) :
  remote w = res :: rest -> ok res = true ->
  body res = Some data -> items data = Some (Threads its) ->
  exists (batch : list Comment.t) (w' : World),
    fetchCommentThreads videoId apiKey pageToken w
      = (Return (orNull (nextPageToken data), Z.of_nat (length batch)), w') /\
    comments w' = bulkPut batch (comments w) /\
    (forall item, item ∈ its ->
       exists c, c ∈ batch /\ Comment.id c = id (topLevelComment item) /\
         Comment.parentId c = None /\
         Comment.replyCount c = recordedReplyCount (topLevelComment item) /\
         (Comment.repliesFetched c = true <->
          exists inlined, threadReplies item = Some inlined /\
            Comment.replyCount c <= Z.of_nat (length inlined)) /\
         (forall inlined total,
            threadReplies item = Some inlined ->
            threadTotalReplyCount item = Some total ->
            replies (topLevelComment item) = None ->
            totalReplyCount (snippet (topLevelComment item)) = None ->
            Comment.replyCount c = 0 /\ Comment.repliesFetched c = true)) /\
    (forall c, c ∈ batch -> Comment.repliesFetched c = true ->
       exists item inlined, item ∈ its /\ Comment.id c = id (topLevelComment item) /\
         Comment.parentId c = None /\ threadReplies item = Some inlined /\
         Comment.replyCount c <= Z.of_nat (length inlined)).
Proof.
  intros Hr Hok Hb Hi.
  destruct (threadItems_page its videoId) as (b & Hti & Hd).
  exists (pageComments its videoId). eexists. split; [|split; [|split]].
  - unfold fetchCommentThreads, fetch. rewrite Hr, (ok_not_403 _ Hok), Hok, Hb, Hi, Hti, Hd.
    simpl. reflexivity.
  - done.
  - intros item Hin. destruct (threadComments_top item videoId) as (c & Hc & H1 & H2 & H3 & H4).
    exists c. split; [apply elem_of_pageComments; eauto|].
    split; [done|]. split; [done|]. split; [done|]. split.
    + rewrite H4, H3. apply gotAll_iff.
    + intros inlined total Hin' _ Hnor Hnoc.
      assert (H0 : recordedReplyCount (topLevelComment item) = 0)
        by (unfold recordedReplyCount; by rewrite Hnor, Hnoc).
      split; [by rewrite H3|]. rewrite H4. apply gotAll_iff.
      exists inlined. split; [done|]. rewrite H0. lia.
  - intros c Hc Hf. apply elem_of_pageComments in Hc as (item & Hin & Hc).
    destruct (threadComments_fetched item videoId c Hc Hf) as (H1 & H2 & H3 & H4).
    apply gotAll_iff in H4 as (inlined & H4 & H5).
    exists item, inlined. rewrite H3. done.
Qed.

(** ** Example worlds *)

Definition exampleSnippet (text : string) (total : option Z) : Snippet :=
  mkSnippet "alice" "" (lit text) (lit text) 3 total "2024-01-01T00:00:00Z".

Definition exampleThreads : list ApiThread :=
  [ mkApiThread (mkApiComment "t1" (exampleSnippet "source: Foo" (Some 2)) None)
      (Some [ mkApiComment "r1" (exampleSnippet "thanks" None) None;
              mkApiComment "r2" (exampleSnippet "what?" None) None ])
      (Some 2);
    mkApiThread (mkApiComment "t2" (exampleSnippet "plain" (Some 7)) None)
      (Some [ mkApiComment "r3" (exampleSnippet "ok" None) None ])
      (Some 7) ].

Definition examplePage : Body := mkBody (Some (Threads exampleThreads)) (Some "next").

Definition worldWith (responses : list Response) (tbl : gmap string Comment.t) : World :=
  mkWorld responses [] tbl ∅ 0.

Definition exampleThread : Comment.t :=
  localOf (mkApiComment "t1" (exampleSnippet "source: Foo" (Some 2)) None) "v" None.

(** A thread as the remote side delivers it: the comment resource has
    no reply count of its own; the thread reports 7 replies and inlines
    one. *)
Definition longThread : ApiThread :=
  mkApiThread (mkApiComment "t3" (exampleSnippet "name: Bar" None) None)
    (Some [ mkApiComment "r4" (exampleSnippet "first" None) None ])
    (Some 7).

Lemma fetchCommentThreads_ignores_thread_total_witness :
  let page := mkBody (Some (Threads [longThread])) None in
  let w := worldWith [mkResponse 200 (Some page)] ∅ in
  (threadTotalReplyCount longThread = Some 7 /\
   (length <$> threadReplies longThread) = Some 1%nat /\
   (Comment.repliesFetched <$> comments (snd (fetchCommentThreads "v" "k" "" w)) !! "t3")
     = Some true) /\
  exists (batch : list Comment.t) (w' : World),
    fetchCommentThreads "v" "k" "" w
      = (Return (orNull (nextPageToken page), Z.of_nat (length batch)), w') /\
    comments w' = bulkPut batch ∅ /\
    (forall item, item ∈ [longThread] ->
       exists c, c ∈ batch /\ Comment.id c = id (topLevelComment item) /\
         Comment.parentId c = None /\
         Comment.replyCount c = recordedReplyCount (topLevelComment item) /\
         (Comment.repliesFetched c = true <->
          exists inlined, threadReplies item = Some inlined /\
            Comment.replyCount c <= Z.of_nat (length inlined)) /\
         (forall inlined total,
            threadReplies item = Some inlined ->
            threadTotalReplyCount item = Some total ->
            replies (topLevelComment item) = None ->
            totalReplyCount (snippet (topLevelComment item)) = None ->
            Comment.replyCount c = 0 /\ Comment.repliesFetched c = true)) /\
    (forall c, c ∈ batch -> Comment.repliesFetched c = true ->
       exists item inlined, item ∈ [longThread] /\ Comment.id c = id (topLevelComment item) /\
         Comment.parentId c = None /\ threadReplies item = Some inlined /\
         Comment.replyCount c <= Z.of_nat (length inlined)).
Proof.
  split; [by vm_compute|].
  apply (fetchCommentThreads_ignores_thread_total "v" "k" ""
           (worldWith [mkResponse 200 (Some (mkBody (Some (Threads [longThread])) None))] ∅)
           (mkResponse 200 (Some (mkBody (Some (Threads [longThread])) None))) []
           (mkBody (Some (Threads [longThread])) None) [longThread]);
    reflexivity.
Defined.

(** C1 (what the code does): when the first reply page of a thread comes
    back with a status that is not ok, fetchReplies sends no further
    request and returns normally, so the scan goes on with the next
    thread; but the parent row is marked [repliesFetched = true]. *)
Theorem fetchReplies_failure_marks_fetched
    (parentId videoId apiKey : string) (w : World)
    (res : Response) (rest : list Response) (thread : Comment.t) :
  remote w = res :: rest -> ok res = false ->
  comments w !! parentId = Some thread ->
  exists w' : World,
    fetchReplies parentId videoId apiKey w = (Return tt, w') /\
    remote w' = rest /\ length (sent w') = S (length (sent w)) /\
    comments w' !! parentId = Some (Comment.setRepliesFetched true thread).
Proof.
  intros Hr Hok Hc. eexists. split; [|split; [|split]].
  - unfold fetchReplies. rewrite Hr. simpl. rewrite Hok. simpl. reflexivity.
  - done.
  - simpl. rewrite length_app. simpl. lia.
  - simpl. unfold update_repliesFetched. by rewrite lookup_alter_eq, Hc.
Qed.

Lemma fetchReplies_failure_marks_fetched_witness :
  exists w' : World,
    fetchReplies "t1" "v" "k"
      (worldWith [mkResponse 500 None] {["t1" := exampleThread]}) = (Return tt, w') /\
    remote w' = [] /\ length (sent w') = 1%nat /\
    comments w' !! "t1" = Some (Comment.setRepliesFetched true exampleThread).
Proof.
  apply (fetchReplies_failure_marks_fetched "t1" "v" "k"
           (worldWith [mkResponse 500 None] {["t1" := exampleThread]})
           (mkResponse 500 None) [] exampleThread); reflexivity.
Defined.




End ServiceFacts.

Module QueueFacts.
Import RequestQueue.

(** Consecutive dispatches (the list is newest first): the earlier task
    has settled, and the later one was started at least 250 ms after
    that. *)
Fixpoint paced (l : list Dispatch) : Prop :=
  match l with
  | d2 :: ((d1 :: _) as l') =>
      (exists t1, settled d1 = Some t1 /\ (started d1 <= t1)%N /\ (t1 + 250 <= started d2)%N)
      /\ paced l'
  | _ => True
  end.

(** How the worker and the newest dispatch belong together. *)
Definition workerInv (s : State) : Prop :=
  match worker s, dispatched s with
  | Idle, [] => requestQueue s = []
  | Idle, d :: _ =>
      requestQueue s = [] /\
      exists t, settled d = Some t /\ (started d <= t)%N /\ (t + 250 <= clock s)%N
  | AwaitTask t, d :: _ => task d = t /\ settled d = None /\ (started d <= clock s)%N
  | AwaitDelay due, d :: _ =>
      exists t, settled d = Some t /\ (started d <= t)%N /\ due = (t + 250)%N /\ (t <= clock s)%N
  | _, [] => False
  end.

Definition Inv (s : State) : Prop :=
  reverse (map task (dispatched s)) ++ requestQueue s = enqueued s /\
  paced (dispatched s) /\ workerInv s.

Lemma Inv_initial : Inv initial.
Proof. by repeat split. Qed.

Lemma Inv_loopHead s :
  reverse (map task (dispatched s)) ++ requestQueue s = enqueued s ->
  paced (dispatched s) ->
  match dispatched s with
  | [] => True
  | d :: _ => exists t, settled d = Some t /\ (started d <= t)%N /\ (t + 250 <= clock s)%N
  end ->
  Inv (loopHead s).
Proof.
  intros Hf Hp Hl. unfold loopHead, Inv, workerInv.
  destruct (requestQueue s) as [|t q] eqn:Eq; simpl.
  - rewrite app_nil_r in *. repeat split; try done. by destruct (dispatched s).
  - repeat split; try lia.
    + rewrite reverse_cons, <- app_assoc. done.
    + by destruct (dispatched s).
Qed.

Lemma Inv_step s e s' : Inv s -> step s e = Some s' -> Inv s'.
Proof.
  intros (Hf & Hp & Hw) H. destruct e as [request| | |ms]; simpl in H.
  - inversion H; subst; clear H. unfold enqueueRequest, processQueue, isProcessingQueue. simpl.
    unfold workerInv in Hw.
    destruct (worker s) eqn:Ew.
    + apply Inv_loopHead; simpl.
      * by rewrite app_assoc, Hf.
      * done.
      * destruct (dispatched s); [done|]. by destruct Hw.
    + unfold Inv, workerInv. simpl. rewrite app_assoc, Hf. done.
    + unfold Inv, workerInv. simpl. rewrite app_assoc, Hf. done.
  - unfold workerInv in Hw. destruct (worker s) as [|t|due] eqn:Ew; try done.
    inversion H; subst; clear H. unfold Inv, workerInv. simpl.
    destruct (dispatched s) as [|d l]; [done|]. destruct Hw as (Ht & Hs & Hc). simpl.
    split; [done|]. split.
    + destruct l as [|b l]; [exact I|]. destruct Hp as [Hab Hp].
      split; [exact Hab | exact Hp].
    + exists (clock s). repeat split; try done; lia.
  - unfold workerInv in Hw. destruct (worker s) as [|t|due] eqn:Ew; try done.
    destruct (N.leb_spec due (clock s)) as [Hdue|]; [|done].
    inversion H; subst; clear H.
    apply Inv_loopHead; try done.
    destruct (dispatched s) as [|d l]; [done|].
    destruct Hw as (t & Hs & H1 & -> & H2). exists t. repeat split; try done.
  - inversion H; subst; clear H. unfold Inv, workerInv in *. simpl.
    repeat split; try done.
    destruct (worker s), (dispatched s) as [|d l]; try done.
    + destruct Hw as (Hq & t & H1 & H2 & H3). split; [done|]. exists t. repeat split; try done; lia.
    + destruct Hw as (H1 & H2 & H3). repeat split; try done; lia.
    + destruct Hw as (t & H1 & H2 & H3 & H4). exists t. repeat split; try done; lia.
Qed.

Lemma Inv_run es : forall s s', Inv s -> run s es = Some s' -> Inv s'.
Proof.
  induction es as [|e es IH]; intros s s' Hs H; simpl in H.
  - by inversion H; subst.
  - destruct (step s e) as [s1|] eqn:E; [|done].
    eapply IH; [|exact H]. by eapply Inv_step.
Qed.

Lemma paced_lookup l : paced l ->
  forall i d2 d1, l !! i = Some d2 -> l !! S i = Some d1 ->
    exists t1, settled d1 = Some t1 /\ (started d1 <= t1)%N /\ (t1 + 250 <= started d2)%N.
Proof.
  induction l as [|a l IH]; intros Hp i d2 d1 H2 H1; [done|].
  destruct l as [|b l]; [done|]. destruct Hp as [Hab Hp].
  destruct i as [|i].
  - simpl in H2, H1. inversion H2; inversion H1; subst. done.
  - apply (IH Hp i d2 d1); done.
Qed.

(** The requests of the enqueue events, in order. *)
Definition requestsOf (es : list Event) : list nat :=
  omap (fun e => match e with Enqueue r => Some r | _ => None end) es.

Lemma enqueued_loopHead s : enqueued (loopHead s) = enqueued s.
Proof. unfold loopHead. by destruct (requestQueue s). Qed.

Lemma enqueued_step s e s' :
  step s e = Some s' -> enqueued s' = enqueued s ++ requestsOf [e].
Proof.
  destruct e as [request| | |ms]; simpl; intros H.
  - inversion H; subst. unfold enqueueRequest, processQueue.
    destruct (isProcessingQueue _); [done|]. by rewrite enqueued_loopHead.
  - destruct (worker s); inversion H; subst. simpl. by rewrite app_nil_r.
  - destruct (worker s) as [| |due]; try done. destruct (due <=? clock s)%N; [|done].
    inversion H; subst. by rewrite enqueued_loopHead, app_nil_r.
  - inversion H; subst. simpl. by rewrite app_nil_r.
Qed.

Lemma enqueued_run es : forall s s',
  run s es = Some s' -> enqueued s' = enqueued s ++ requestsOf es.
Proof.
  induction es as [|e es IH]; intros s s' H; simpl in H.
  - inversion H; subst. unfold requestsOf. simpl. by rewrite app_nil_r.
  - destruct (step s e) as [s1|] eqn:E; [|done].
    rewrite (IH _ _ H), (enqueued_step _ _ _ E), <- app_assoc. f_equal.
    unfold requestsOf. simpl. by destruct e.
Qed.

(** C8: whatever is enqueued and whenever, the tasks are started in the
    order in which they were enqueued; a task is started only after the
    task before it has settled, and at least 250 ms after that, so the
    starts of consecutive dispatches are at least 250 ms apart. *)
Theorem requestQueue_fifo_paced (es : list Event) (s : State) :
  run initial es = Some s ->
  reverse (map task (dispatched s)) ++ requestQueue s = requestsOf es /\
  (forall i d1 d2,
     dispatched s !! S i = Some d1 -> dispatched s !! i = Some d2 ->
     exists t1, settled d1 = Some t1 /\ (started d1 <= t1)%N /\
                (t1 + 250 <= started d2)%N /\ (started d1 + 250 <= started d2)%N).
Proof.
  intros H. pose proof (Inv_run es initial s Inv_initial H) as (Hf & Hp & _).
  split.
  - rewrite Hf. by rewrite (enqueued_run es initial s H).
  - intros i d1 d2 H1 H2.
    destruct (paced_lookup _ Hp i d2 d1 H2 H1) as (t1 & Ha & Hb & Hc).
    exists t1. repeat split; try done. lia.
Qed.

Definition exampleEvents : list Event :=
  [Enqueue 1; Tick 40; Enqueue 2; Enqueue 3; Tick 60; TaskSettles; Tick 250; TimerFires;
   Tick 10; TaskSettles; Tick 300; TimerFires].

Lemma requestQueue_fifo_paced_witness :
  exists s, run initial exampleEvents = Some s /\
    map task (dispatched s) = [3; 2; 1]%nat /\
    reverse (map task (dispatched s)) ++ requestQueue s = requestsOf exampleEvents /\
    (forall i d1 d2,
       dispatched s !! S i = Some d1 -> dispatched s !! i = Some d2 ->
       exists t1, settled d1 = Some t1 /\ (started d1 <= t1)%N /\
                  (t1 + 250 <= started d2)%N /\ (started d1 + 250 <= started d2)%N).
Proof.
  eexists. split; [reflexivity|]. split; [reflexivity|].
  apply (requestQueue_fifo_paced exampleEvents). reflexivity.
Defined.

End QueueFacts.

Module DexieFacts.
Import Dexie.

(** ** The sort *)

Lemma insertSorted_Permutation {A} (before : A -> A -> bool) x l :
  insertSorted before x l ≡ₚ x :: l.
Proof.
  induction l as [|y l IH]; simpl; [done|].
  destruct (before x y); [done|]. rewrite IH. apply Permutation_swap.
Qed.

Lemma sort_Permutation {A} (before : A -> A -> bool) l : sort before l ≡ₚ l.
Proof.
  induction l as [|x l IH]; simpl; [done|].
  by rewrite insertSorted_Permutation, IH.
Qed.

Section Sorted.
Context {A : Type} (before : A -> A -> bool).
Hypothesis before_total : forall a b, before a b = true \/ before b a = true.
Hypothesis before_trans : forall a b c,
  before a b = true -> before b c = true -> before a c = true.

Lemma insertSorted_sorted x l :
  StronglySorted (fun a b => before a b = true) l ->
  StronglySorted (fun a b => before a b = true) (insertSorted before x l).
Proof.
  induction l as [|y l IH]; intros Hs; simpl.
  - repeat constructor.
  - apply StronglySorted_inv in Hs as [Hl Hy]. specialize (IH Hl).
    destruct (before x y) eqn:E.
    + constructor; [by constructor|]. constructor; [done|].
      eapply Forall_impl; [exact Hy|]. intros z Hz. by eapply before_trans.
    + constructor; [done|]. rewrite insertSorted_Permutation. constructor; [|done].
      destruct (before_total x y); congruence.
Qed.

Lemma sort_sorted l : StronglySorted (fun a b => before a b = true) (sort before l).
Proof.
  induction l as [|x l IH]; simpl; [constructor|]. by apply insertSorted_sorted.
Qed.
End Sorted.

Lemma StronglySorted_weaken {A} (R1 R2 : A -> A -> Prop) (l : list A) :
  (forall a b, R1 a b -> R2 a b) -> StronglySorted R1 l -> StronglySorted R2 l.
Proof.
  intros H. induction l as [|x l IH]; intros Hs; [constructor|].
  apply StronglySorted_inv in Hs as [Hl Hx]. constructor; [by apply IH|].
  eapply Forall_impl; [exact Hx|]. intros y. apply H.
Qed.

(** ** The key range of the candidates query *)

Lemma string_compare_refl (v : string) : String.compare v v = Eq.
Proof.
  induction v as [|a v IH]; simpl; [done|].
  unfold Ascii.compare. by rewrite N.compare_refl.
Qed.

Lemma keyLe_range (v v' : string) (sc : Z) :
  keyLe (v, 1) (v', sc) && keyLe (v', sc) (v, 100) = true <-> v' = v /\ 1 <= sc <= 100.
Proof.
  unfold keyLe, compareKey. cbn [fst snd].
  rewrite (String.compare_antisym v v').
  destruct (String.compare v' v) eqn:E; cbn [CompOpp].
  - apply String.compare_eq_iff in E. subst.
    assert (E1 : match 1 ?= sc with Gt => false | _ => true end = (1 <=? sc))
      by (unfold Z.leb; by destruct (1 ?= sc)).
    assert (E2 : match sc ?= 100 with Gt => false | _ => true end = (sc <=? 100))
      by (unfold Z.leb; by destruct (sc ?= 100)).
    rewrite E1, E2, andb_true_iff, !Z.leb_le. intuition.
  - split; [done|]. intros [-> _]. rewrite string_compare_refl in E. done.
  - split; [done|]. intros [-> _]. rewrite string_compare_refl in E. done.
Qed.

Lemma elem_of_rows (tbl : gmap string Comment.t) c :
  c ∈ rows tbl <-> exists k, tbl !! k = Some c.
Proof.
  unfold rows. rewrite list_elem_of_fmap. split.
  - intros ([k c'] & -> & H). exists k. by apply elem_of_map_to_list.
  - intros (k & H). exists (k, c). split; [done | by apply elem_of_map_to_list].
Qed.

(** A row is a candidate for [videoId]. *)
Definition isCandidate (videoId : string) (c : Comment.t) : Prop :=
  Comment.videoId c = videoId /\ 1 <= Comment.score c <= 100.

#[local] Instance isCandidate_dec videoId c : Decision (isCandidate videoId c).
Proof. unfold isCandidate. apply _. Defined.

Lemma between_candidates videoId l :
  between (videoId, 1) (videoId, 100) l = filter (isCandidate videoId) l.
Proof.
  unfold between. apply list_filter_iff. intros c.
  unfold videoId_score, isCandidate. apply keyLe_range.
Qed.

Lemma candidates_Permutation videoId tbl :
  Dashboard.candidates videoId tbl ≡ₚ filter (isCandidate videoId) (rows tbl).
Proof.
  unfold Dashboard.candidates, sortBy_score_prev, index_videoId_score, toArray.
  rewrite sort_Permutation, reverse_Permutation, between_candidates.
  by rewrite !sort_Permutation.
Qed.

Definition exampleRow (id : string) (score : Z) : Comment.t :=
  Comment.mk id None "v" "alice" "" [] [] 0 0 "2024-01-01T00:00:00Z" false false false score.

Definition exampleTable : gmap string Comment.t :=
  {[ "a" := exampleRow "a" 50; "b" := exampleRow "b" 80; "c" := exampleRow "c" 0 ]}.

(** C9 as the specification has it fails on the code: the query has no
    result-count bound, so whatever bound a caller has in mind, a table
    with more candidates gives more results. *)
Lemma candidates_counterexample :
  ~ (forall (bound : nat) (videoId : string) (tbl : gmap string Comment.t),
       (length (Dashboard.candidates videoId tbl) <= bound)%nat).
Proof.
  intros H. specialize (H 1%nat "v" exampleTable). vm_compute in H. lia.
Qed.

(** C9, amended: the candidates query returns exactly the stored comments
    of the requested container with a score from 1 to 100 (none with a
    score of 0 or less, none of another container), each once, in
    descending order of score; it has no result-count bound and returns
    all of them. *)
Theorem candidates_ranked (videoId : string) (tbl : gmap string Comment.t) :
  Dashboard.candidates videoId tbl ≡ₚ filter (isCandidate videoId) (rows tbl) /\
  length (Dashboard.candidates videoId tbl)
    = length (filter (isCandidate videoId) (rows tbl)) /\
  (forall c, c ∈ Dashboard.candidates videoId tbl <->
     (exists k, tbl !! k = Some c) /\ Comment.videoId c = videoId /\
     1 <= Comment.score c <= 100) /\
  StronglySorted (fun a b => Comment.score b <= Comment.score a)
    (Dashboard.candidates videoId tbl).
Proof.
  pose proof (candidates_Permutation videoId tbl) as HP.
  split; [done|]. split; [by rewrite HP|]. split.
  - intros c. rewrite HP, list_elem_of_filter, elem_of_rows. unfold isCandidate. tauto.
  - unfold Dashboard.candidates, sortBy_score_prev.
    apply (StronglySorted_weaken
             (fun a b => (Comment.score b <=? Comment.score a) = true)).
    + intros a b Hab. by apply Z.leb_le.
    + apply (sort_sorted (fun a b => Comment.score b <=? Comment.score a)).
      * intros a b. rewrite !Z.leb_le. lia.
      * intros a b c. rewrite !Z.leb_le. lia.
Qed.

End DexieFacts.

Module DashboardFacts.
Import Remote Dashboard.

Definition pausedState : State :=
  Dashboard.mk (ScanStats.mk 5 0 Status.paused (Some Mode.smart) None) true []
    (ServiceFacts.worldWith [] ∅).

Definition errorState : State :=
  Dashboard.mk (ScanStats.mk 5 0 Status.error (Some Mode.smart) (Some "Network Error")) false []
    (ServiceFacts.worldWith [] ∅).

(** C6 as the specification has it fails on the code: a start from
    paused leaves fetchedCount at 5, and a deep start from error keeps
    the error message. *)
Lemma start_counterexample :
  ScanStats.status (stats pausedState) = Status.paused /\
  ScanStats.fetchedCount (stats (handleSmartScan pausedState)) <> 0 /\
  ScanStats.fetchedCount (stats (handleDeepScan pausedState)) <> 0 /\
  ScanStats.status (stats errorState) = Status.error /\
  ScanStats.error (stats (handleDeepScan errorState)) <> None.
Proof. repeat split; done. Qed.

(** C6, amended: a start in either mode, from any state, puts the scan in
    the running state with that mode, clears the cancel flag and leaves
    fetchedCount as it was; the smart start clears the error message. *)
Theorem start_running (d : State) :
  (ScanStats.status (stats (handleSmartScan d)) = Status.running /\
   ScanStats.mode (stats (handleSmartScan d)) = Some Mode.smart /\
   ScanStats.error (stats (handleSmartScan d)) = None /\
   ScanStats.fetchedCount (stats (handleSmartScan d)) = ScanStats.fetchedCount (stats d) /\
   cancelScanRef (handleSmartScan d) = false) /\
  (ScanStats.status (stats (handleDeepScan d)) = Status.running /\
   ScanStats.mode (stats (handleDeepScan d)) = Some Mode.deep /\
   ScanStats.fetchedCount (stats (handleDeepScan d)) = ScanStats.fetchedCount (stats d) /\
   cancelScanRef (handleDeepScan d) = false).
Proof. repeat split. Qed.

(** A container whose metadata is stored, and a remote side that answers
    the first thread page request with [examplePage]. *)
Definition scanWorld : World :=
  mkWorld [mkResponse 200 (Some ServiceFacts.examplePage)] [] ∅
    {[ "v" := VideoMetadata.mk "v" "title" "thumb" 5 0 VideoMetadata.idle ]} 0.

(** C5 (what the code does): a smart scan is started and waits for the
    first thread page; Stop puts the state to paused; when the page
    arrives the scan leaves its loops without a further request, and
    then sets the status to complete, with no start in between. *)
Theorem cancelled_scan_becomes_complete :
  let d1 := run "v" "k" (initial scanWorld) [StartSmart; Settle 0] in
  let d2 := step "v" "k" d1 Stop in
  let d3 := step "v" "k" d2 (Settle 0) in
  let d4 := step "v" "k" d3 (Settle 0) in
  (ScanStats.status (stats d1) = Status.running /\ runs d1 = [SmartFetchThreads "" 0]) /\
  (ScanStats.status (stats d2) = Status.paused /\ cancelScanRef d2 = true) /\
  (ScanStats.status (stats d3) = Status.paused /\ length (sent (world d3)) = 1%nat /\
   exists next total, runs d3 = [SmartPromising next total]) /\
  (ScanStats.status (stats d4) = Status.complete /\ runs d4 = [] /\
   length (sent (world d4)) = 1%nat).
Proof. vm_compute. repeat split. by eexists _, _. Qed.

End DashboardFacts.

(* ===================================================================== *)
(** * Further properties of analyzeComment *)
(* ===================================================================== *)
Module AnalysisExtras.
Import RegExpFacts AnalysisService AnalysisFacts.

(** The highlight of a capture that ends the match sits inside the match,
    has the length of the capture and holds its text. *)
Lemma captureHighlight_inside R k ty text i z s :
  scan R text = Some (i, z) ->
  captures z !! k = Some (Some (s, endIndex z)) ->
  (i <= s)%nat -> (s <= endIndex z)%nat -> (endIndex z <= length text)%nat ->
  exists p, (i <= p)%nat /\ (p <= s)%nat /\
    captureHighlight R k ty text
      = [mkHighlight (Z.of_nat p) (Z.of_nat p + Z.of_nat (endIndex z - s)) ty] /\
    slice text p (p + (endIndex z - s)) = slice text s (endIndex z).
Proof.
  intros Hscan Hcap His Hse He.
  set (e := endIndex z) in *. set (n := (e - s)%nat).
  assert (Hlen : length (slice text s e) = n) by (apply length_slice; lia).
  assert (Hocc : startsWith (drop (s - i) (slice text i e)) (slice text s e) = true).
  { apply startsWith_take. rewrite Hlen, take_drop_slice by lia. f_equal; lia. }
  destruct (indexOf_from_found (slice text i e) (slice text s e) 0 (s - i) Hocc)
    as (q & Hq & Hidx & Hs & _).
  { rewrite length_slice by lia. lia. }
  exists (i + q)%nat. repeat split; try lia.
  - unfold captureHighlight. rewrite Hscan, Hcap. fold e.
    unfold indexOf. rewrite Hidx, Hlen. do 2 f_equal; lia.
  - apply startsWith_take in Hs. rewrite Hlen, take_drop_slice in Hs by lia. done.
Qed.

(** The words group 1 of HELPER captures: a capitalized word, then any
    number of (white space, capitalized word). *)
Definition helperWords : regex :=
  Seq capitalized (Star true (Group 1 (Seq Space capitalized))).

Lemma HELPER_capture_lang text i z :
  (i <= length text)%nat -> matchAt text HELPER_pattern 2 i = Some z ->
  exists s, captures z !! 0%nat = Some (Some (s, endIndex z)) /\
            (i <= s)%nat /\ (s <= endIndex z)%nat /\ (endIndex z <= length text)%nat /\
            Lang helperWords (slice text s (endIndex z)).
Proof.
  intros Hi H. unfold matchAt, HELPER_pattern in H.
  apply compile_Seq_inv in H as (y1 & H1 & H1' & Hl1 & _ & H); [|done].
  apply compile_Seq_inv in H as (y2 & H2 & H2' & Hl2 & _ & H); [|done].
  apply compile_Seq_inv in H as (y3 & H3 & H3' & Hl3 & _ & H); [|done].
  apply compile_Seq_inv in H as (y4 & H4 & H4' & Hl4 & _ & H); [|done].
  simpl in Hl1.
  apply compile_Group_last in H as (Hc & H5 & H5' & HL); [|done|lia].
  exists (endIndex y4). simpl in *. repeat split; try done; lia.
Qed.

Lemma Lang_capitalized s :
  Lang capitalized s ->
  exists U l rest, s = U :: l :: rest /\
    ((cu "A" <=? U)%N && (U <=? cu "Z")%N = true) /\
    Forall (fun ch => (cu "a" <=? ch)%N && (ch <=? cu "z")%N = true) (l :: rest).
Proof.
  unfold capitalized, Range. intros H.
  apply Lang_Seq_inv in H as (s1 & s2 & -> & H1 & H2).
  apply Lang_CharSet_inv in H1 as (U & -> & HU).
  apply Lang_Plus_CharSet in H2 as [Hne H2].
  destruct s2 as [|l rest]; [done|]. by exists U, l, rest.
Qed.

Lemma helperWords_nonempty s : Lang helperWords s -> (2 <= length s)%nat.
Proof.
  unfold helperWords. intros H.
  apply Lang_Seq_inv in H as (s1 & s2 & -> & H1 & _).
  apply Lang_capitalized in H1 as (U & l & rest & -> & _). simpl. lia.
Qed.

Lemma BRACKET_match text i z :
  (i <= length text)%nat -> matchAt text BRACKET_pattern 1 i = Some z ->
  (i + 2 <= endIndex z)%nat /\ (endIndex z <= length text)%nat /\
  Lang BRACKET_pattern (slice text i (endIndex z)).
Proof.
  intros Hi H. unfold matchAt in H.
  apply compile_sound in H; [|done]. simpl in H.
  destruct H as (y & H1 & H2 & _ & HL & [= <-]).
  split; [|done].
  pose proof HL as HL'. unfold BRACKET_pattern in HL'.
  apply Lang_Seq_inv in HL' as (s1 & s2 & E & Ha & Hb).
  apply Lang_Seq_inv in Hb as (s3 & s4 & -> & _ & Hc).
  apply Lang_CharSet_inv in Ha as (a & -> & _).
  apply Lang_CharSet_inv in Hc as (c & -> & _).
  apply (f_equal length) in E. rewrite length_slice in E by lia.
  simpl in E. rewrite length_app in E. simpl in E. lia.
Qed.

Lemma analysis_highlights_inside text h :
  h ∈ highlights (analysis text) ->
  0 <= h_start h /\ h_start h < h_end h /\ h_end h <= Z.of_nat (length text).
Proof.
  unfold analysis. cbn [highlights]. rewrite !elem_of_app.
  intros [H|[H|H]].
  - destruct (scan (SOURCE PATTERNS) text) as [[i z]|] eqn:E;
      [|unfold captureHighlight in H; rewrite E in H; by apply elem_of_nil in H].
    pose proof E as E'. apply scan_Some in E' as [Hi Hm].
    apply SOURCE_captures in Hm as (s & Hc & H1 & H2 & H3); [|done].
    destruct (captureHighlight_inside _ 1 source text i z s E Hc) as (p & Hp1 & Hp2 & Hh & _);
      try lia.
    rewrite Hh in H. apply list_elem_of_singleton in H as ->. simpl. lia.
  - destruct (scan (HELPER PATTERNS) text) as [[i z]|] eqn:E;
      [|unfold captureHighlight in H; rewrite E in H; by apply elem_of_nil in H].
    pose proof E as E'. apply scan_Some in E' as [Hi Hm].
    apply HELPER_capture_lang in Hm as (s & Hc & H1 & H2 & H3 & HL); [|done].
    apply helperWords_nonempty in HL. rewrite length_slice in HL by lia.
    destruct (captureHighlight_inside _ 0 helper text i z s E Hc) as (p & Hp1 & Hp2 & Hh & _);
      try lia.
    rewrite Hh in H. apply list_elem_of_singleton in H as ->. simpl. lia.
  - unfold wholeHighlight in H.
    destruct (scan (BRACKET PATTERNS) text) as [[i z]|] eqn:E; [|by apply elem_of_nil in H].
    apply scan_Some in E as [Hi Hm]. apply BRACKET_match in Hm as (H1 & H2 & _); [|done].
    apply list_elem_of_singleton in H as ->. simpl.
    rewrite length_slice by lia. lia.
Qed.

(** X1: every highlight that analyzeComment reports is a non-empty span
    inside the text: [0 <= start < end <= text.length]. *)
Theorem highlights_inside_text (text : jsstring) :
  exists r : AnalysisResult,
    fst (analyzeComment text PATTERNS) = Return r /\
    forall h, h ∈ highlights r ->
      0 <= h_start h /\ h_start h < h_end h /\ h_end h <= Z.of_nat (length text).
Proof.
  exists (analysis text). unfold PATTERNS. rewrite analyzeComment_eq. split; [done|].
  apply analysis_highlights_inside.
Qed.

(** X2: the score is positive exactly when one of the four heuristics
    fires, and it is above 10 exactly when the source, helper or bracket
    heuristic fires: the question phrase alone gives exactly 10. *)
Theorem score_thresholds (text : jsstring) :
  exists r : AnalysisResult,
    fst (analyzeComment text PATTERNS) = Return r /\
    (0 < score r <->
       fired (SOURCE PATTERNS) text = true \/ fired (HELPER PATTERNS) text = true \/
       fired (BRACKET PATTERNS) text = true \/ fired (QUESTION PATTERNS) text = true) /\
    (10 < score r <->
       fired (SOURCE PATTERNS) text = true \/ fired (HELPER PATTERNS) text = true \/
       fired (BRACKET PATTERNS) text = true) /\
    (score r = 100 <->
       (fired (SOURCE PATTERNS) text = true /\
        (fired (HELPER PATTERNS) text = true \/ fired (BRACKET PATTERNS) text = true)) \/
       (fired (HELPER PATTERNS) text = true /\ fired (BRACKET PATTERNS) text = true /\
        fired (QUESTION PATTERNS) text = true)).
Proof.
  exists (analysis text). unfold PATTERNS at 1. rewrite analyzeComment_eq. split; [done|].
  unfold analysis, rawScore. cbn [score].
  destruct (fired (SOURCE PATTERNS) text), (fired (HELPER PATTERNS) text),
           (fired (BRACKET PATTERNS) text), (fired (QUESTION PATTERNS) text);
    vm_compute; intuition (try discriminate; try congruence).
Qed.

(** ** The question heuristic *)

Definition questionWords : list string := ["what"; "name"; "sauce"]%string.

Lemma Lang_Chr_plain ic c s :
  (ic = true -> (c < 65)%N) ->
  Lang (Chr ic c) s <-> s = [c].
Proof.
  intros Hc. unfold Chr. split.
  - intros H. apply Lang_CharSet_inv in H as (ch & -> & H). apply N.eqb_eq in H.
    f_equal. unfold Canonicalize in *. destruct ic; simpl in *; [|done].
    specialize (Hc eq_refl).
    destruct ((97 <=? ch)%N && (ch <=? 122)%N) eqn:E1,
             ((97 <=? c)%N && (c <=? 122)%N) eqn:E2;
      try (apply andb_true_iff in E1 as [E1 E1']; apply N.leb_le in E1, E1');
      try (apply andb_true_iff in E2 as [E2 E2']; apply N.leb_le in E2, E2');
      lia.
  - intros ->. constructor. by apply N.eqb_eq.
Qed.

(** X3: the question heuristic fires exactly on a text that contains
    [what?], [name?] or [sauce?], the letters in any case; when no other
    heuristic fires with it, the result is score 10 and no highlight. *)
Theorem question_heuristic (text : jsstring) :
  (fired (QUESTION PATTERNS) text = true <->
   exists pre w post, text = pre ++ w ++ cu "?" :: post /\ isLabelOf questionWords w) /\
  (fired (QUESTION PATTERNS) text = true ->
   fired (SOURCE PATTERNS) text = false -> fired (HELPER PATTERNS) text = false ->
   fired (BRACKET PATTERNS) text = false ->
   fst (analyzeComment text PATTERNS) = Return (mkAnalysis 10 [])).
Proof.
  split.
  - rewrite fired_contains. unfold contains. cbn [pattern QUESTION PATTERNS PATTERNS_at].
    unfold QUESTION_pattern. split.
    + intros (pre & s & post & -> & H).
      apply Lang_Seq_inv in H as (w & q & -> & Hw & Hq).
      apply Lang_Group_inv, Lang_anyWord in Hw as (w0 & Hin & Hw). apply Lang_Word in Hw.
      apply Lang_Chr_plain in Hq as ->; [|by vm_compute].
      exists pre, w, post. split; [by rewrite <- !app_assoc|]. by exists w0.
    + intros (pre & w & post & -> & (w0 & Hin & Hw)).
      exists pre, (w ++ [cu "?"]), post. split; [by rewrite <- !app_assoc|].
      constructor.
      * constructor. apply Lang_anyWord. exists w0. split; [done | by apply Lang_Word].
      * apply Lang_Chr_plain; [by vm_compute | done].
  - intros Hq Hs Hh Hb. unfold PATTERNS at 1. rewrite analyzeComment_eq. simpl. f_equal.
    unfold analysis, rawScore, captureHighlight, wholeHighlight. rewrite Hq, Hs, Hh, Hb.
    unfold fired in Hs, Hh, Hb.
    destruct (scan (SOURCE PATTERNS) text); [done|].
    destruct (scan (HELPER PATTERNS) text); [done|].
    destruct (scan (BRACKET PATTERNS) text); [done|]. done.
Qed.

Lemma question_heuristic_witness :
  fst (analyzeComment (lit "Anyone know the NAME?") PATTERNS) = Return (mkAnalysis 10 []).
Proof.
  apply (proj2 (question_heuristic (lit "Anyone know the NAME?"))); by vm_compute.
Defined.

(** ** The helper heuristic *)

(** X4: the helper heuristic fires exactly on a text that contains [it],
    at most one code unit of the class U+0027, U+00E2, U+20AC, U+2122, then
    [s], white space (possibly none), an upper-case and a lower-case
    ASCII letter. *)
Theorem helper_heuristic (text : jsstring) :
  fired (HELPER PATTERNS) text = true <->
  exists pre apos ws U l post,
    text = pre ++ lit "it" ++ apos ++ cu "s" :: ws ++ U :: l :: post /\
    (apos = [] \/ exists a, apos = [a] /\ isApostrophe a = true) /\
    Forall (fun ch => isWhiteSpace ch = true) ws /\
    (cu "A" <= U)%N /\ (U <= cu "Z")%N /\ (cu "a" <= l)%N /\ (l <= cu "z")%N.
Proof.
  rewrite fired_contains. unfold contains. cbn [pattern HELPER PATTERNS PATTERNS_at].
  unfold HELPER_pattern. split.
  - intros (pre & s & post & -> & H).
    apply Lang_Seq_inv in H as (sit & s1 & -> & Hit & H).
    apply Lang_Seq_inv in H as (apos & s2 & -> & Hap & H).
    apply Lang_Seq_inv in H as (ss & s3 & -> & Hs & H).
    apply Lang_Seq_inv in H as (ws & s4 & -> & Hws & H).
    apply Lang_Group_inv in H.
    apply Lang_Seq_inv in H as (cap & more & -> & Hcap & _).
    apply Lang_capitalized in Hcap as (U & l & rest & -> & HU & Hl).
    apply Lang_Word in Hit. simpl in Hit. rewrite map_id in Hit. subst sit.
    apply Lang_Chr_plain in Hs as ->; [|done].
    apply Lang_Star_CharSet in Hws.
    apply Forall_cons in Hl as [Hl _].
    apply andb_true_iff in HU as [HU1 HU2]. apply andb_true_iff in Hl as [Hl1 Hl2].
    apply N.leb_le in HU1, HU2, Hl1, Hl2.
    exists pre, apos, ws, U, l, (rest ++ more ++ post).
    split; [by rewrite <- !app_assoc|]. split.
    { apply Lang_Disj_inv in Hap as [Hap|Hap].
      - apply Lang_CharSet_inv in Hap as (a & -> & Ha). right. by exists a.
      - apply Lang_Empty_inv in Hap. by left. }
    repeat split; done.
  - intros (pre & apos & ws & U & l & post & -> & Hap & Hws & HU1 & HU2 & Hl1 & Hl2).
    apply N.leb_le in HU1, HU2, Hl1, Hl2.
    exists pre, (lit "it" ++ apos ++ [cu "s"] ++ ws ++ [U; l]), post.
    split; [by rewrite <- !app_assoc|].
    constructor; [apply Lang_Word; done|].
    constructor.
    { destruct Hap as [->|(a & -> & Ha)]; [apply L_DisjR; constructor|].
      apply L_DisjL. by constructor. }
    constructor; [by apply Lang_Chr_plain|].
    constructor; [by apply Lang_Star_CharSet|].
    constructor. rewrite <- (app_nil_r [U; l]). constructor; [|constructor].
    unfold capitalized. change [U; l] with ([U] ++ [l]). constructor.
    + constructor. by apply andb_true_iff.
    + apply Lang_Plus_CharSet. split; [done|]. constructor; [|done].
      by apply andb_true_iff.
Qed.

(** ** The bracket heuristic *)

(** A lazy loop over a character class with no group inside stops at
    the first offset at which the continuation succeeds. *)
Lemma RepeatMatcher_lazy_first Input A c fuel x z :
  RepeatMatcher (compile Input (CharSet A)) false [] c fuel x = Some z ->
  exists j, (endIndex x <= j)%nat /\ c (mkState j (captures x)) = Some z /\
    forall k, (endIndex x <= k)%nat -> (k < j)%nat ->
      c (mkState k (captures x)) = None /\
      exists ch, Input !! k = Some ch /\ A ch = true.
Proof.
  revert x. induction fuel as [|fuel IH]; intros [i caps] H;
    cbn [RepeatMatcher compile endIndex captures resetCaptures foldr] in H.
  - exists i. split; [simpl; lia|]. split; [done|].
    intros k H1 H2. exfalso. simpl in *. lia.
  - destruct (c (mkState i caps)) eqn:Ec.
    + exists i. split; [simpl; lia|]. split; [simpl; congruence|].
      intros k H1 H2. exfalso. simpl in *. lia.
    + destruct (Input !! i) as [ch|] eqn:Ei; [|done].
      destruct (A ch) eqn:EA; [|done].
      destruct (Nat.eqb_spec (S i) i); [lia|].
      apply IH in H as (j & Hj & Hc & Hk). simpl in *.
      exists j. split; [lia|]. split; [done|].
      intros k H1 H2. destruct (decide (k = i)) as [->|]; [eauto|]. apply Hk; lia.
Qed.

Definition openBracket : N := cu "[".
Definition closeBracket : N := cu "]".

(** [text] has an opening bracket at [i] and the first closing bracket
    after it at [j], with no line terminator between the two. *)
Definition bracketSpan (text : jsstring) (i j : nat) : Prop :=
  text !! i = Some openBracket /\ (i < j)%nat /\ text !! j = Some closeBracket /\
  forall k, (i < k)%nat -> (k < j)%nat ->
    exists ch, text !! k = Some ch /\ ch <> closeBracket /\ isLineTerminator ch = false.

Lemma compile_Chr_false text c x k :
  compile text (Chr false c) x k =
  match text !! endIndex x with
  | Some ch => if (ch =? c)%N then k (mkState (S (endIndex x)) (captures x)) else None
  | None => None
  end.
Proof. reflexivity. Qed.

Lemma BRACKET_matchAt_span text i z :
  matchAt text BRACKET_pattern 1 i = Some z ->
  exists j, endIndex z = S j /\ bracketSpan text i j.
Proof.
  unfold matchAt, BRACKET_pattern. cbn [compile].
  rewrite compile_Chr_false. cbn [endIndex captures].
  destruct (text !! i) as [a|] eqn:Ea; [|done].
  destruct (N.eqb_spec a (cu "[")) as [->|]; [|done].
  unfold Dot. cbn [groups]. intros H.
  apply RepeatMatcher_lazy_first in H as (j & Hj & Hc & Hk). cbn [endIndex captures] in *.
  assert (Hclose : forall k y,
            compile text (Chr false (cu "]"))
              (mkState k (<[0%nat := Some (S i, k)]> (replicate 1 None))) Some = y ->
            match y with
            | Some y' => text !! k = Some closeBracket /\ endIndex y' = S k
            | None => forall ch, text !! k = Some ch -> ch <> closeBracket
            end).
  { intros k y <-. rewrite compile_Chr_false. cbn [endIndex captures].
    destruct (text !! k) as [ch|]; [|done].
    destruct (N.eqb_spec ch (cu "]")) as [->|]; [done|]. by intros ? [= <-]. }
  exists j. pose proof (Hclose j _ Hc) as [Hcj He]. split; [done|].
  split; [done|]. split; [lia|]. split; [done|].
  intros k H1 H2. destruct (Hk k ltac:(lia) H2) as (Hn & ch & Hch & HA).
  exists ch. split; [done|]. split.
  - exact (Hclose k _ Hn ch Hch).
  - by apply negb_true_iff in HA.
Qed.

Lemma Forall_slice (P : N -> Prop) (text : jsstring) a b :
  (forall k, (a <= k)%nat -> (k < b)%nat -> exists ch, text !! k = Some ch /\ P ch) ->
  Forall P (slice text a b).
Proof.
  intros H. apply Forall_forall. intros ch Hin.
  apply list_elem_of_lookup in Hin as (q & Hq). unfold slice in Hq.
  apply lookup_take_Some in Hq as [Hq Hlt]. rewrite lookup_drop in Hq.
  destruct (H (a + q)%nat ltac:(lia) ltac:(lia)) as (ch' & E & HP). congruence.
Qed.

Lemma bracketSpan_matchAt text i j :
  bracketSpan text i j -> matchAt text BRACKET_pattern 1 i <> None.
Proof.
  intros (Hi & Hij & Hj & Hk).
  apply lookup_lt_Some in Hj as Hlen.
  apply (compile_complete text BRACKET_pattern
           (openBracket :: slice text (S i) j ++ [closeBracket]) _ _ (drop (S j) text));
    [|simpl|done].
  - unfold BRACKET_pattern.
    change (openBracket :: slice text (S i) j ++ [closeBracket])
      with ([openBracket] ++ slice text (S i) j ++ [closeBracket]).
    constructor; [by apply Lang_Chr_plain|].
    constructor; [|by apply Lang_Chr_plain].
    constructor. apply Lang_Star_CharSet. apply Forall_slice.
    intros k H1 H2. destruct (Hk k ltac:(lia) H2) as (ch & E & _ & HL).
    exists ch. split; [done|]. by rewrite HL.
  - rewrite (drop_S _ _ _ Hi). f_equal.
    rewrite <- app_assoc. simpl. rewrite <- (drop_S _ _ _ Hj).
    rewrite <- (take_drop (j - S i) (drop (S i) text)) at 1.
    unfold slice. f_equal. rewrite drop_drop. f_equal. lia.
Qed.

(** X5: when the bracket heuristic fires, its highlight runs from an
    opening bracket to the first closing bracket after it, both included,
    with no line terminator between them, and no opening bracket further
    left is closed in this way; when it does not fire, the text has no
    such pair of brackets and the result has no bracket highlight. *)
Theorem bracket_heuristic (text : jsstring) :
  exists r : AnalysisResult,
    fst (analyzeComment text PATTERNS) = Return r /\
    ((exists i j,
        bracketSpan text i j /\
        (forall i' j', (i' < i)%nat -> ~ bracketSpan text i' j') /\
        filter (fun h => h_type h = bracket) (highlights r)
          = [mkHighlight (Z.of_nat i) (Z.of_nat (S j)) bracket])
     \/
     ((forall i j, ~ bracketSpan text i j) /\
      filter (fun h => h_type h = bracket) (highlights r) = [])).
Proof.
  exists (analysis text). unfold PATTERNS at 1. rewrite analyzeComment_eq. split; [done|].
  unfold analysis. cbn [highlights]. rewrite !filter_app.
  assert (E1 : filter (fun h => h_type h = bracket)
                 (captureHighlight (SOURCE PATTERNS) 1 source text) = []).
  { unfold captureHighlight. destruct (scan _ _) as [[i z]|]; [|done].
    by destruct (captures z !! 1%nat) as [[[? ?]|]|]. }
  assert (E2 : filter (fun h => h_type h = bracket)
                 (captureHighlight (HELPER PATTERNS) 0 helper text) = []).
  { unfold captureHighlight. destruct (scan _ _) as [[i z]|]; [|done].
    by destruct (captures z !! 0%nat) as [[[? ?]|]|]. }
  rewrite E1, E2. cbn [app]. unfold wholeHighlight.
  destruct (scan (BRACKET PATTERNS) text) as [[i z]|] eqn:E.
  - left. pose proof E as E'. apply scanFrom_Some in E' as (_ & Hi & Hm & Hleft).
    cbn [pattern nGroups BRACKET PATTERNS PATTERNS_at] in Hm, Hleft.
    pose proof (BRACKET_match text i z Hi Hm) as (H2 & H3 & _).
    apply BRACKET_matchAt_span in Hm as (j & He & Hspan).
    exists i, j. split; [done|]. split.
    + intros i' j' Hlt Hs. apply bracketSpan_matchAt in Hs. apply Hs, Hleft; lia.
    + rewrite length_slice by lia. rewrite He.
      rewrite filter_cons_True by done. do 2 f_equal. lia.
  - right. split; [|done]. intros i j Hs.
    pose proof Hs as (_ & Hij & Hj & _). apply lookup_lt_Some in Hj.
    apply bracketSpan_matchAt in Hs. apply Hs.
    unfold scan in E. rewrite scanFrom_None in E. apply E; lia.
Qed.

End AnalysisExtras.


Module CommentCardFacts.
Import AnalysisService CommentCard.

Definition inside (text : jsstring) (h : Highlight) : Prop :=
  0 <= h_start h /\ h_start h < h_end h /\ h_end h <= Z.of_nat (length text).

(** Two spans that do not overlap. *)
Definition apart (a b : Highlight) : Prop :=
  h_end a <= h_start b \/ h_end b <= h_start a.

Fixpoint pairwise {A} (R : A -> A -> Prop) (l : list A) : Prop :=
  match l with
  | [] => True
  | x :: l' => Forall (R x) l' /\ pairwise R l'
  end.

Lemma pairwise_insertSorted {A} (R : A -> A -> Prop) before x l :
  (forall a b, R a b -> R b a) ->
  Forall (R x) l -> pairwise R l -> pairwise R (Dexie.insertSorted before x l).
Proof.
  intros Hsym. induction l as [|y l IH]; intros Hx Hl; simpl; [done|].
  destruct (before x y); [done|].
  apply Forall_cons in Hx as [Hxy Hx]. destruct Hl as [Hy Hl]. simpl. split.
  - rewrite DexieFacts.insertSorted_Permutation. constructor; [by apply Hsym | done].
  - by apply IH.
Qed.

Lemma pairwise_sort {A} (R : A -> A -> Prop) before l :
  (forall a b, R a b -> R b a) -> pairwise R l -> pairwise R (Dexie.sort before l).
Proof.
  intros Hsym. induction l as [|x l IH]; intros Hl; simpl; [done|].
  destruct Hl as [Hx Hl]. apply pairwise_insertSorted; [done| |by apply IH].
  by rewrite DexieFacts.sort_Permutation.
Qed.

(** Spans that follow each other from [from] on. *)
Fixpoint chained (text : jsstring) (from : Z) (l : list Highlight) : Prop :=
  match l with
  | [] => True
  | h :: l' => from <= h_start h /\ inside text h /\ chained text (h_end h) l'
  end.

Lemma chained_of_sorted text l :
  Forall (inside text) l ->
  StronglySorted (fun a b => (h_start a <=? h_start b) = true) l ->
  pairwise apart l ->
  forall from, (forall h, h ∈ l -> from <= h_start h) -> chained text from l.
Proof.
  induction l as [|h l IH]; intros Hin Hs Hp from Hfrom; simpl; [done|].
  apply Forall_cons in Hin as [Hh Hin]. apply StronglySorted_inv in Hs as [Hs Hle].
  destruct Hp as [Hap Hp].
  split; [apply Hfrom, list_elem_of_here|]. split; [done|].
  apply IH; try done. intros h' Hh'.
  rewrite Forall_forall in Hle, Hap, Hin.
  specialize (Hle h' Hh'). specialize (Hap h' Hh'). specialize (Hin h' Hh').
  apply Z.leb_le in Hle. unfold inside, apart in *. lia.
Qed.

Lemma sliceZ_inside text a b :
  0 <= a -> a <= b -> b <= Z.of_nat (length text) ->
  sliceZ text a b = slice text (Z.to_nat a) (Z.to_nat b).
Proof.
  intros Ha Hab Hb. unfold sliceZ, clampIndex.
  destruct (Z.ltb_spec a 0), (Z.ltb_spec b 0); try lia.
  f_equal; lia.
Qed.

Lemma foldl_renderStep text l : forall from parts,
  0 <= from -> from <= Z.of_nat (length text) -> chained text from l ->
  exists last added,
    foldl (renderStep text) (from, parts) l = (last, parts ++ added) /\
    from <= last /\ last <= Z.of_nat (length text) /\
    (l <> [] -> exists h, List.last l h = h /\ last = h_end h /\ h ∈ l) /\
    concat (map content added) = slice text (Z.to_nat from) (Z.to_nat last) /\
    omap (fun p => match kind p with
                   | Some ty => Some (ty, content p) | None => None end) added
      = map (fun h => (h_type h, slice text (Z.to_nat (h_start h)) (Z.to_nat (h_end h)))) l.
Proof.
  induction l as [|h l IH]; intros from parts H0 Hlen Hc.
  - exists from, []. simpl. rewrite app_nil_r, RegExpFacts.slice_nil. repeat split; try done; lia.
  - destruct Hc as (Hfrom & (Hh0 & Hh1 & Hh2) & Hc). cbn [foldl renderStep].
    set (parts1 := if from <? h_start h
                   then parts ++ [mkPart None (sliceZ text from (h_start h))] else parts).
    set (hp := mkPart (Some (h_type h)) (sliceZ text (h_start h) (h_end h))).
    destruct (IH (h_end h) (parts1 ++ [hp]) ltac:(lia) Hh2 Hc)
      as (last & added & Hf & Hl1 & Hl2 & Hlast & Hcat & Hk).
    assert (Hpre : exists pre, parts1 = parts ++ pre /\
              concat (map content pre) = slice text (Z.to_nat from) (Z.to_nat (h_start h)) /\
              omap (fun p => match kind p with
                             | Some ty => Some (ty, content p) | None => None end) pre = []).
    { unfold parts1. destruct (Z.ltb_spec from (h_start h)).
      - eexists. split; [done|]. simpl. rewrite app_nil_r, sliceZ_inside by lia. done.
      - exists []. rewrite app_nil_r. replace (h_start h) with from by lia.
        by rewrite RegExpFacts.slice_nil. }
    destruct Hpre as (pre & Epre & Hprecat & Hprek).
    exists last, (pre ++ hp :: added). split; [|split; [lia|split; [done|split; [|split]]]].
    + rewrite Hf, Epre. by rewrite <- !app_assoc.
    + intros _. destruct l as [|h' l'].
      * exists h. simpl in Hf. inversion Hf; subst. split; [done|]. split; [done|].
        apply list_elem_of_here.
      * destruct (Hlast ltac:(done)) as (hl & E1 & E2 & E3).
        exists hl. split; [done|]. split; [done|]. by apply list_elem_of_further.
    + rewrite map_app, concat_app. cbn [map concat content]. subst hp. cbn [content].
      rewrite Hprecat, Hcat, sliceZ_inside by lia.
      rewrite app_assoc.
      rewrite (RegExpFacts.slice_app text (Z.to_nat from) (Z.to_nat (h_start h))
                 (Z.to_nat (h_end h))) by lia.
      apply RegExpFacts.slice_app; lia.
    + rewrite omap_app, Hprek. cbn [app map]. rewrite <- Hk.
      subst hp. rewrite sliceZ_inside by lia. reflexivity.
Qed.

Lemma slice_all (text : jsstring) : slice text 0 (length text) = text.
Proof. unfold slice. by rewrite Nat.sub_0_r, drop_0, firstn_all. Qed.

Definition highlighted (parts : list Part) : list (HighlightType * jsstring) :=
  omap (fun p => match kind p with
                 | Some ty => Some (ty, content p) | None => None end) parts.

(** The parts for a non-empty list of highlights. *)
Definition renderSorted (text : jsstring) (hs : list Highlight) : list Part :=
  let '(lastIndex, parts) := foldl (renderStep text) (0, []) (sortByStart hs) in
  if lastIndex <? Z.of_nat (length text)
  then parts ++ [mkPart None (sliceFrom text lastIndex)]
  else parts.

Lemma renderSorted_spec (text : jsstring) (hs : list Highlight) :
  Forall (inside text) hs -> pairwise apart hs ->
  concat (map content (renderSorted text hs)) = text /\
  highlighted (renderSorted text hs)
    = map (fun h => (h_type h, slice text (Z.to_nat (h_start h)) (Z.to_nat (h_end h))))
          (sortByStart hs).
Proof.
  intros Hin Hp. unfold renderSorted. set (sorted := sortByStart hs).
  assert (Hperm : sorted ≡ₚ hs) by apply DexieFacts.sort_Permutation.
  assert (Hin' : Forall (inside text) sorted) by by rewrite Hperm.
  assert (Hs : StronglySorted (fun a b => (h_start a <=? h_start b) = true) sorted).
  { apply DexieFacts.sort_sorted.
    - intros a b. rewrite !Z.leb_le. lia.
    - intros a b c. rewrite !Z.leb_le. lia. }
  assert (Hp' : pairwise apart sorted).
  { apply pairwise_sort; [|done]. unfold apart. intros a b. tauto. }
  assert (Hc : chained text 0 sorted).
  { apply chained_of_sorted; try done. intros h Hh.
    rewrite Forall_forall in Hin'. by destruct (Hin' h Hh). }
  destruct (foldl_renderStep text sorted 0 [] ltac:(lia) ltac:(lia) Hc)
    as (last & added & Hf & Hl1 & Hl2 & _ & Hcat & Hk).
  rewrite Hf. cbn [app]. change (Z.to_nat 0) with 0%nat in Hcat.
  destruct (Z.ltb_spec last (Z.of_nat (length text))).
  - split.
    + rewrite map_app, concat_app. cbn [map concat content]. rewrite app_nil_r, Hcat.
      unfold sliceFrom, clampIndex. destruct (Z.ltb_spec last 0); [lia|].
      replace (Z.to_nat (Z.min last (Z.of_nat (length text)))) with (Z.to_nat last) by lia.
      rewrite RegExpFacts.slice_app by lia. apply slice_all.
    + unfold highlighted. rewrite omap_app. cbn. rewrite app_nil_r. exact Hk.
  - split; [|exact Hk].
    rewrite Hcat. replace (Z.to_nat last) with (length text) by lia. apply slice_all.
Qed.

(** X6: when the highlights are non-empty spans inside the text and no
    two of them overlap, the parts that HighlightedText renders, put
    together, are the text again, and the highlighted parts are the
    highlights in the order of their start, each with its own span of the
    text. *)
Theorem renderParts_roundtrip (text : jsstring) (hs : list Highlight) :
  Forall (inside text) hs -> pairwise apart hs ->
  concat (map content (renderParts text hs)) = text /\
  highlighted (renderParts text hs)
    = map (fun h => (h_type h, slice text (Z.to_nat (h_start h)) (Z.to_nat (h_end h))))
          (sortByStart hs).
Proof.
  intros Hin Hp. destruct hs as [|h0 hs0].
  - simpl. by rewrite app_nil_r.
  - exact (renderSorted_spec text (h0 :: hs0) Hin Hp).
Qed.

Lemma renderParts_roundtrip_witness :
  let text := lit "it's Naruto [x]" in
  let hs := [mkHighlight 12 15 bracket; mkHighlight 5 11 helper] in
  concat (map content (renderParts text hs)) = text /\
  highlighted (renderParts text hs)
    = map (fun h => (h_type h, slice text (Z.to_nat (h_start h)) (Z.to_nat (h_end h))))
          (sortByStart hs).
Proof.
  apply (renderParts_roundtrip (lit "it's Naruto [x]")
           [mkHighlight 12 15 bracket; mkHighlight 5 11 helper]).
  - constructor; [by vm_compute|]. constructor; [by vm_compute|]. constructor.
  - split; [|by split]. constructor; [|constructor]. right. by vm_compute.
Defined.

(** ** Overlapping highlights *)

(** By how much each highlight, in the order of the starts, begins before
    [lastIndex], the end of the highlight rendered before it. *)
Fixpoint overlap (lastIndex : Z) (l : list Highlight) : nat :=
  match l with
  | [] => 0
  | h :: l' => (Z.to_nat (lastIndex - h_start h) + overlap (h_end h) l')%nat
  end.

Lemma foldl_renderStep_length text l : forall from parts,
  0 <= from -> from <= Z.of_nat (length text) -> Forall (inside text) l ->
  exists last added,
    foldl (renderStep text) (from, parts) l = (last, parts ++ added) /\
    0 <= last /\ last <= Z.of_nat (length text) /\
    Z.of_nat (length (concat (map content added))) = last - from + Z.of_nat (overlap from l).
Proof.
  induction l as [|h l IH]; intros from parts H0 Hlen Hin.
  - exists from, []. simpl. rewrite app_nil_r. repeat split; try done; lia.
  - apply Forall_cons in Hin as [(Hh0 & Hh1 & Hh2) Hin]. cbn [foldl renderStep].
    set (parts1 := if from <? h_start h
                   then parts ++ [mkPart None (sliceZ text from (h_start h))] else parts).
    set (hp := mkPart (Some (h_type h)) (sliceZ text (h_start h) (h_end h))).
    destruct (IH (h_end h) (parts1 ++ [hp]) ltac:(lia) Hh2 Hin)
      as (last & added & Hf & Hl1 & Hl2 & Hcat).
    assert (Hpre : exists pre, parts1 = parts ++ pre /\
              Z.of_nat (length (concat (map content pre))) = Z.max 0 (h_start h - from)).
    { unfold parts1. destruct (Z.ltb_spec from (h_start h)).
      - eexists. split; [done|]. simpl. rewrite app_nil_r, sliceZ_inside by lia.
        rewrite RegExpFacts.length_slice by lia. lia.
      - exists []. rewrite app_nil_r. split; [done|]. simpl. lia. }
    destruct Hpre as (pre & Epre & Hprelen).
    exists last, (pre ++ hp :: added). split; [|split; [done|split; [done|]]].
    + rewrite Hf, Epre. by rewrite <- !app_assoc.
    + rewrite map_app, concat_app, length_app. cbn [map concat content overlap].
      rewrite length_app. subst hp. cbn [content].
      rewrite sliceZ_inside by lia. rewrite RegExpFacts.length_slice by lia. lia.
Qed.

Lemma renderParts_length (text : jsstring) (hs : list Highlight) :
  Forall (inside text) hs ->
  length (concat (map content (renderParts text hs)))
    = (length text + overlap 0 (sortByStart hs))%nat.
Proof.
  intros Hin. destruct hs as [|h0 hs0].
  - simpl. rewrite app_nil_r. lia.
  - change (renderParts text (h0 :: hs0)) with (renderSorted text (h0 :: hs0)).
    unfold renderSorted. set (sorted := sortByStart (h0 :: hs0)).
    assert (Hin' : Forall (inside text) sorted).
    { unfold sorted, sortByStart. by rewrite DexieFacts.sort_Permutation. }
    destruct (foldl_renderStep_length text sorted 0 [] ltac:(lia) ltac:(lia) Hin')
      as (last & added & Hf & Hl1 & Hl2 & Hlen).
    rewrite Hf. cbn [app]. destruct (Z.ltb_spec last (Z.of_nat (length text))).
    + rewrite map_app, concat_app, length_app. cbn [map concat content]. rewrite app_nil_r.
      unfold sliceFrom, clampIndex. destruct (Z.ltb_spec last 0); [lia|].
      rewrite RegExpFacts.length_slice by lia. lia.
    + lia.
Qed.

Lemma chained_from text l : forall from,
  chained text from l -> Forall (fun h => from <= h_start h) l.
Proof.
  induction l as [|h l IH]; intros from Hc; [constructor|].
  destruct Hc as (Hf & (H0 & H1 & H2) & Hc). constructor; [done|].
  eapply Forall_impl; [apply (IH _ Hc)|]. simpl. intros. lia.
Qed.

Lemma chained_apart text l : forall from, chained text from l -> pairwise apart l.
Proof.
  induction l as [|h l IH]; intros from Hc; [done|].
  destruct Hc as (Hf & Hh & Hc). split; [|by eapply IH].
  eapply Forall_impl; [apply (chained_from _ _ _ Hc)|]. simpl. intros h' Hh'. by left.
Qed.

Lemma overlap_zero_chained text l : forall from,
  Forall (inside text) l -> overlap from l = 0%nat -> chained text from l.
Proof.
  induction l as [|h l IH]; intros from Hin Ho; [done|].
  apply Forall_cons in Hin as [Hh Hin]. simpl in Ho. simpl.
  split; [lia|]. split; [done|]. apply IH; [done|lia].
Qed.

Lemma pairwise_Permutation {A} (R : A -> A -> Prop) (l1 l2 : list A) :
  (forall a b, R a b -> R b a) -> l1 ≡ₚ l2 -> pairwise R l1 -> pairwise R l2.
Proof.
  intros Hsym Hp. induction Hp as [|x l l' Hp IH|x y l|l l' l'' Hp1 IH1 Hp2 IH2]; intros H.
  - done.
  - destruct H as [Hx Hl]. split; [by rewrite <- Hp | by apply IH].
  - destruct H as [Hy [Hx Hl]]. apply Forall_cons in Hy as [Hyx Hy].
    split; [|done]. constructor; [by apply Hsym | done].
  - by apply IH2, IH1.
Qed.

Lemma renderParts_exact_iff (text : jsstring) (hs : list Highlight) :
  Forall (inside text) hs ->
  (concat (map content (renderParts text hs)) = text <-> pairwise apart hs).
Proof.
  intros Hin. split.
  - intros Heq. pose proof (renderParts_length text hs Hin) as Hlen.
    rewrite Heq in Hlen.
    assert (Hin' : Forall (inside text) (sortByStart hs)).
    { unfold sortByStart. by rewrite DexieFacts.sort_Permutation. }
    assert (Hc : chained text 0 (sortByStart hs))
      by (apply overlap_zero_chained; [done|lia]).
    apply (pairwise_Permutation apart (sortByStart hs) hs).
    + unfold apart. intros a b. tauto.
    + apply DexieFacts.sort_Permutation.
    + by eapply chained_apart.
  - intros Hp. destruct hs as [|h0 hs0].
    + simpl. by rewrite app_nil_r.
    + exact (proj1 (renderSorted_spec text (h0 :: hs0) Hin Hp)).
Qed.

(** X16: for highlights that are non-empty spans inside the text, the
    rendered parts together are longer than the text by the overlaps of
    the highlights, taken in the order of their starts; so the rendered
    text is the text exactly when no two highlights overlap, and
    otherwise characters of the text are shown more than once. *)
Theorem overlapping_highlights_repeat_text (text : jsstring) (hs : list Highlight) :
  Forall (inside text) hs ->
  length (concat (map content (renderParts text hs)))
    = (length text + overlap 0 (sortByStart hs))%nat /\
  (concat (map content (renderParts text hs)) = text <-> pairwise apart hs) /\
  (~ pairwise apart hs -> (length text < length (concat (map content (renderParts text hs))))%nat).
Proof.
  intros Hin. split; [by apply renderParts_length|]. split; [by apply renderParts_exact_iff|].
  intros Hn. pose proof (renderParts_length text hs Hin) as Hlen.
  destruct (decide (overlap 0 (sortByStart hs) = 0%nat)) as [E|E]; [|lia].
  exfalso. apply Hn, (renderParts_exact_iff text hs Hin).
  rewrite E, Nat.add_0_r in Hlen.
  assert (Hin' : Forall (inside text) (sortByStart hs)).
  { unfold sortByStart. by rewrite DexieFacts.sort_Permutation. }
  assert (Hp : pairwise apart hs).
  { apply (pairwise_Permutation apart (sortByStart hs) hs).
    - unfold apart. intros a b. tauto.
    - apply DexieFacts.sort_Permutation.
    - eapply chained_apart. by apply overlap_zero_chained. }
  by apply (renderParts_exact_iff text hs Hin).
Qed.

Lemma overlapping_highlights_repeat_text_witness :
  let text := lit "name: [x]" in
  let hs := [mkHighlight 6 9 source; mkHighlight 6 9 bracket] in
  length (concat (map content (renderParts text hs)))
    = (length text + overlap 0 (sortByStart hs))%nat /\
  (concat (map content (renderParts text hs)) = text <-> pairwise apart hs) /\
  (~ pairwise apart hs -> (length text < length (concat (map content (renderParts text hs))))%nat).
Proof.
  apply (overlapping_highlights_repeat_text (lit "name: [x]")
           [mkHighlight 6 9 source; mkHighlight 6 9 bracket]).
  constructor; [by vm_compute|]. constructor; [by vm_compute|]. constructor.
Defined.

(** X7: HighlightedText never throws, and its parts put together are the
    text exactly when the highlights that analyzeComment reports for the
    text do not overlap. *)
Theorem HighlightedText_roundtrip (text : jsstring) :
  exists (r : AnalysisResult) (parts : list Part),
    fst (analyzeComment text PATTERNS) = Return r /\
    HighlightedText text = Return parts /\
    (concat (map content parts) = text <-> pairwise apart (highlights r)).
Proof.
  assert (Hr : fst (analyzeComment text PATTERNS) = Return (AnalysisFacts.analysis text))
    by (unfold PATTERNS; by rewrite AnalysisFacts.analyzeComment_eq).
  exists (AnalysisFacts.analysis text), (renderParts text (highlights (AnalysisFacts.analysis text))).
  split; [done|]. split.
  - unfold HighlightedText. by rewrite Hr.
  - apply renderParts_exact_iff.
    apply Forall_forall. intros h Hh. by apply AnalysisExtras.analysis_highlights_inside.
Qed.

End CommentCardFacts.

(* ===================================================================== *)
(** * Further properties of the fetch operations *)
(* ===================================================================== *)
Module ServiceExtras.
Import Remote YoutubeService ServiceFacts.

(** Every row sits under its own id and has a score from 0 to 100. *)
Definition storeInv (tbl : gmap string Comment.t) : Prop :=
  forall k c, tbl !! k = Some c -> Comment.id c = k /\ 0 <= Comment.score c <= 100.

Definition scored (c : Comment.t) : Prop := 0 <= Comment.score c <= 100.

Lemma analysis_score_range text :
  0 <= AnalysisService.score (AnalysisFacts.analysis text) <= 100.
Proof.
  unfold AnalysisFacts.analysis. simpl.
  pose proof (AnalysisFacts.rawScore_nonneg text). lia.
Qed.

Lemma localOf_scored item videoId parentId : scored (localOf item videoId parentId).
Proof. unfold scored, localOf. simpl. apply analysis_score_range. Qed.

Lemma bulkPut_storeInv cs tbl :
  Forall scored cs -> storeInv tbl -> storeInv (bulkPut cs tbl).
Proof.
  unfold bulkPut. revert tbl. induction cs as [|c cs IH]; intros tbl Hcs Htbl; simpl; [done|].
  apply Forall_cons in Hcs as [Hc Hcs]. apply IH; [done|].
  intros k c' Hk. destruct (decide (Comment.id c = k)) as [<-|Hne].
  - rewrite lookup_insert_eq in Hk. by inversion Hk; subst.
  - rewrite lookup_insert_ne in Hk by done. by apply Htbl.
Qed.

Lemma update_storeInv key tbl : storeInv tbl -> storeInv (update_repliesFetched key tbl).
Proof.
  intros Htbl k c Hk. unfold update_repliesFetched in Hk.
  destruct (decide (key = k)) as [<-|Hne].
  - rewrite lookup_alter_eq in Hk. destruct (tbl !! key) as [c0|] eqn:E; [|done].
    simpl in Hk. inversion Hk; subst. destruct (Htbl _ _ E). by destruct c0.
  - rewrite lookup_alter_ne in Hk by done. by apply Htbl.
Qed.

Lemma threadComments_scored item videoId : Forall scored (threadComments item videoId).
Proof.
  unfold threadComments. constructor.
  - destruct (gotAll item); [|apply localOf_scored].
    pose proof (localOf_scored (topLevelComment item) videoId None) as H.
    unfold scored in *. by destruct (localOf _ _ _).
  - destruct (threadReplies item); [|done].
    apply Forall_fmap, Forall_forall. intros r _. apply localOf_scored.
Qed.

Lemma pageComments_scored its videoId : Forall scored (pageComments its videoId).
Proof.
  induction its as [|item its IH]; cbn [pageComments]; [done|].
  apply Forall_app. split; [apply threadComments_scored | done].
Qed.

Lemma repliesLoop_storeInv rs : forall parentId videoId apiKey pageToken w,
  storeInv (comments w) ->
  storeInv (comments (snd (repliesLoop rs parentId videoId apiKey pageToken w))).
Proof.
  induction rs as [|res rs IH]; intros parentId videoId apiKey pageToken w Hw;
    cbn [repliesLoop]; [done|].
  destruct (negb (ok res)); [done|].
  destruct (body res) as [data|]; [|done].
  destruct (items data) as [[[|v l]|[|t l]|its]|]; try done.
  - destruct (orNull (nextPageToken data)); [by apply IH | done].
  - destruct (orNull (nextPageToken data)); [by apply IH | done].
  - rewrite mapComments_eq.
    assert (Hb : storeInv (bulkPut (map (fun item => localOf item videoId (Some parentId)) its)
                             (comments w))).
    { apply bulkPut_storeInv; [|done]. apply Forall_fmap, Forall_forall.
      intros r _. apply localOf_scored. }
    destruct (orNull (nextPageToken data)); [by apply IH | done].
Qed.

(** X8: the three fetch operations keep the comments table well formed:
    if every row sits under its own id and has a score from 0 to 100
    before the call, the same holds after it, whatever the remote side
    answers. *)
Theorem service_keeps_store_invariant
    (videoId apiKey pageToken parentId : string) (w : World) :
  storeInv (comments w) ->
  storeInv (comments (snd (fetchCommentThreads videoId apiKey pageToken w))) /\
  storeInv (comments (snd (fetchReplies parentId videoId apiKey w))) /\
  storeInv (comments (snd (fetchVideoDetails videoId apiKey w))).
Proof.
  intros Hw. split; [|split].
  - unfold fetchCommentThreads, fetch.
    destruct (remote w) as [|res rest]; [done|].
    destruct (status res =? 403); [done|]. destruct (negb (ok res)); [done|].
    destruct (body res) as [data|]; [|done].
    destruct (items data) as [[[|v l]|its|[|c l]]|]; try done.
    destruct (threadItems_page its videoId) as (b & -> & ->).
    apply bulkPut_storeInv; [apply pageComments_scored | done].
  - unfold fetchReplies.
    pose proof (repliesLoop_storeInv (remote w) parentId videoId apiKey "" w Hw) as H.
    destruct (repliesLoop (remote w) parentId videoId apiKey "" w) as [[b|e] w']; [|done].
    by apply update_storeInv.
  - unfold fetchVideoDetails, fetch.
    destruct (remote w) as [|res rest]; [done|].
    destruct (body res) as [data|]; [|done].
    by destruct (items data) as [[[|v l]|[|t l]|[|c l]]|].
Qed.

Lemma service_keeps_store_invariant_witness :
  let w := worldWith [mkResponse 200 (Some examplePage)] ∅ in
  storeInv (comments (snd (fetchCommentThreads "v" "k" "" w))) /\
  storeInv (comments (snd (fetchReplies "t1" "v" "k" w))) /\
  storeInv (comments (snd (fetchVideoDetails "v" "k" w))).
Proof.
  apply (service_keeps_store_invariant "v" "k" "" "t1"
           (worldWith [mkResponse 200 (Some examplePage)] ∅)).
  intros k c H. simpl in H. by rewrite lookup_empty in H.
Defined.

(** ** The pagination of fetchReplies *)

(** The request of fetchReplies for a page. *)
Definition repliesRequest (parentId apiKey pageToken : string) : Request :=
  mkRequest "comments"
    ([("part", "snippet"); ("parentId", parentId); ("maxResults", "100");
      ("key", apiKey); ("textFormat", "plainText")]
     ++ if decide (pageToken = "") then [] else [("pageToken", pageToken)]).










(** ** What a thread page leaves in the table *)

Lemma bulkPut_lookup_notin cs tbl k :
  k ∉ map Comment.id cs -> bulkPut cs tbl !! k = tbl !! k.
Proof.
  unfold bulkPut. revert tbl. induction cs as [|c cs IH]; intros tbl Hk; simpl; [done|].
  simpl in Hk. apply not_elem_of_cons in Hk as [Hne Hk].
  rewrite IH by done. by rewrite lookup_insert_ne.
Qed.

Lemma bulkPut_lookup_NoDup cs tbl c :
  NoDup (map Comment.id cs) -> c ∈ cs -> bulkPut cs tbl !! Comment.id c = Some c.
Proof.
  unfold bulkPut. revert tbl. induction cs as [|c0 cs IH]; intros tbl Hnd Hc; simpl.
  - by apply elem_of_nil in Hc.
  - simpl in Hnd. apply NoDup_cons in Hnd as [Hnotin Hnd].
    apply elem_of_cons in Hc as [->|Hc].
    + fold (bulkPut cs (<[Comment.id c0 := c0]> tbl)).
      rewrite bulkPut_lookup_notin by done. apply lookup_insert_eq.
    + by apply IH.
Qed.

(** X10: a thread page whose comments have distinct ids is stored as it
    is: afterwards every comment of the page is the row under its id,
    whatever row was there before (so a [repliesFetched] flag set by an
    earlier fetchReplies is replaced by what the page says), and the rows
    under other ids are untouched. *)
Theorem fetchCommentThreads_stores_page
    (videoId apiKey pageToken : string) (w : World)
    (res : Response) (rest : list Response) (data : Body) (its : list ApiThread) :
  remote w = res :: rest -> ok res = true ->
  body res = Some data -> items data = Some (Threads its) ->
  NoDup (map Comment.id (pageComments its videoId)) ->
  exists w',
    snd (fetchCommentThreads videoId apiKey pageToken w) = w' /\
    (forall c, c ∈ pageComments its videoId -> comments w' !! Comment.id c = Some c) /\
    (forall item, item ∈ its ->
       exists c, comments w' !! id (topLevelComment item) = Some c /\
                 Comment.repliesFetched c = gotAll item) /\
    (forall k, k ∉ map Comment.id (pageComments its videoId) ->
       comments w' !! k = comments w !! k) /\
    videos w' = videos w.
Proof.
  intros Hr Hok Hb Hi Hnd.
  destruct (threadItems_page its videoId) as (b & Hti & Hd).
  eexists. split.
  { unfold fetchCommentThreads, fetch.
    rewrite Hr, (ok_not_403 _ Hok), Hok, Hb, Hi, Hti, Hd. reflexivity. }
  cbn [comments setComments sendTo videos]. split; [|split; [|split]].
  - intros c Hc. by apply bulkPut_lookup_NoDup.
  - intros item Hin. destruct (threadComments_top item videoId) as (c & Hc & H1 & _ & _ & H4).
    exists c. split; [|done]. rewrite <- H1. apply bulkPut_lookup_NoDup; [done|].
    apply elem_of_pageComments. eauto.
  - intros k Hk. by apply bulkPut_lookup_notin.
  - done.
Qed.

Lemma fetchCommentThreads_stores_page_witness :
  let w := worldWith [mkResponse 200 (Some examplePage)]
             {["t1" := Comment.setRepliesFetched true exampleThread]} in
  exists w',
    snd (fetchCommentThreads "v" "k" "" w) = w' /\
    (forall c, c ∈ pageComments exampleThreads "v" -> comments w' !! Comment.id c = Some c) /\
    (forall item, item ∈ exampleThreads ->
       exists c, comments w' !! id (topLevelComment item) = Some c /\
                 Comment.repliesFetched c = gotAll item) /\
    (forall k, k ∉ map Comment.id (pageComments exampleThreads "v") ->
       comments w' !! k = comments w !! k) /\
    videos w' = videos w.
Proof.
  apply (fetchCommentThreads_stores_page "v" "k" "" _
           (mkResponse 200 (Some examplePage)) [] examplePage exampleThreads);
    try reflexivity.
  vm_compute. repeat (constructor; [by (intros H; repeat (inversion H as [|? ? ? H']; clear H; rename H' into H)) |]).
  constructor.
Defined.

(** X11: fetchVideoDetails writes at most the metadata row of its own
    video and never touches the comments; when it returns metadata, that
    metadata is the stored row: it carries the requested id, the time of
    the call and scan status idle, and replaces what was stored before;
    when it returns null or throws, nothing is written. *)
Theorem fetchVideoDetails_writes_own_row (videoId apiKey : string) (w : World) :
  exists o w',
    fetchVideoDetails videoId apiKey w = (o, w') /\
    comments w' = comments w /\
    (forall k, k <> videoId -> videos w' !! k = videos w !! k) /\
    match o with
    | Return (Some meta) =>
        videos w' !! videoId = Some meta /\
        VideoMetadata.videoId meta = videoId /\
        VideoMetadata.lastScanned meta = now w /\
        VideoMetadata.scanStatus meta = VideoMetadata.idle
    | _ => videos w' = videos w
    end.
Proof.
  unfold fetchVideoDetails, fetch.
  destruct (remote w) as [|res rest]; [by eexists _, _|].
  destruct (body res) as [data|]; [|by eexists _, _].
  destruct (items data) as [[[|v l]|[|t l]|[|c l]]|]; try by eexists _, _.
  eexists _, _. split; [reflexivity|]. cbn [comments videos setVideos sendTo now].
  split; [done|]. split.
  - intros k Hk. by rewrite lookup_insert_ne.
  - by rewrite lookup_insert_eq.
Qed.

End ServiceExtras.


(* ===================================================================== *)
(** * More on the rate limiter queue *)
(* ===================================================================== *)
Module QueueExtras.
Import RequestQueue QueueFacts.

Lemma run_app es1 : forall es2 s,
  run s (es1 ++ es2) = match run s es1 with Some s1 => run s1 es2 | None => None end.
Proof.
  induction es1 as [|e es1 IH]; intros es2 s; simpl; [done|].
  destruct (step s e); [apply IH|done].
Qed.

Lemma paced_settled l : paced l ->
  forall i d, l !! S i = Some d -> exists t, settled d = Some t.
Proof.
  intros Hp i d Hd.
  destruct (l !! i) as [d2|] eqn:E.
  - destruct (paced_lookup l Hp i d2 d E Hd) as (t & Ht & _). by exists t.
  - apply lookup_ge_None in E. apply lookup_lt_Some in Hd. lia.
Qed.

(** X12: at most one request is in flight: a dispatch that has not
    settled is the newest one, and the worker is waiting for it; and when
    the worker is idle nothing is left behind: the queue is empty and
    every request enqueued so far has been dispatched, in order. *)
Theorem one_request_in_flight (es : list Event) (s : State) :
  run initial es = Some s ->
  (forall i d, dispatched s !! i = Some d -> settled d = None ->
     i = 0%nat /\ worker s = AwaitTask (task d)) /\
  (worker s = Idle ->
     requestQueue s = [] /\ reverse (map task (dispatched s)) = requestsOf es /\
     forall d, d ∈ dispatched s -> exists t, settled d = Some t).
Proof.
  intros H. pose proof (Inv_run es initial s Inv_initial H) as (Hf & Hp & Hw).
  pose proof (enqueued_run es initial s H) as He. simpl in He.
  assert (Hone : forall i d, dispatched s !! i = Some d -> settled d = None ->
                   i = 0%nat /\ worker s = AwaitTask (task d)).
  { intros [|i] d Hd Hs.
    - split; [done|]. unfold workerInv in Hw.
      destruct (dispatched s) as [|d0 l]; [done|]. simpl in Hd. inversion Hd; subst d0.
      destruct (worker s) as [|t|due].
      + destruct Hw as (_ & t & Ht & _). congruence.
      + destruct Hw as (<- & _). done.
      + destruct Hw as (t & Ht & _). congruence.
    - destruct (paced_settled _ Hp i d Hd) as (t & Ht). congruence. }
  split; [exact Hone|].
  intros Hi. assert (Hq : requestQueue s = []).
  { unfold workerInv in Hw. rewrite Hi in Hw.
    destruct (dispatched s); [done|]. by destruct Hw. }
  split; [done|]. split.
  - rewrite Hq, app_nil_r in Hf. congruence.
  - intros d Hd. apply list_elem_of_lookup in Hd as (i & Hd).
    destruct (settled d) as [t|] eqn:E; [by exists t|].
    destruct (Hone i d Hd E) as (_ & Hwk). congruence.
Qed.

Lemma one_request_in_flight_witness :
  exists s, run initial exampleEvents = Some s /\
    (forall i d, dispatched s !! i = Some d -> settled d = None ->
       i = 0%nat /\ worker s = AwaitTask (task d)) /\
    (worker s = Idle ->
       requestQueue s = [] /\ reverse (map task (dispatched s)) = requestsOf exampleEvents /\
       forall d, d ∈ dispatched s -> exists t, settled d = Some t).
Proof.
  eexists. split; [reflexivity|].
  apply (one_request_in_flight exampleEvents). reflexivity.
Defined.

(** X13: the starts of any two dispatches that are [k] places apart are
    at least [250 * k] ms apart; so five starts in a row span at least a
    second, whatever the callers and the tasks do. *)
Theorem dispatch_spacing (es : list Event) (s : State) :
  run initial es = Some s ->
  forall k i d1 d2,
    dispatched s !! (i + k)%nat = Some d1 -> dispatched s !! i = Some d2 ->
    (started d1 + 250 * N.of_nat k <= started d2)%N.
Proof.
  intros H. pose proof (Inv_run es initial s Inv_initial H) as (_ & Hp & _).
  induction k as [|k IH]; intros i d1 d2 H1 H2.
  - rewrite Nat.add_0_r in H1. assert (d1 = d2) by congruence. subst. lia.
  - replace (i + S k)%nat with (S (i + k)) in H1 by lia.
    destruct (dispatched s !! (i + k)%nat) as [dm|] eqn:Em.
    + destruct (paced_lookup _ Hp (i + k)%nat dm d1 Em H1) as (t1 & _ & Ha & Hb).
      pose proof (IH i dm d2 Em H2). lia.
    + apply lookup_ge_None in Em. apply lookup_lt_Some in H1. lia.
Qed.

Lemma dispatch_spacing_witness :
  exists s d1 d2, run initial exampleEvents = Some s /\
    dispatched s !! 2%nat = Some d1 /\ dispatched s !! 0%nat = Some d2 /\
    (started d1 + 250 * N.of_nat 2 <= started d2)%N.
Proof.
  eexists _, _, _. split; [reflexivity|]. split; [reflexivity|]. split; [reflexivity|].
  apply (dispatch_spacing exampleEvents _ eq_refl 2 0); reflexivity.
Defined.

(** ** The queue drains *)

Definition isEnqueue (e : Event) : bool :=
  match e with Enqueue _ => true | _ => false end.

Definition isSettle (e : Event) : bool :=
  match e with TaskSettles => true | _ => false end.

(** The running task settles, 250 ms pass, the timer fires. *)
Definition serve : list Event := [TaskSettles; Tick 250; TimerFires].

(** The events that bring the worker to rest when every task settles. *)
Definition drain (s : State) : list Event :=
  match worker s with
  | Idle => []
  | AwaitTask _ => concat (replicate (S (length (requestQueue s))) serve)
  | AwaitDelay due =>
      Tick (due - clock s) :: TimerFires :: concat (replicate (length (requestQueue s)) serve)
  end.

Lemma serve_all (q : list nat) : forall (s : State) (t : nat),
  worker s = AwaitTask t -> requestQueue s = q ->
  exists s', run s (concat (replicate (S (length q)) serve)) = Some s' /\
             worker s' = Idle /\ requestQueue s' = [] /\ enqueued s' = enqueued s.
Proof.
  induction q as [|r q IH]; intros s t Hw Hq.
  - cbn [length replicate concat serve app run step]. rewrite Hw. cbn [worker clock].
    replace (clock s + 250 <=? clock s + 250)%N with true by (symmetry; apply N.leb_le; lia).
    unfold loopHead. cbn [requestQueue]. rewrite Hq. eexists. split; [reflexivity|]. done.
  - change (concat (replicate (S (length (r :: q))) serve))
      with (serve ++ concat (replicate (S (length q)) serve)).
    rewrite run_app. cbn [serve run step]. rewrite Hw. cbn [worker clock].
    replace (clock s + 250 <=? clock s + 250)%N with true by (symmetry; apply N.leb_le; lia).
    unfold loopHead. cbn [requestQueue]. rewrite Hq.
    edestruct (IH (mk q (AwaitTask r) (clock s + 250) (enqueued s)
                     (mkDispatch r (clock s + 250) None
                        :: settleLast (clock s) (dispatched s))) r eq_refl eq_refl)
      as (s' & Hr & H1 & H2 & H3).
    exists s'. split; [exact Hr|]. done.
Qed.

Lemma Forall_concat_replicate {A} (P : A -> Prop) (l : list A) n :
  Forall P l -> Forall P (concat (replicate n l)).
Proof.
  intros Hl. induction n as [|n IH]; simpl; [constructor|]. by apply Forall_app.
Qed.

Lemma drain_quiet s : Forall (fun e => isEnqueue e = false) (drain s).
Proof.
  unfold drain. destruct (worker s).
  - constructor.
  - apply Forall_concat_replicate. by repeat constructor.
  - constructor; [done|]. constructor; [done|].
    apply Forall_concat_replicate. by repeat constructor.
Qed.

(** X14: no request is stranded: from any state that the queue can
    reach, if no further request comes in and every task settles, the
    worker comes to rest with the queue empty and every request that was
    enqueued dispatched, in the order of the calls. *)
Theorem queue_drains (es : list Event) (s : State) :
  run initial es = Some s ->
  Forall (fun e => isEnqueue e = false) (drain s) /\
  exists s',
    run s (drain s) = Some s' /\
    worker s' = Idle /\ requestQueue s' = [] /\
    reverse (map task (dispatched s')) = requestsOf es.
Proof.
  intros H. split; [apply drain_quiet|].
  pose proof (Inv_run es initial s Inv_initial H) as (Hf & Hp & Hw).
  pose proof (enqueued_run es initial s H) as He. simpl in He.
  assert (Hgoal : exists s', run s (drain s) = Some s' /\ worker s' = Idle /\
                             requestQueue s' = [] /\ enqueued s' = enqueued s).
  { unfold drain. destruct (worker s) as [|t|due] eqn:Ew.
    - exists s. split; [done|]. split; [done|]. split; [|done].
      unfold workerInv in Hw. rewrite Ew in Hw. destruct (dispatched s); [done|]. by destruct Hw.
    - by apply (serve_all (requestQueue s) s t).
    - cbn [run step]. cbn [worker clock requestQueue]. rewrite Ew.
      replace (due <=? clock s + (due - clock s))%N with true by (symmetry; apply N.leb_le; lia).
      unfold loopHead. cbn [requestQueue clock enqueued dispatched].
      destruct (requestQueue s) as [|r q] eqn:Eq.
      + cbn [length replicate concat run]. eexists. split; [reflexivity|]. done.
      + change (concat (replicate (length (r :: q)) serve))
          with (concat (replicate (S (length q)) serve)).
        edestruct (serve_all q (mk q (AwaitTask r) (clock s + (due - clock s)) (enqueued s)
                     (mkDispatch r (clock s + (due - clock s)) None :: dispatched s))
                     r eq_refl eq_refl) as (s' & Hr & H1 & H2 & H3).
        exists s'. split; [exact Hr|]. done. }
  destruct Hgoal as (s' & Hr & H1 & H2 & H3). exists s'.
  split; [exact Hr|]. split; [exact H1|]. split; [exact H2|].
  assert (Hall : run initial (es ++ drain s) = Some s') by (by rewrite run_app, H).
  pose proof (Inv_run _ initial s' Inv_initial Hall) as (Hf' & _ & _).
  rewrite H2, app_nil_r in Hf'. congruence.
Qed.

Lemma queue_drains_witness :
  exists s, run initial [Enqueue 1; Tick 40; Enqueue 2; Enqueue 3] = Some s /\
    Forall (fun e => isEnqueue e = false) (drain s) /\
    exists s',
      run s (drain s) = Some s' /\
      worker s' = Idle /\ requestQueue s' = [] /\
      reverse (map task (dispatched s')) = requestsOf [Enqueue 1; Tick 40; Enqueue 2; Enqueue 3].
Proof.
  eexists. split; [reflexivity|].
  apply (queue_drains [Enqueue 1; Tick 40; Enqueue 2; Enqueue 3]). reflexivity.
Defined.

(** X15: the queue has no timeout: while the running task does not
    settle, nothing else is started, however much time passes and
    whatever is enqueued; the requests that come in only pile up behind
    it. *)
Theorem unsettled_task_blocks_queue (es : list Event) : forall (s s' : State) (t : nat),
  worker s = AwaitTask t ->
  Forall (fun e => isSettle e = false) es ->
  run s es = Some s' ->
  worker s' = AwaitTask t /\ dispatched s' = dispatched s /\
  requestQueue s' = requestQueue s ++ requestsOf es.
Proof.
  induction es as [|e es IH]; intros s s' t Hw Hes H; simpl in H.
  - inversion H; subst. unfold requestsOf. simpl. by rewrite app_nil_r.
  - apply Forall_cons in Hes as [He Hes].
    destruct e as [request| | |ms]; simpl in H, He; try done.
    + unfold enqueueRequest, processQueue, isProcessingQueue in H. simpl in H. rewrite Hw in H.
      destruct (IH _ s' t (eq_refl : worker (mk _ (AwaitTask t) _ _ _) = AwaitTask t) Hes H)
        as (H1 & H2 & H3). simpl in *.
      split; [done|]. split; [done|]. rewrite H3. unfold requestsOf. simpl.
      by rewrite <- app_assoc.
    + by rewrite Hw in H.
    + destruct (IH (mk (requestQueue s) (worker s) (clock s + ms) (enqueued s) (dispatched s))
                  s' t Hw Hes H) as (H1 & H2 & H3). simpl in *. done.
Qed.

Lemma unsettled_task_blocks_queue_witness :
  exists s s', run initial [Enqueue 1] = Some s /\
    run s [Tick 100000; Enqueue 2; Tick 100000; Enqueue 3] = Some s' /\
    worker s' = AwaitTask 1 /\ dispatched s' = dispatched s /\
    requestQueue s' = requestQueue s ++ requestsOf [Tick 100000; Enqueue 2; Tick 100000; Enqueue 3].
Proof.
  eexists _, _. split; [reflexivity|]. split; [reflexivity|].
  apply (unsettled_task_blocks_queue [Tick 100000; Enqueue 2; Tick 100000; Enqueue 3] _ _ 1%nat).
  - reflexivity.
  - by repeat constructor.
  - reflexivity.
Defined.

End QueueExtras.


(* ===================================================================== *)
(** * The All tab and Clear *)
(* ===================================================================== *)
Module DashboardRestFacts.
Import Remote Dexie DashboardRest.

Lemma elem_of_toArray (tbl : gmap string Comment.t) c :
  c ∈ toArray tbl <-> exists k, tbl !! k = Some c.
Proof. unfold toArray. by rewrite DexieFacts.sort_Permutation, DexieFacts.elem_of_rows. Qed.

Lemma elem_of_whereVideoId (v : string) (tbl : gmap string Comment.t) c :
  c ∈ whereVideoId v tbl <-> (exists k, tbl !! k = Some c) /\ Comment.videoId c = v.
Proof. unfold whereVideoId. rewrite list_elem_of_filter, elem_of_toArray. tauto. Qed.

Lemma nil_of_no_elem {A} (l : list A) : (forall x, x ∉ l) -> l = [].
Proof. destruct l as [|x l]; [done|]. intros H. destruct (H x). apply list_elem_of_here. Qed.

Lemma lookup_deleteWhereVideoId (v : string) (tbl : gmap string Comment.t) k c :
  Db.deleteWhereVideoId v tbl !! k = Some c <-> tbl !! k = Some c /\ Comment.videoId c <> v.
Proof. unfold Db.deleteWhereVideoId. by rewrite map_lookup_filter_Some. Qed.

(** ** The order of the compound keys *)

Lemma ascii_compare_lt_trans (a b c : ascii) :
  Ascii.compare a b = Lt -> Ascii.compare b c = Lt -> Ascii.compare a c = Lt.
Proof. unfold Ascii.compare. rewrite !N.compare_lt_iff. lia. Qed.

Lemma string_compare_lt_trans (s1 : string) : forall s2 s3,
  String.compare s1 s2 = Lt -> String.compare s2 s3 = Lt -> String.compare s1 s3 = Lt.
Proof.
  induction s1 as [|a s1 IH]; intros [|b s2] [|c s3]; simpl; try done.
  destruct (Ascii.compare a b) eqn:E1; try done.
  - apply Ascii.compare_eq_iff in E1. subst b.
    destruct (Ascii.compare a c); try done. apply IH.
  - destruct (Ascii.compare b c) eqn:E2; try done.
    + apply Ascii.compare_eq_iff in E2. subst c. by rewrite E1.
    + by rewrite (ascii_compare_lt_trans a b c E1 E2).
Qed.

Lemma compareKey_Gt (k1 k2 : string * Z) : compareKey k1 k2 = Gt <-> compareKey k2 k1 = Lt.
Proof.
  unfold compareKey. rewrite (String.compare_antisym (fst k2) (fst k1)).
  destruct (String.compare (fst k1) (fst k2)); simpl; [|split; done|split; done].
  rewrite (Z.compare_antisym (snd k1) (snd k2)).
  destruct (snd k1 ?= snd k2); simpl; split; done.
Qed.

Lemma keyLe_total (k1 k2 : string * Z) : keyLe k1 k2 = true \/ keyLe k2 k1 = true.
Proof.
  unfold keyLe. destruct (compareKey k1 k2) eqn:E; auto.
  apply compareKey_Gt in E. rewrite E. auto.
Qed.

Lemma keyLe_trans (k1 k2 k3 : string * Z) :
  keyLe k1 k2 = true -> keyLe k2 k3 = true -> keyLe k1 k3 = true.
Proof.
  unfold keyLe, compareKey. destruct k1 as [s1 n1], k2 as [s2 n2], k3 as [s3 n3]. cbn [fst snd].
  destruct (String.compare s1 s2) eqn:E12; [| |done].
  - apply String.compare_eq_iff in E12. subst s2.
    destruct (String.compare s1 s3) eqn:E13; [| done |done].
    intros H1 H2. destruct (n1 ?= n2) eqn:C1; try done; destruct (n2 ?= n3) eqn:C2; try done;
      destruct (n1 ?= n3) eqn:C3; try done;
      rewrite ?Z.compare_eq_iff, ?Z.compare_lt_iff, ?Z.compare_gt_iff in *; lia.
  - intros _. destruct (String.compare s2 s3) eqn:E23; [| |done].
    + apply String.compare_eq_iff in E23. subst s3. by rewrite E12.
    + by rewrite (string_compare_lt_trans s1 s2 s3 E12 E23).
Qed.

Lemma likes_range (v v' : string) (n : Z) :
  keyLe (v, 0) (v', n) && keyLt (v', n) (v, 99999999) = true <-> v' = v /\ 0 <= n < 99999999.
Proof.
  unfold keyLe, keyLt, compareKey. cbn [fst snd].
  rewrite (String.compare_antisym v v').
  destruct (String.compare v' v) eqn:E; cbn [CompOpp].
  - apply String.compare_eq_iff in E. subst.
    rewrite andb_true_iff.
    destruct (0 ?= n) eqn:C1; destruct (n ?= 99999999) eqn:C2;
      rewrite ?Z.compare_eq_iff, ?Z.compare_lt_iff, ?Z.compare_gt_iff in *;
      split; try (intros [? ?]; done); try (intros [_ ?]; lia); try (intros _; split; [done|lia]).
  - split; [done|]. intros [-> _]. by rewrite DexieFacts.string_compare_refl in E.
  - split; [done|]. intros [-> _]. by rewrite DexieFacts.string_compare_refl in E.
Qed.

(** A row that the All tab can show for [videoId]. *)
Definition listed (videoId : string) (c : Comment.t) : Prop :=
  Comment.videoId c = videoId /\ 0 <= Comment.likeCount c < 99999999.

#[local] Instance listed_dec videoId c : Decision (listed videoId c).
Proof. unfold listed. apply _. Defined.

Lemma between_listed videoId l :
  between (videoId, 0) (videoId, 99999999) l = filter (listed videoId) l.
Proof.
  unfold between. apply list_filter_iff. intros c.
  unfold videoId_likeCount, listed. apply likes_range.
Qed.

Lemma StronglySorted_filter {A} (R : A -> A -> Prop) (P : A -> Prop) `{!forall x, Decision (P x)}
    (l : list A) :
  StronglySorted R l -> StronglySorted R (filter P l).
Proof.
  induction l as [|x l IH]; intros Hs; [constructor|].
  apply StronglySorted_inv in Hs as [Hl Hx]. rewrite filter_cons.
  destruct (decide (P x)); [|by apply IH].
  constructor; [by apply IH|].
  rewrite Forall_forall in Hx. apply Forall_forall. intros y Hy.
  apply list_elem_of_filter in Hy as [_ Hy]. by apply Hx.
Qed.

Lemma StronglySorted_reverse {A} (R : A -> A -> Prop) (l : list A) :
  StronglySorted R l -> StronglySorted (fun a b => R b a) (reverse l).
Proof.
  induction l as [|x l IH]; intros Hs; [constructor|].
  apply StronglySorted_inv in Hs as [Hl Hx]. rewrite reverse_cons.
  apply StronglySorted_app_2; [|by apply IH|repeat constructor].
  intros a b Ha Hb. apply list_elem_of_singleton in Hb as ->.
  rewrite Forall_forall in Hx. apply Hx. by apply elem_of_reverse.
Qed.

(** The rows of the range, most liked first. *)
Definition ranked (videoId : string) (tbl : gmap string Comment.t) : list Comment.t :=
  reverse (filter (listed videoId) (index_videoId_likeCount tbl)).

Lemma ranked_sorted videoId tbl :
  StronglySorted (fun a b => Comment.likeCount b <= Comment.likeCount a) (ranked videoId tbl).
Proof.
  unfold ranked.
  assert (Hs : StronglySorted (fun a b => keyLe (videoId_likeCount a) (videoId_likeCount b) = true)
                 (filter (listed videoId) (index_videoId_likeCount tbl))).
  { apply StronglySorted_filter.
    apply (DexieFacts.sort_sorted
             (fun a b => keyLe (videoId_likeCount a) (videoId_likeCount b))).
    - intros a b. apply keyLe_total.
    - intros a b c. apply keyLe_trans. }
  apply StronglySorted_reverse in Hs.
  assert (Hin : Forall (listed videoId)
                  (reverse (filter (listed videoId) (index_videoId_likeCount tbl)))).
  { apply Forall_forall. intros c Hc. apply elem_of_reverse, list_elem_of_filter in Hc. tauto. }
  revert Hs Hin. generalize (reverse (filter (listed videoId) (index_videoId_likeCount tbl))).
  induction l as [|x l IH]; intros Hs Hin; [constructor|].
  apply StronglySorted_inv in Hs as [Hl Hx]. apply Forall_cons in Hin as [Hxin Hin].
  constructor; [by apply IH|].
  rewrite Forall_forall in Hx, Hin. apply Forall_forall. intros y Hy.
  specialize (Hx y Hy). specialize (Hin y Hy).
  destruct Hxin as [Ex _], Hin as [Ey _].
  unfold keyLe, compareKey, videoId_likeCount in Hx. cbn [fst snd] in Hx.
  rewrite Ex, Ey, DexieFacts.string_compare_refl in Hx.
  destruct (Comment.likeCount y ?= Comment.likeCount x) eqn:C; try done;
    rewrite ?Z.compare_eq_iff, ?Z.compare_lt_iff in C; lia.
Qed.

Lemma elem_of_ranked videoId tbl c :
  c ∈ ranked videoId tbl <-> (exists k, tbl !! k = Some c) /\ listed videoId c.
Proof.
  unfold ranked, index_videoId_likeCount.
  rewrite elem_of_reverse, list_elem_of_filter, DexieFacts.sort_Permutation, elem_of_toArray.
  tauto.
Qed.

(** X20: the All tab shows at most 100 comments, all of them stored
    comments of the video with a like count from 0 up to, but not
    including, 99999999, the most liked first; a stored comment of the
    video in that range that is not shown has no more likes than any that
    is shown, and when there are at most 100 such comments all of them are
    shown. *)
Theorem allComments_top_100 (videoId : string) (tbl : gmap string Comment.t) :
  (length (allComments videoId tbl) <= 100)%nat /\
  (forall c, c ∈ allComments videoId tbl ->
     (exists k, tbl !! k = Some c) /\ Comment.videoId c = videoId /\
     0 <= Comment.likeCount c < 99999999) /\
  StronglySorted (fun a b => Comment.likeCount b <= Comment.likeCount a)
    (allComments videoId tbl) /\
  (forall c c', c ∈ allComments videoId tbl ->
     (exists k, tbl !! k = Some c') -> Comment.videoId c' = videoId ->
     0 <= Comment.likeCount c' < 99999999 -> c' ∉ allComments videoId tbl ->
     Comment.likeCount c' <= Comment.likeCount c) /\
  ((length (filter (listed videoId) (rows tbl)) <= 100)%nat ->
   allComments videoId tbl ≡ₚ filter (listed videoId) (rows tbl)).
Proof.
  assert (E : allComments videoId tbl = take 100 (ranked videoId tbl)).
  { unfold allComments, ranked. by rewrite between_listed. }
  pose proof (ranked_sorted videoId tbl) as Hs.
  rewrite <- (take_drop 100 (ranked videoId tbl)) in Hs.
  apply StronglySorted_app in Hs as (Hcross & Hs1 & _).
  rewrite E. split; [rewrite length_take; lia|]. split; [|split; [done|split]].
  - intros c Hc. apply elem_of_take in Hc as (i & Hc & _).
    apply list_elem_of_lookup_2, elem_of_ranked in Hc. unfold listed in Hc. tauto.
  - intros c c' Hc Hk Hv Hl Hn. apply Hcross; [done|].
    assert (Hr : c' ∈ ranked videoId tbl) by (apply elem_of_ranked; by split).
    rewrite <- (take_drop 100 (ranked videoId tbl)) in Hr.
    apply elem_of_app in Hr as [Hr|Hr]; [done|exact Hr].
  - intros Hlen.
    assert (Hp : ranked videoId tbl ≡ₚ filter (listed videoId) (rows tbl)).
    { unfold ranked, index_videoId_likeCount, toArray.
      by rewrite reverse_Permutation, !DexieFacts.sort_Permutation. }
    rewrite take_ge; [done|]. by rewrite Hp.
Qed.

(** X21: Clear removes the video and every comment stored for it: the
    queries of the dashboard find nothing for it afterwards, so a deep
    scan started then has no thread to visit; the comments and the
    metadata of other videos stay as they are, and the statistics are
    back to those of a fresh dashboard, without an error message. *)
Theorem handleClear_empties_video (videoId : string) (d : Dashboard.State) :
  let tbl := comments (Dashboard.world d) in
  let d' := handleClear videoId d in
  let tbl' := comments (Dashboard.world d') in
  whereVideoId videoId tbl' = [] /\
  Dashboard.candidates videoId tbl' = [] /\
  allComments videoId tbl' = [] /\
  videos (Dashboard.world d') !! videoId = None /\
  (forall v c, v <> videoId -> c ∈ whereVideoId v tbl' <-> c ∈ whereVideoId v tbl) /\
  (forall v, v <> videoId ->
     videos (Dashboard.world d') !! v = videos (Dashboard.world d) !! v) /\
  Dashboard.stats d' = Dashboard.stats (Dashboard.initial (Dashboard.world d)).
Proof.
  intros tbl d' tbl'.
  assert (Hl : forall k c, tbl' !! k = Some c <-> tbl !! k = Some c /\ Comment.videoId c <> videoId)
    by (intros k c; apply lookup_deleteWhereVideoId).
  assert (Hnone : forall c, (exists k, tbl' !! k = Some c) -> Comment.videoId c <> videoId).
  { intros c (k & Hk). by apply Hl in Hk as [_ ?]. }
  split; [|split; [|split; [|split; [|split; [|split]]]]].
  - apply nil_of_no_elem. intros c Hc. apply elem_of_whereVideoId in Hc as (Hk & Hv).
    by apply (Hnone c Hk).
  - apply nil_of_no_elem. intros c Hc.
    rewrite DexieFacts.candidates_Permutation in Hc.
    apply list_elem_of_filter in Hc as ((Hv & _) & Hk). apply DexieFacts.elem_of_rows in Hk.
    by apply (Hnone c Hk).
  - apply nil_of_no_elem. intros c Hc. unfold allComments in Hc. rewrite between_listed in Hc.
    apply elem_of_take in Hc as (i & Hc & _).
    apply list_elem_of_lookup_2, elem_of_ranked in Hc as (Hk & Hv & _).
    by apply (Hnone c Hk).
  - apply lookup_delete_eq.
  - intros v c Hv. rewrite !elem_of_whereVideoId. split.
    + intros ((k & Hk) & Hc). apply Hl in Hk as [Hk _]. eauto.
    + intros ((k & Hk) & Hc). split; [|done]. exists k. apply Hl. split; [done|congruence].
  - intros v Hv. by apply lookup_delete_ne.
  - done.
Qed.

End DashboardRestFacts.

(* ===================================================================== *)
(** * More on the scans of the dashboard *)
(* ===================================================================== *)
Module DashboardExtras.
Import Remote Dashboard.

(** How many more times a scan can be resumed once Stop was clicked. *)
Definition rank (f : Frame) : nat :=
  match f with
  | SmartGetMeta | SmartFetchThreads _ _ => 2
  | _ => 1
  end.

(** The frames that wait for a call of the service. *)
Definition callsService (f : Frame) : bool :=
  match f with
  | SmartFetchDetails | SmartFetchThreads _ _ | SmartReplies _ _ _ _ | DeepReplies _ _ _ => true
  | _ => false
  end.

Definition ended (st : Status.t) : Prop := st = Status.complete \/ st = Status.error.

Ltac wind Hc :=
  unfold smartFor, smartWhile, deepFor;
  cbn [withWorld setStats catch cancelScanRef]; rewrite ?Hc; cbn;
  (split; [done|]); (split; [done|]);
  first [ left; split; [done|auto]
        | right; eexists; split; [done|]; split; [simpl; lia|done] ].

(** X17: once Stop was clicked and no scan is started again, a
    suspended scan is resumed at most twice: each time its awaited call
    settles it either ends, and then the status becomes complete or
    error, or it moves to a frame of lower rank with the status as it
    was; the flag stays set, and a scan that was waiting for a read of
    the database writes nothing to the tables when it is resumed. *)
Theorem stopped_scan_winds_down (videoId apiKey : string) (d : State) (k : nat) (f : Frame) :
  cancelScanRef d = true -> runs d !! k = Some f ->
  let d' := step videoId apiKey d (Settle k) in
  cancelScanRef d' = true /\
  (callsService f = false ->
   comments (world d') = comments (world d) /\ videos (world d') = videos (world d)) /\
  ((runs d' = delete k (runs d) /\ ended (ScanStats.status (stats d'))) \/
   (exists g, runs d' = <[k := g]> (runs d) /\ (rank g < rank f)%nat /\
              ScanStats.status (stats d') = ScanStats.status (stats d))).
Proof.
  intros Hc Hk. cbn [step]. rewrite Hk. unfold ended.
  destruct f as [| |tok n|tok n|th rest tok n| |t rest n]; cbn [resume].
  - destruct (videos (world d) !! videoId); wind Hc.
  - destruct (YoutubeService.fetchVideoDetails videoId apiKey (world d)) as [[v|e] w]; wind Hc.
  - destruct (YoutubeService.fetchCommentThreads videoId apiKey tok (world d))
      as [[[next count]|e] w]; wind Hc.
  - destruct (filter _ _) as [|th rest], tok; wind Hc.
  - destruct (YoutubeService.fetchReplies (Comment.id th) videoId apiKey (world d)) as [[v|e] w];
      destruct rest, tok; wind Hc.
  - destruct (filter _ _) as [|th rest]; wind Hc.
  - destruct (YoutubeService.fetchReplies (Comment.id t) videoId apiKey (world d)) as [[v|e] w];
      destruct rest; wind Hc.
Qed.

Lemma stopped_scan_winds_down_witness :
  let d := step "v" "k" (run "v" "k" (initial (ServiceFacts.worldWith [] ∅)) [StartSmart]) Stop in
  let d' := step "v" "k" d (Settle 0) in
  runs d = [SmartGetMeta] /\ runs d' = [SmartFetchDetails] /\
  cancelScanRef d' = true /\
  (callsService SmartGetMeta = false ->
   comments (world d') = comments (world d) /\ videos (world d') = videos (world d)) /\
  ((runs d' = delete 0%nat (runs d) /\ ended (ScanStats.status (stats d'))) \/
   (exists g, runs d' = <[0%nat := g]> (runs d) /\ (rank g < rank SmartGetMeta)%nat /\
              ScanStats.status (stats d') = ScanStats.status (stats d))).
Proof.
  split; [reflexivity|]. split; [reflexivity|].
  apply (stopped_scan_winds_down "v" "k" _ 0 SmartGetMeta); reflexivity.
Defined.

(** X18: a thread page that comes back with a status that is not ok
    ends the smart scan: the status becomes error with the message Quota
    Exceeded for 403 and Network Error otherwise, the scan is gone, and
    the tables, the counter and the cancel flag are as they were. *)
Theorem page_failure_ends_smart_scan (videoId apiKey : string) (d : State) (k : nat)
    (pageToken : string) (totalFetched : Z) (res : Response) (rest : list Response) :
  runs d !! k = Some (SmartFetchThreads pageToken totalFetched) ->
  remote (world d) = res :: rest -> ok res = false ->
  let d' := step videoId apiKey d (Settle k) in
  ScanStats.status (stats d') = Status.error /\
  ScanStats.error (stats d')
    = Some (if status res =? 403 then "Quota Exceeded" else "Network Error") /\
  runs d' = delete k (runs d) /\
  comments (world d') = comments (world d) /\ videos (world d') = videos (world d) /\
  remote (world d') = rest /\
  ScanStats.fetchedCount (stats d') = ScanStats.fetchedCount (stats d) /\
  cancelScanRef d' = cancelScanRef d.
Proof.
  intros Hk Hr Hok. cbn [step]. rewrite Hk. cbn [resume].
  unfold YoutubeService.fetchCommentThreads, fetch. rewrite Hr.
  destruct (status res =? 403); [by cbn|]. rewrite Hok. by cbn.
Qed.

Lemma page_failure_ends_smart_scan_witness :
  let d := Dashboard.mk (ScanStats.mk 7 0 Status.running (Some Mode.smart) None) false
             [SmartFetchThreads "p2" 7]
             (ServiceFacts.worldWith [mkResponse 403 None] {["t1" := ServiceFacts.exampleThread]}) in
  let d' := step "v" "k" d (Settle 0) in
  ScanStats.status (stats d') = Status.error /\
  ScanStats.error (stats d') = Some "Quota Exceeded" /\
  runs d' = delete 0%nat (runs d) /\
  comments (world d') = comments (world d) /\ videos (world d') = videos (world d) /\
  remote (world d') = [] /\
  ScanStats.fetchedCount (stats d') = ScanStats.fetchedCount (stats d) /\
  cancelScanRef d' = cancelScanRef d.
Proof.
  apply (page_failure_ends_smart_scan "v" "k" _ 0 "p2" 7 (mkResponse 403 None) []); reflexivity.
Defined.

(** ** The rows that a scan lists *)

(** [Number.MAX_SAFE_INTEGER]: up to here the sums of JS numbers are the
    sums of the integers. *)
Definition MAX_SAFE_INTEGER : Z := 2 ^ 53 - 1.

(** An id of ASCII characters only. *)
Definition asciiId (k : string) : bool :=
  forallb (fun a => (N_of_ascii a <? 128)%N) (list_ascii_of_string k).

(** Every row of the table sits under its own id, as Dexie keeps a table
    whose primary key is [id], and the ids are ASCII. *)
Definition keyed (tbl : gmap string Comment.t) : Prop :=
  forall k c, tbl !! k = Some c -> Comment.id c = k /\ asciiId k = true.

(** The ids ascend strictly from [a] to [b]. *)
Definition idLt (a b : Comment.t) : Prop :=
  String.compare (Comment.id a) (Comment.id b) = Lt.

Lemma leb_keyLe (a b : string) : String.leb a b = Dexie.keyLe (a, 0) (b, 0).
Proof.
  unfold String.leb, Dexie.keyLe, Dexie.compareKey. cbn [fst snd].
  by destruct (String.compare a b).
Qed.

Lemma toArray_sorted_leb (tbl : gmap string Comment.t) :
  StronglySorted (fun a b => String.leb (Comment.id a) (Comment.id b) = true) (Dexie.toArray tbl).
Proof.
  unfold Dexie.toArray.
  apply (DexieFacts.sort_sorted (fun a b => String.leb (Comment.id a) (Comment.id b))).
  - intros a b. rewrite !leb_keyLe. apply DashboardRestFacts.keyLe_total.
  - intros a b c. rewrite !leb_keyLe. apply DashboardRestFacts.keyLe_trans.
Qed.

Lemma keyed_rows_ids (tbl : gmap string Comment.t) :
  keyed tbl -> map Comment.id (Dexie.rows tbl) = (map_to_list tbl).*1.
Proof.
  intros Hk. unfold Dexie.rows. rewrite <- list_fmap_compose.
  apply list_fmap_ext. intros i [k c] Hi. cbn.
  apply list_elem_of_lookup_2, elem_of_map_to_list in Hi. by apply Hk in Hi as [? _].
Qed.

Lemma toArray_NoDup (tbl : gmap string Comment.t) :
  keyed tbl -> NoDup (map Comment.id (Dexie.toArray tbl)).
Proof.
  intros Hk. unfold Dexie.toArray. rewrite DexieFacts.sort_Permutation.
  rewrite (keyed_rows_ids tbl Hk). apply NoDup_fst_map_to_list.
Qed.

Lemma sorted_leb_strict (l : list Comment.t) :
  StronglySorted (fun a b => String.leb (Comment.id a) (Comment.id b) = true) l ->
  NoDup (map Comment.id l) -> StronglySorted idLt l.
Proof.
  induction l as [|x l IH]; intros Hs Hn; [constructor|].
  apply StronglySorted_inv in Hs as [Hl Hx]. cbn [map] in Hn.
  apply NoDup_cons in Hn as [Hx' Hn]. constructor; [by apply IH|].
  apply Forall_forall. intros y Hy. rewrite Forall_forall in Hx. specialize (Hx y Hy).
  unfold idLt. unfold String.leb in Hx.
  destruct (String.compare (Comment.id x) (Comment.id y)) eqn:E; try done.
  apply String.compare_eq_iff in E. destruct Hx'. rewrite E.
  apply list_elem_of_fmap. by exists y.
Qed.

Lemma idLt_NoDup (l : list Comment.t) : StronglySorted idLt l -> NoDup (map Comment.id l).
Proof.
  induction l as [|x l IH]; intros Hs; [constructor|].
  apply StronglySorted_inv in Hs as [Hl Hx]. cbn [map]. apply NoDup_cons. split; [|by apply IH].
  intros Hin. apply list_elem_of_fmap in Hin as (y & Hy & Hin).
  rewrite Forall_forall in Hx. specialize (Hx y Hin). unfold idLt in Hx.
  rewrite Hy, DexieFacts.string_compare_refl in Hx. done.
Qed.

(** The rows that a scan lists: those of the video that pass its
    filter, each once, by strictly ascending id. *)
Lemma listed_threads (P : Comment.t -> bool) (videoId : string) (tbl : gmap string Comment.t) :
  keyed tbl ->
  let threads := filter (fun c => P c = true) (Dexie.whereVideoId videoId tbl) in
  (forall c, c ∈ threads <->
     tbl !! Comment.id c = Some c /\ Comment.videoId c = videoId /\ P c = true) /\
  NoDup (map Comment.id threads) /\
  StronglySorted idLt threads.
Proof.
  intros Hk threads.
  assert (Hs : StronglySorted idLt threads).
  { unfold threads, Dexie.whereVideoId.
    do 2 apply DashboardRestFacts.StronglySorted_filter.
    apply sorted_leb_strict; [apply toArray_sorted_leb | by apply toArray_NoDup]. }
  split; [|split; [by apply idLt_NoDup | done]].
  intros c. unfold threads.
  rewrite list_elem_of_filter, DashboardRestFacts.elem_of_whereVideoId. split.
  - intros (HP & (k & Hc) & Hv). destruct (Hk k c Hc) as [<- _]. done.
  - intros (Hc & Hv & HP). eauto.
Qed.


Lemma Forall_filter_true {A} (P : A -> bool) (l : list A) :
  Forall (fun c => P c = true) (filter (fun c => P c = true) l).
Proof. apply Forall_forall. intros c Hc. by apply list_elem_of_filter in Hc as [? _]. Qed.

(** ** A deep scan from start to end *)

(** A response that ends the pagination of fetchReplies: one that is not
    ok, or a page of replies without a token for a next page. *)
Definition lastPage (res : Response) : Prop :=
  ok res = false \/
  (ok res = true /\
   exists its tok, body res = Some (mkBody (Some (Comments its)) tok) /\
                   YoutubeService.orNull tok = None).

Definition sumReplyCount (threads : list Comment.t) : Z :=
  foldr (fun t n => Comment.replyCount t + n) 0 threads.

Lemma fetchReplies_lastPage (parentId videoId apiKey : string) (w : World) res rest :
  remote w = res :: rest -> lastPage res ->
  exists w', YoutubeService.fetchReplies parentId videoId apiKey w = (Return tt, w') /\
    remote w' = rest /\
    sent w' = sent w ++ [ServiceExtras.repliesRequest parentId apiKey ""] /\
    videos w' = videos w.
Proof.
  intros Hr [Hok|(Hok & its & tok & Hb & Ht)]; unfold YoutubeService.fetchReplies; rewrite Hr;
    cbn [YoutubeService.repliesLoop]; rewrite Hok; cbn [negb].
  - eexists. split; [reflexivity|]. done.
  - rewrite Hb. cbn [items nextPageToken]. rewrite ServiceFacts.mapComments_eq, Ht.
    eexists. split; [reflexivity|]. done.
Qed.

Lemma deep_loop (videoId apiKey : string) (ts : list Comment.t) :
  forall (t : Comment.t) (n : Z) (d : State) (rs rest : list Response),
  runs d = [DeepReplies t ts n] -> cancelScanRef d = false ->
  remote (world d) = rs ++ rest -> Forall lastPage rs -> length rs = S (length ts) ->
  let d' := run videoId apiKey d (replicate (S (length ts)) (Settle 0)) in
  runs d' = [] /\
  ScanStats.status (stats d') = Status.complete /\
  ScanStats.mode (stats d') = ScanStats.mode (stats d) /\
  ScanStats.fetchedCount (stats d')
    = ScanStats.fetchedCount (stats d) + sumReplyCount (t :: ts) /\
  sent (world d')
    = sent (world d)
      ++ map (fun t => ServiceExtras.repliesRequest (Comment.id t) apiKey "") (t :: ts) /\
  remote (world d') = rest /\
  videos (world d') = videos (world d).
Proof.
  induction ts as [|t' ts IH]; intros t n d rs rest Hruns Hc Hr Hrs Hlen.
  - destruct rs as [|res [|? ?]]; try done. apply Forall_cons in Hrs as [Hres _].
    destruct (fetchReplies_lastPage (Comment.id t) videoId apiKey (world d) res rest Hr Hres)
      as (w' & Hf & H1 & H2 & H3).
    cbn [length replicate run foldl step]. rewrite Hruns. cbn [lookup list_lookup resume].
    rewrite Hf. unfold deepFor, finish. cbn. rewrite H1, H2, H3, Hruns.
    repeat split; try done. lia.
  - destruct rs as [|res rs]; [done|]. apply Forall_cons in Hrs as [Hres Hrs].
    destruct (fetchReplies_lastPage (Comment.id t) videoId apiKey (world d) res (rs ++ rest)
                Hr Hres) as (w' & Hf & H1 & H2 & H3).
    change (replicate (S (length (t' :: ts))) (Settle 0))
      with (Settle 0 :: replicate (S (length ts)) (Settle 0)).
    unfold run. cbn [foldl]. fold (run videoId apiKey).
    set (d1 := step videoId apiKey d (Settle 0)).
    assert (Hd1 : d1 = Dashboard.mk (addFetched (Comment.replyCount t) (stats d)) false
                         [DeepReplies t' ts (n + Comment.replyCount t)] w').
    { unfold d1. cbn [step]. rewrite Hruns. cbn [lookup list_lookup resume]. rewrite Hf.
      unfold deepFor. cbn [withWorld setStats cancelScanRef]. rewrite Hc. cbn.
      by rewrite Hruns, Hc. }
    destruct (IH t' (n + Comment.replyCount t) d1 rs rest
                ltac:(by rewrite Hd1) ltac:(by rewrite Hd1) ltac:(by rewrite Hd1) Hrs
                ltac:(simpl in Hlen; lia)) as (E1 & E2 & E3 & E4 & E5 & E6 & E7).
    fold (run videoId apiKey d1 (replicate (S (length ts)) (Settle 0))).
    rewrite E1, E2, E3, E4, E5, E6, E7, Hd1. cbn [stats world addFetched ScanStats.mode
      ScanStats.fetchedCount sumReplyCount foldr map].
    rewrite H2, H3. repeat split; try done.
    + fold (sumReplyCount ts). lia.
    + by rewrite <- app_assoc.
Qed.

Lemma sumReplyCount_take (l : list Comment.t) (n : nat) :
  Forall (fun c => unexpanded c = true) l ->
  0 <= sumReplyCount (take n l) <= sumReplyCount l.
Proof.
  intros Hl. revert n. induction Hl as [|c l Hc Hl IH]; intros [|n]; cbn; try lia.
  - fold (sumReplyCount l). specialize (IH 0%nat). rewrite take_0 in IH. cbn in IH.
    unfold unexpanded in Hc. apply andb_true_iff in Hc as [Hc _].
    apply andb_true_iff in Hc as [_ Hc]. apply Z.ltb_lt in Hc. lia.
  - fold (sumReplyCount l) (sumReplyCount (take n l)). specialize (IH n).
    unfold unexpanded in Hc. apply andb_true_iff in Hc as [Hc _].
    apply andb_true_iff in Hc as [_ Hc]. apply Z.ltb_lt in Hc. lia.
Qed.

(** X19: a deep scan that is not stopped, and whose reply requests are
    each answered by one response (a page without a next token, or a
    failure), on a table whose rows sit under their ASCII ids and with a
    counter that stays a safe integer: the threads it lists are exactly
    the rows of the video that are top-level comments with replies not
    yet fetched, each once and by strictly ascending id; it asks for the
    replies of these threads, one request each, in that order; it then
    ends with status complete, and the counter has grown by the reply
    counts of all these threads, whether or not their replies arrived,
    every value on the way being a safe integer.  On such ids the order
    of the model is the order of the keys of IndexedDB, and on safe
    integers the sums of the model are the sums of JS. *)
Theorem deep_scan_visits_each_thread_once (videoId apiKey : string) (d : State)
    (rs rest : list Response) :
  let threads := filter (fun c => unexpanded c = true)
                   (Dexie.whereVideoId videoId (comments (world d))) in
  runs d = [] -> remote (world d) = rs ++ rest ->
  Forall lastPage rs -> length rs = length threads ->
  keyed (comments (world d)) ->
  0 <= ScanStats.fetchedCount (stats d) ->
  ScanStats.fetchedCount (stats d) + sumReplyCount threads <= MAX_SAFE_INTEGER ->
  let d' := run videoId apiKey d (StartDeep :: replicate (S (length threads)) (Settle 0)) in
  (forall c, c ∈ threads <->
     comments (world d) !! Comment.id c = Some c /\ Comment.videoId c = videoId /\
     unexpanded c = true) /\
  NoDup (map Comment.id threads) /\
  StronglySorted idLt threads /\
  (forall n, 0 <= ScanStats.fetchedCount (stats d) + sumReplyCount (take n threads)
             <= MAX_SAFE_INTEGER) /\
  runs d' = [] /\
  ScanStats.status (stats d') = Status.complete /\
  ScanStats.mode (stats d') = Some Mode.deep /\
  ScanStats.fetchedCount (stats d')
    = ScanStats.fetchedCount (stats d) + sumReplyCount threads /\
  sent (world d')
    = sent (world d)
      ++ map (fun t => ServiceExtras.repliesRequest (Comment.id t) apiKey "") threads /\
  remote (world d') = rest.
Proof.
  intros threads Hruns Hr Hrs Hlen Hk H0 Hmax d'.
  destruct (listed_threads unexpanded videoId (comments (world d)) Hk) as (L1 & L2 & L3).
  split; [exact L1|]. split; [exact L2|]. split; [exact L3|]. split.
  { intros n. pose proof (sumReplyCount_take threads n (Forall_filter_true unexpanded _)). lia. }
  clear L1 L2 L3 Hk H0 Hmax. subst d'. revert Hlen. subst threads.
  remember (filter (fun c => unexpanded c = true)
              (Dexie.whereVideoId videoId (comments (world d)))) as threads eqn:Et.
  intros Hlen.
  change (replicate (S (length threads)) (Settle 0))
    with (Settle 0 :: replicate (length threads) (Settle 0)).
  unfold run. cbn [foldl]. fold (run videoId apiKey).
  assert (Hd1 : step videoId apiKey (step videoId apiKey d StartDeep) (Settle 0)
                = let '(f', d') := deepFor threads 0 (handleDeepScan d) in
                  Dashboard.mk (stats d') (cancelScanRef d')
                    (match f' with
                     | Some g => <[0%nat := g]> (runs d')
                     | None => delete 0%nat (runs d')
                     end) (world d')).
  { cbn [step]. unfold handleDeepScan at 1. rewrite Hruns. cbn [app runs lookup list_lookup].
    cbn [resume]. unfold handleDeepScan at 1. cbn [world]. by rewrite <- Et. }
  rewrite Hd1. clear Hd1. destruct threads as [|t ts].
  - destruct rs; [|done]. cbn. rewrite Hruns. cbn. repeat split; try done.
    + lia.
    + by rewrite app_nil_r.
  - unfold deepFor. unfold handleDeepScan. rewrite Hruns.
    cbn [cancelScanRef app insert list_insert runs stats world].
    set (d1 := Dashboard.mk _ _ _ _).
    destruct (deep_loop videoId apiKey ts t 0 d1 rs rest eq_refl eq_refl Hr Hrs Hlen)
      as (E1 & E2 & E3 & E4 & E5 & E6 & E7).
    cbn [length]. fold (run videoId apiKey d1 (replicate (S (length ts)) (Settle 0))).
    rewrite E1, E2, E3, E4, E5, E6. by cbn.
Qed.

Lemma deep_scan_visits_each_thread_once_witness :
  let d := initial (ServiceFacts.worldWith [mkResponse 500 None]
                      {["t1" := ServiceFacts.exampleThread]}) in
  let threads := filter (fun c => unexpanded c = true)
                   (Dexie.whereVideoId "v" (comments (world d))) in
  threads = [ServiceFacts.exampleThread] /\
  let d' := run "v" "k" d (StartDeep :: replicate (S (length threads)) (Settle 0)) in
  (forall c, c ∈ threads <->
     comments (world d) !! Comment.id c = Some c /\ Comment.videoId c = "v" /\
     unexpanded c = true) /\
  NoDup (map Comment.id threads) /\
  StronglySorted idLt threads /\
  (forall n, 0 <= ScanStats.fetchedCount (stats d) + sumReplyCount (take n threads)
             <= MAX_SAFE_INTEGER) /\
  runs d' = [] /\
  ScanStats.status (stats d') = Status.complete /\
  ScanStats.mode (stats d') = Some Mode.deep /\
  ScanStats.fetchedCount (stats d')
    = ScanStats.fetchedCount (stats d) + sumReplyCount threads /\
  sent (world d')
    = sent (world d)
      ++ map (fun t => ServiceExtras.repliesRequest (Comment.id t) "k" "") threads /\
  remote (world d') = [].
Proof.
  split; [by vm_compute|].
  apply (deep_scan_visits_each_thread_once "v" "k" _ [mkResponse 500 None] []).
  - reflexivity.
  - reflexivity.
  - constructor; [by left|constructor].
  - by vm_compute.
  - intros k c Hc.
    change (({["t1" := ServiceFacts.exampleThread]} : gmap string Comment.t) !! k = Some c) in Hc.
    apply lookup_singleton_Some in Hc as [<- <-]. by vm_compute.
  - by vm_compute.
  - by vm_compute.
Defined.

(** ** Which threads a scan expands *)

(** The threads that a suspended scan still has to expand passed the
    filter of its mode when they were listed. *)
Definition frameOk (f : Frame) : Prop :=
  match f with
  | SmartReplies thread rest _ _ => Forall (fun c => promising c = true) (thread :: rest)
  | DeepReplies t rest _ => Forall (fun c => unexpanded c = true) (t :: rest)
  | _ => True
  end.

Lemma smartWhile_frame tok n d g d' : smartWhile tok n d = (Some g, d') -> frameOk g.
Proof.
  unfold smartWhile, finish. destruct tok; [destruct (cancelScanRef d)|]; intros [= <- <-]; done.
Qed.

Lemma smartFor_frame ts tok n d g d' :
  Forall (fun c => promising c = true) ts -> smartFor ts tok n d = (Some g, d') -> frameOk g.
Proof.
  unfold smartFor. destruct ts as [|t rest]; [intros _; apply smartWhile_frame|].
  destruct (cancelScanRef d); [intros _; apply smartWhile_frame|].
  by intros H [= <- <-].
Qed.

Lemma deepFor_frame ts n d g d' :
  Forall (fun c => unexpanded c = true) ts -> deepFor ts n d = (Some g, d') -> frameOk g.
Proof.
  unfold deepFor, finish. destruct ts as [|t rest]; [by intros _ [= ]|].
  destruct (cancelScanRef d); [by intros _ [= ]|]. by intros H [= <- <-].
Qed.

Lemma resume_frame videoId apiKey f d g d' :
  frameOk f -> resume videoId apiKey f d = (Some g, d') -> frameOk g.
Proof.
  intros Hf. destruct f as [| |tok n|tok n|th rest tok n| |t rest n]; cbn [resume].
  - destruct (videos (world d) !! videoId); [apply smartWhile_frame|by intros [= <- <-]].
  - destruct (YoutubeService.fetchVideoDetails videoId apiKey (world d)) as [[v|e] w];
      [apply smartWhile_frame|done].
  - destruct (YoutubeService.fetchCommentThreads videoId apiKey tok (world d))
      as [[[next count]|e] w]; [by intros [= <- <-]|done].
  - apply smartFor_frame, Forall_filter_true.
  - destruct (YoutubeService.fetchReplies (Comment.id th) videoId apiKey (world d)) as [[v|e] w];
      [|done].
    apply smartFor_frame. by apply Forall_cons in Hf as [_ ?].
  - apply deepFor_frame, Forall_filter_true.
  - destruct (YoutubeService.fetchReplies (Comment.id t) videoId apiKey (world d)) as [[v|e] w];
      [|done].
    apply deepFor_frame. by apply Forall_cons in Hf as [_ ?].
Qed.

Lemma smartWhile_runs tok n d : runs (snd (smartWhile tok n d)) = runs d.
Proof. unfold smartWhile, finish. by destruct tok; [destruct (cancelScanRef d)|]. Qed.

Lemma smartFor_runs ts tok n d : runs (snd (smartFor ts tok n d)) = runs d.
Proof.
  unfold smartFor. destruct ts; [apply smartWhile_runs|].
  destruct (cancelScanRef d); [apply smartWhile_runs|done].
Qed.

Lemma deepFor_runs ts n d : runs (snd (deepFor ts n d)) = runs d.
Proof. unfold deepFor, finish. destruct ts; [done|]. by destruct (cancelScanRef d). Qed.

Lemma resume_runs videoId apiKey f d : runs (snd (resume videoId apiKey f d)) = runs d.
Proof.
  destruct f as [| |tok n|tok n|th rest tok n| |t rest n]; cbn [resume].
  - destruct (videos (world d) !! videoId); [apply smartWhile_runs|done].
  - destruct (YoutubeService.fetchVideoDetails videoId apiKey (world d)) as [[v|e] w];
      [by rewrite smartWhile_runs|done].
  - by destruct (YoutubeService.fetchCommentThreads videoId apiKey tok (world d))
      as [[[next count]|e] w].
  - apply smartFor_runs.
  - destruct (YoutubeService.fetchReplies (Comment.id th) videoId apiKey (world d)) as [[v|e] w];
      [by rewrite smartFor_runs|done].
  - apply deepFor_runs.
  - destruct (YoutubeService.fetchReplies (Comment.id t) videoId apiKey (world d)) as [[v|e] w];
      [by rewrite deepFor_runs|done].
Qed.

Lemma step_frames videoId apiKey d e :
  Forall frameOk (runs d) -> Forall frameOk (runs (step videoId apiKey d e)).
Proof.
  intros H. destruct e as [| | |k]; cbn [step].
  - cbn. apply Forall_app. split; [done|]. by repeat constructor.
  - cbn. apply Forall_app. split; [done|]. by repeat constructor.
  - done.
  - destruct (runs d !! k) as [f|] eqn:Ek; [|done].
    pose proof (resume_runs videoId apiKey f d) as Hr.
    destruct (resume videoId apiKey f d) as [[g|] d'] eqn:Er; cbn [runs snd] in *; rewrite Hr.
    + apply Forall_insert; [done|]. eapply (resume_frame videoId apiKey f d g d'); [|done].
      rewrite Forall_forall in H. apply H. by eapply list_elem_of_lookup_2.
    + by apply Forall_delete.
Qed.

(** X29: whatever the user clicks and whenever the calls settle, the
    threads for which a smart scan asks for replies all passed its
    filter when they were listed: top-level, with replies that are not
    yet fetched, and with a score above 10; those of a deep scan are
    top-level with replies not yet fetched. *)
Theorem scans_expand_only_selected_threads (videoId apiKey : string) (w : World)
    (es : list Event) (k : nat) (f : Frame) :
  runs (run videoId apiKey (initial w) es) !! k = Some f ->
  match f with
  | SmartReplies thread rest _ _ =>
      Forall (fun c => noParent c = true /\ Comment.repliesFetched c = false /\
                       0 < Comment.replyCount c /\ 10 < Comment.score c) (thread :: rest)
  | DeepReplies t rest _ =>
      Forall (fun c => noParent c = true /\ Comment.repliesFetched c = false /\
                       0 < Comment.replyCount c) (t :: rest)
  | _ => True
  end.
Proof.
  assert (Hall : forall d, Forall frameOk (runs d) ->
                   Forall frameOk (runs (run videoId apiKey d es))).
  { unfold run. induction es as [|e es' IH]; intros d Hd; [done|].
    cbn [foldl]. apply IH. by apply step_frames. }
  intros Hk. specialize (Hall (initial w) ltac:(constructor)).
  rewrite Forall_forall in Hall. specialize (Hall f (list_elem_of_lookup_2 _ _ _ Hk)).
  destruct f as [| |tok n|tok n|th rest tok n| |t rest n]; try done; cbn [frameOk] in Hall.
  - eapply Forall_impl; [exact Hall|]. intros c Hc. unfold promising in Hc.
    rewrite !andb_true_iff, negb_true_iff, !Z.ltb_lt in Hc. tauto.
  - eapply Forall_impl; [exact Hall|]. intros c Hc. unfold unexpanded in Hc.
    rewrite !andb_true_iff, negb_true_iff, !Z.ltb_lt in Hc. tauto.
Qed.

Definition storedMeta : VideoMetadata.t :=
  VideoMetadata.mk "v" "title" "thumb" 5 0 VideoMetadata.idle.

Lemma scans_expand_only_selected_threads_witness :
  let w := mkWorld [mkResponse 200 (Some (mkBody (Some (Threads [])) None))] []
             {["t1" := ServiceFacts.exampleThread]} {["v" := storedMeta]} 0 in
  let d := run "v" "k" (initial w) [StartSmart; Settle 0; Settle 0; Settle 0] in
  runs d !! 0%nat = Some (SmartReplies ServiceFacts.exampleThread [] None 0) /\
  Forall (fun c => noParent c = true /\ Comment.repliesFetched c = false /\
                   0 < Comment.replyCount c /\ 10 < Comment.score c)
    [ServiceFacts.exampleThread].
Proof.
  split; [by vm_compute|].
  apply (scans_expand_only_selected_threads "v" "k"
           (mkWorld [mkResponse 200 (Some (mkBody (Some (Threads [])) None))] []
              {["t1" := ServiceFacts.exampleThread]} {["v" := storedMeta]} 0)
           [StartSmart; Settle 0; Settle 0; Settle 0] 0
           (SmartReplies ServiceFacts.exampleThread [] None 0)).
  by vm_compute.
Defined.

(** ** A smart scan of a video with one thread page *)





End DashboardExtras.



(* ===================================================================== *)
(** * The key format and the redaction of error messages *)
(* ===================================================================== *)
Module ApiKeyFacts.
Import ApiKey.

Lemma Lang_Times_CharSet (A : N -> bool) (n : nat) : forall s,
  Lang (Times n (CharSet A)) s <-> length s = n /\ Forall (fun ch => A ch = true) s.
Proof.
  induction n as [|n IH]; intros s; simpl.
  - split.
    + intros H. apply RegExpFacts.Lang_Empty_inv in H. by subst.
    + intros [H _]. apply nil_length_inv in H. subst. constructor.
  - split.
    + intros H. apply RegExpFacts.Lang_Seq_inv in H as (s1 & s2 & -> & H1 & H2).
      apply RegExpFacts.Lang_CharSet_inv in H1 as (ch & -> & Hch).
      apply IH in H2 as [Hl Hf]. simpl. split; [by rewrite Hl|]. by constructor.
    + intros [Hl Hf]. destruct s as [|ch s]; [done|]. apply Forall_cons in Hf as [Hch Hf].
      change (ch :: s) with ([ch] ++ s). constructor; [by constructor|].
      apply IH. split; [|done]. simpl in Hl. lia.
Qed.

(** The shape of an API key: [AIza] and 35 code units of the class. *)
Definition keyShaped (k : jsstring) : Prop :=
  exists body, k = lit "AIza" ++ body /\ length body = 35%nat /\
               Forall (fun ch => keyChar ch = true) body.

Lemma Lang_KEY (s : jsstring) : Lang KEY_pattern s <-> keyShaped s.
Proof.
  unfold KEY_pattern, keyShaped. split.
  - intros H. apply RegExpFacts.Lang_Seq_inv in H as (s1 & s2 & -> & H1 & H2).
    apply RegExpFacts.Lang_Word in H1. apply Lang_Times_CharSet in H2 as [Hl Hf].
    exists s2. split; [|done]. f_equal.
    assert (Hid : forall l : jsstring, map (Canonicalize false) l = l).
    { intros l. induction l as [|a l IHl]; [done|]. simpl. by rewrite IHl. }
    by rewrite !Hid in H1.
  - intros (body & -> & Hl & Hf). constructor.
    + by apply RegExpFacts.Lang_Word.
    + by apply Lang_Times_CharSet.
Qed.

Lemma keyShaped_length k : keyShaped k -> length k = 39%nat.
Proof. intros (body & -> & Hl & _). rewrite length_app, Hl. reflexivity. Qed.

Lemma scanWith_anchored_later (key : jsstring) r n fuel : forall i,
  (1 <= i)%nat -> scanWith (anchored key r) n fuel i = None.
Proof.
  induction fuel as [|fuel IH]; intros i Hi; simpl; unfold anchored, AssertStart; simpl;
    destruct i as [|i]; try lia; simpl; [done|]. apply IH. lia.
Qed.

Lemma scanWith_anchored (key : jsstring) r n :
  scanWith (anchored key r) n (length key) 0
  = match compile key r (mkState 0 (replicate n None)) (fun z => AssertEnd key z Some) with
    | Some z => Some (0%nat, z)
    | None => None
    end.
Proof.
  destruct (length key) as [|m]; cbn [scanWith]; unfold anchored at 1, AssertStart;
    cbn [endIndex Nat.eqb]; destruct (compile key r _ _); try done.
  apply scanWith_anchored_later. lia.
Qed.

Lemma isValidApiKeyFormat_sound (key : jsstring) :
  isValidApiKeyFormat key = true -> keyShaped key.
Proof.
  unfold isValidApiKeyFormat. rewrite scanWith_anchored. cbn [replicate].
  destruct (compile key KEY_pattern _ _) as [z|] eqn:Ec; [intros _|done].
  destruct (RegExpFacts.compile_sound key KEY_pattern (mkState 0 []) _ _
              (Nat.le_0_l _) Ec) as (y & _ & Hy & _ & HL & Hend).
  unfold AssertEnd in Hend. destruct (Nat.eqb_spec (endIndex y) (length key)) as [Ey|]; [|done].
  cbn [endIndex] in HL. rewrite Ey in HL. apply Lang_KEY.
  unfold slice in HL. by rewrite Nat.sub_0_r, drop_0, firstn_all in HL.
Qed.

(** X22: the format check accepts exactly the strings of 39 code units
    that begin with AIza and go on with 35 ASCII letters, digits,
    underscores or hyphens; nothing may come before or after. *)
Theorem isValidApiKeyFormat_spec (key : jsstring) :
  isValidApiKeyFormat key = true <->
  exists body, key = lit "AIza" ++ body /\ length body = 35%nat /\
               Forall (fun ch => keyChar ch = true) body.
Proof.
  split; [apply isValidApiKeyFormat_sound|].
  intros Hk. apply Lang_KEY in Hk.
  unfold isValidApiKeyFormat. rewrite scanWith_anchored. cbn [replicate].
  assert (Hc : compile key KEY_pattern (mkState 0 []) (fun z => AssertEnd key z Some) <> None).
  { apply (RegExpFacts.compile_complete key KEY_pattern key (mkState 0 []) _ [] Hk).
    - cbn [endIndex]. by rewrite drop_0, app_nil_r.
    - intros caps. unfold AssertEnd. cbn [endIndex]. by rewrite Nat.eqb_refl. }
  by destruct (compile key KEY_pattern _ _).
Qed.

(** ** What sanitizeError leaves of a key *)

(** The string has a part of the shape of a key. *)
Definition containsKey (s : jsstring) : Prop :=
  exists pre k post, s = pre ++ k ++ post /\ keyShaped k.

Lemma keyShaped_chars k : keyShaped k -> Forall (fun ch => keyChar ch = true) k.
Proof.
  intros (body & -> & _ & Hb). apply Forall_app. split; [|done].
  repeat (constructor; [by vm_compute|]). constructor.
Qed.

Lemma containsKey_length s : containsKey s -> (39 <= length s)%nat.
Proof.
  intros (pre & k & post & -> & Hk). rewrite !length_app, (keyShaped_length k Hk). lia.
Qed.

Lemma containsKey_app_l a b : containsKey a -> containsKey (a ++ b).
Proof.
  intros (pre & k & post & -> & Hk). exists pre, k, (post ++ b). by rewrite <- !app_assoc.
Qed.

Lemma containsKey_app_r a b : containsKey b -> containsKey (a ++ b).
Proof.
  intros (pre & k & post & -> & Hk). exists (a ++ pre), k, post. by rewrite <- !app_assoc.
Qed.

Lemma containsKey_take n s : containsKey (take n s) -> containsKey s.
Proof. intros H. rewrite <- (take_drop n s). by apply containsKey_app_l. Qed.

Lemma containsKey_drop n s : containsKey (drop n s) -> containsKey s.
Proof. intros H. rewrite <- (take_drop n s). by apply containsKey_app_r. Qed.

Lemma containsKey_slice s i j : containsKey (slice s i j) -> containsKey s.
Proof. unfold slice. intros H. by eapply containsKey_drop, containsKey_take. Qed.

(** A code unit outside the class cuts every key. *)
Lemma containsKey_sep a sep b :
  keyChar sep = false -> containsKey (a ++ sep :: b) -> containsKey a \/ containsKey b.
Proof.
  intros Hsep (pre & k & post & E & Hk).
  pose proof (keyShaped_chars k Hk) as Hc. pose proof (keyShaped_length k Hk) as Hl.
  apply app_eq_inv in E as [(m & -> & E)|(m & -> & E)].
  - symmetry in E. apply app_eq_inv in E as [(m' & -> & E)|(m' & Ek & E)].
    + left. by exists pre, k, m'.
    + destruct m' as [|x m'].
      * rewrite app_nil_r in Ek. subst m. left. exists pre, k, []. by rewrite app_nil_r.
      * simpl in E. inversion E; subst. apply Forall_app in Hc as [_ Hc].
        apply Forall_cons in Hc as [Hx _]. congruence.
  - destruct m as [|x m].
    + simpl in E. destruct k as [|x k]; [done|]. simpl in E. inversion E; subst.
      apply Forall_cons in Hc as [Hx _]. congruence.
    + simpl in E. inversion E; subst. right. by exists m, k, post.
Qed.

(** A replacement in brackets joins no key. *)
Lemma noKey_bracketed a mid b :
  ~ containsKey a -> (length mid < 39)%nat -> ~ containsKey b ->
  ~ containsKey (a ++ (cu "[" :: mid ++ [cu "]"]) ++ b).
Proof.
  intros Ha Hmid Hb H. cbn [app] in H.
  apply (containsKey_sep a (cu "[") _ eq_refl) in H as [H|H]; [done|].
  rewrite <- app_assoc in H. cbn [app] in H.
  apply (containsKey_sep mid (cu "]") b eq_refl) in H as [H|H]; [|done].
  apply containsKey_length in H. lia.
Qed.

(** ** The matches that a global replace collects *)

(** The spans are the leftmost matches, one after the other: no match
    starts between [from] and the first span, and so on, and none after
    the last. *)
Fixpoint leftmost (str : jsstring) (r : regex) (n : nat) (from : nat)
    (results : list (nat * nat)) : Prop :=
  match results with
  | [] => forall k, (from <= k)%nat -> (k <= length str)%nat -> matchAt str r n k = None
  | (i, e) :: rest =>
      (from <= i)%nat /\ (i <= e)%nat /\ (e <= length str)%nat /\
      Lang r (slice str i e) /\
      (forall k, (from <= k)%nat -> (k < i)%nat -> matchAt str r n k = None) /\
      leftmost str r n (if (e =? i)%nat then S e else e) rest
  end.

Lemma execAll_leftmost (str : jsstring) (fuel : nat) : forall R,
  global R = true -> sticky R = false ->
  (length str + 2 <= fuel + lastIndex R)%nat ->
  leftmost str (pattern R) (nGroups R) (lastIndex R) (fst (execAll fuel R str)).
Proof.
  induction fuel as [|fuel IH]; intros R Hg Hs Hf.
  - cbn [execAll fst leftmost]. intros k H1 H2. lia.
  - cbn [execAll]. unfold RegExpBuiltinExec. rewrite Hg, Hs. cbn [orb].
    destruct (Nat.ltb_spec (length str) (lastIndex R)) as [Hlt|Hge].
    { cbn [fst leftmost]. intros k H1 H2. lia. }
    destruct (scanFrom str (pattern R) (nGroups R) (length str - lastIndex R) (lastIndex R))
      as [[i z]|] eqn:Es.
    + apply RegExpFacts.scanFrom_Some in Es as (H1 & H2 & Hm & Hnone).
      unfold matchAt in Hm.
      assert (Hi : (i <= length str)%nat) by lia.
      destruct (RegExpFacts.compile_sound str (pattern R)
                  (mkState i (replicate (nGroups R) None)) Some z Hi Hm)
        as (y & Hy1 & Hy2 & _ & HL & Hy). inversion Hy; subst y. cbn [endIndex] in Hy1, HL.
      set (R'' := if (endIndex z =? i)%nat
                  then setLastIndex (setLastIndex R (endIndex z))
                         (S (lastIndex (setLastIndex R (endIndex z))))
                  else setLastIndex R (endIndex z)).
      assert (HR : global R'' = true /\ sticky R'' = false /\ pattern R'' = pattern R /\
                   nGroups R'' = nGroups R /\
                   lastIndex R'' = (if (endIndex z =? i)%nat then S (endIndex z) else endIndex z)).
      { unfold R''. by destruct (endIndex z =? i)%nat. }
      destruct HR as (Hg' & Hs' & Hp' & Hn' & Hl').
      specialize (IH R'' Hg' Hs').
      destruct (execAll fuel R'' str) as [results Rf] eqn:Ee. cbn [fst leftmost].
      split; [done|]. split; [done|]. split; [done|]. split; [done|]. split; [done|].
      rewrite Hp', Hn', Hl' in IH. apply IH.
      destruct (Nat.eqb_spec (endIndex z) i); lia.
    + cbn [fst leftmost]. intros k H1 H2.
      apply (proj1 (RegExpFacts.scanFrom_None str _ _ _ _) Es k H1). lia.
Qed.

Lemma key_matches (str pre k post : jsstring) :
  str = pre ++ k ++ post -> keyShaped k ->
  matchAt str KEY_pattern 0 (length pre) <> None.
Proof.
  intros -> Hk. unfold matchAt.
  apply (RegExpFacts.compile_complete _ KEY_pattern k _ _ post).
  - by apply Lang_KEY.
  - cbn [endIndex]. by rewrite drop_app_length.
  - intros caps. done.
Qed.

Lemma substitute_leftmost_noKey (str mid : jsstring) (results : list (nat * nat)) :
  (length mid < 39)%nat ->
  forall from, (from <= length str)%nat ->
  leftmost str KEY_pattern 0 from results ->
  ~ containsKey (substitute str (cu "[" :: mid ++ [cu "]"]) from results).
Proof.
  intros Hmid. induction results as [|[i e] rest IH]; intros from Hfrom Hl.
  - cbn [substitute leftmost] in *. intros (pre & k & post & E & Hk).
    assert (Hs : str = (take from str ++ pre) ++ k ++ post)
      by (rewrite <- app_assoc, <- E; by rewrite take_drop).
    apply (key_matches str _ k post Hs Hk). apply Hl.
    + rewrite length_app, length_take. lia.
    + rewrite Hs at 2. rewrite !length_app. lia.
  - destruct Hl as (H1 & H2 & H3 & HL & Hnone & Hrest). cbn [substitute].
    destruct (Nat.leb_spec from i); [|lia].
    apply Lang_KEY, keyShaped_length in HL.
    rewrite RegExpFacts.length_slice in HL by lia.
    destruct (Nat.eqb_spec e i); [lia|].
    apply noKey_bracketed; [|done|by apply IH].
    intros (pre & k & post & E & Hk).
    assert (Hlen : (length pre + 39 + length post = i - from)%nat).
    { rewrite <- (RegExpFacts.length_slice str from i) by lia.
      rewrite E, !length_app, (keyShaped_length k Hk). lia. }
    assert (Hs : str = (take from str ++ pre) ++ k ++ (post ++ drop i str)).
    { rewrite (RegExpFacts.slice_split str from i) at 1 by lia.
      rewrite E. by rewrite <- !app_assoc. }
    apply (key_matches str _ k _ Hs Hk). apply Hnone.
    + rewrite length_app, length_take. lia.
    + rewrite length_app, length_take. lia.
Qed.

Lemma substitute_pieces_noKey (str mid : jsstring) (results : list (nat * nat)) :
  (length mid < 39)%nat -> ~ containsKey str ->
  forall next, ~ containsKey (substitute str (cu "[" :: mid ++ [cu "]"]) next results).
Proof.
  intros Hmid Hstr. induction results as [|[i e] rest IH]; intros next; cbn [substitute].
  - intros H. by apply Hstr, (containsKey_drop next).
  - destruct (next <=? i)%nat; [|apply IH].
    apply noKey_bracketed; [|done|apply IH].
    intros H. by apply Hstr, (containsKey_slice str next i).
Qed.

Lemma replace_KEY_noKey (str : jsstring) :
  ~ containsKey (replace str (mkRegExp KEY_pattern 0 true false 0) (lit "[REDACTED_KEY]")).
Proof.
  unfold replace.
  change (lit "[REDACTED_KEY]") with (cu "[" :: lit "REDACTED_KEY" ++ [cu "]"]).
  apply substitute_leftmost_noKey; [vm_compute; lia|lia|].
  apply (execAll_leftmost str (length str + 2)
           (setLastIndex (mkRegExp KEY_pattern 0 true false 0) 0)); [done|done|].
  cbn [lastIndex setLastIndex]. lia.
Qed.

Lemma sanitizeError_noKey (error : jsstring) : ~ containsKey (sanitizeError error).
Proof.
  unfold sanitizeError.
  change (lit "[FILE]") with (cu "[" :: lit "FILE" ++ [cu "]"]).
  apply substitute_pieces_noKey; [vm_compute; lia|].
  unfold replace at 1.
  change (lit "[URL_REDACTED]") with (cu "[" :: lit "URL_REDACTED" ++ [cu "]"]).
  apply substitute_pieces_noKey; [vm_compute; lia|].
  apply replace_KEY_noKey.
Qed.

(** X23: whatever the message, what sanitizeError returns has no part
    of the shape of an API key: no substring of it passes the format
    check. *)
Theorem sanitizeError_redacts_keys (error : jsstring) :
  ~ containsKey (sanitizeError error) /\
  forall i j, isValidApiKeyFormat (slice (sanitizeError error) i j) = false.
Proof.
  pose proof (sanitizeError_noKey error) as H.
  split; [exact H|]. intros i j.
  destruct (isValidApiKeyFormat _) eqn:E; [|done].
  exfalso. apply H, (containsKey_slice _ i j).
  apply isValidApiKeyFormat_sound in E.
  exists [], (slice (sanitizeError error) i j), []. by rewrite app_nil_r.
Qed.

(** ** Messages that sanitizeError leaves alone *)

Lemma replace_no_match (str : jsstring) (R : RegExpObj) (replacement : jsstring) :
  global R = true -> sticky R = false -> ~ RegExpFacts.contains (pattern R) str ->
  replace str R replacement = str.
Proof.
  intros Hg Hs Hn. unfold replace.
  replace (length str + 2)%nat with (S (length str + 1)) by lia.
  cbn [execAll]. unfold RegExpBuiltinExec.
  cbn [global sticky setLastIndex lastIndex pattern nGroups]. rewrite Hg, Hs. cbn [orb].
  change (length str <? 0)%nat with false. cbv iota. rewrite Nat.sub_0_r.
  destruct (scanFrom str (pattern R) (nGroups R) (length str) 0) as [[i z]|] eqn:Es.
  - exfalso. apply Hn. apply (RegExpFacts.scanFrom_contains str (pattern R) (nGroups R)).
    by rewrite Es.
  - reflexivity.
Qed.

Lemma Word_plain (w s : jsstring) : Lang (Word false w) s -> s = w.
Proof.
  intros H. apply RegExpFacts.Lang_Word in H.
  assert (Hid : forall l : jsstring, map (Canonicalize false) l = l).
  { intros l. induction l as [|a l IHl]; [done|]. simpl. by rewrite IHl. }
  by rewrite !Hid in H.
Qed.

Lemma Lang_URL_slash s : Lang URL_pattern s -> cu "/" ∈ s.
Proof.
  unfold URL_pattern. intros H.
  apply RegExpFacts.Lang_Seq_inv in H as (s1 & s2 & -> & _ & H).
  apply RegExpFacts.Lang_Seq_inv in H as (s3 & s4 & -> & _ & H).
  apply RegExpFacts.Lang_Seq_inv in H as (s5 & s6 & -> & H & _).
  apply Word_plain in H. subst s5.
  rewrite !elem_of_app. right. right. left.
  apply (bool_decide_unpack (cu "/" ∈ lit "://")). by vm_compute.
Qed.

Lemma Lang_FILE_slash s : Lang FILE_pattern s -> cu "/" ∈ s.
Proof.
  unfold FILE_pattern. intros H.
  apply RegExpFacts.Lang_Seq_inv in H as (s1 & s2 & -> & H & _).
  apply RegExpFacts.Lang_CharSet_inv in H as (ch & -> & Hch).
  apply N.eqb_eq in Hch. cbn [Canonicalize andb] in Hch. subst ch.
  apply elem_of_app. left. apply list_elem_of_here.
Qed.

(** X24: a message without a slash and without AIza in it is returned
    as it is. *)
Theorem sanitizeError_plain (error : jsstring) :
  (forall pre post, error <> pre ++ lit "AIza" ++ post) -> cu "/" ∉ error ->
  sanitizeError error = error.
Proof.
  intros Hk Hs. unfold sanitizeError.
  rewrite (replace_no_match error (mkRegExp KEY_pattern 0 true false 0)); [|done|done|].
  - rewrite (replace_no_match error (mkRegExp URL_pattern 0 true false 0)); [|done|done|].
    + apply replace_no_match; [done|done|].
      intros (pre & s & post & E & HL). apply Hs. rewrite E, !elem_of_app.
      right. left. by apply Lang_FILE_slash.
    + intros (pre & s & post & E & HL). apply Hs. rewrite E, !elem_of_app.
      right. left. by apply Lang_URL_slash.
  - intros (pre & s & post & E & HL). cbn [pattern] in HL.
    apply Lang_KEY in HL as (body & -> & _). apply (Hk pre (body ++ post)).
    by rewrite E, <- !app_assoc.
Qed.

Lemma sanitizeError_plain_witness :
  sanitizeError (lit "Quota exceeded") = lit "Quota exceeded".
Proof.
  apply (sanitizeError_plain (lit "Quota exceeded")).
  - intros pre post E.
    assert (H : cu "A" ∈ lit "Quota exceeded").
    { rewrite E, !elem_of_app. right. left.
      apply (bool_decide_unpack (cu "A" ∈ lit "AIza")). by vm_compute. }
    revert H. apply (bool_decide_unpack (cu "A" ∉ lit "Quota exceeded")). by vm_compute.
  - apply (bool_decide_unpack (cu "/" ∉ lit "Quota exceeded")). by vm_compute.
Defined.

(** ** validateApiKey *)

Import ValidateKey.

Lemma keyShaped_z k : keyShaped k -> cu "z" ∈ k.
Proof.
  intros (body & -> & _). apply elem_of_app. left.
  apply (bool_decide_unpack (cu "z" ∈ lit "AIza")). by vm_compute.
Qed.

Lemma containsKey_z s : containsKey s -> cu "z" ∈ s.
Proof.
  intros (pre & k & post & -> & Hk). rewrite !elem_of_app. right. left. by apply keyShaped_z.
Qed.

Lemma uint_no_z (d : Decimal.uint) : cu "z" ∉ lit (NilEmpty.string_of_uint d).
Proof.
  induction d; cbn [NilEmpty.string_of_uint lit list_ascii_of_string map];
    try (apply not_elem_of_cons; split; [by vm_compute|done]).
  apply not_elem_of_nil.
Qed.

Lemma decimal_no_z (n : Z) : cu "z" ∉ decimal n.
Proof.
  assert (H0 : cu "z" ∉ lit "0")
    by (apply (bool_decide_unpack (cu "z" ∉ lit "0")); by vm_compute).
  unfold decimal, NilZero.string_of_int.
  destruct (Z.to_int n) as [d|d]; unfold NilZero.string_of_uint.
  - destruct d; try apply uint_no_z. exact H0.
  - cbn [lit list_ascii_of_string map]. apply not_elem_of_cons. split; [by vm_compute|].
    destruct d; try apply uint_no_z. exact H0.
Qed.

(** A check that finds every key: no 39 code units in a row are all of
    the class. *)
Definition keyFree (s : jsstring) : bool :=
  forallb (fun p => negb (forallb keyChar (slice s p (p + 39))
                          && (length (slice s p (p + 39)) =? 39)%nat))
          (seq 0 (length s)).

Lemma keyFree_sound s : keyFree s = true -> ~ containsKey s.
Proof.
  intros H (pre & k & post & -> & Hk). unfold keyFree in H.
  rewrite forallb_forall in H. specialize (H (length pre)).
  assert (Hs : slice (pre ++ k ++ post) (length pre) (length pre + 39) = k).
  { unfold slice. rewrite drop_app_length.
    replace (length pre + 39 - length pre)%nat with (length k)
      by (rewrite (keyShaped_length k Hk); lia).
    by rewrite take_app_length. }
  rewrite Hs, (keyShaped_length k Hk) in H.
  assert (Hall : forallb keyChar k = true).
  { apply forallb_forall. intros ch Hch. apply list_elem_of_In in Hch.
    pose proof (keyShaped_chars k Hk) as Hc. rewrite Forall_forall in Hc. by apply Hc. }
  rewrite Hall in H. cbn in H. 
  assert (Hin : In (length pre) (seq 0 (length (pre ++ k ++ post)))).
  { apply in_seq. rewrite !length_app, (keyShaped_length k Hk). lia. }
  specialize (H Hin). done.
Qed.

(** X25: validateApiKey sends nothing when the key does not have the
    format of a key, and one request otherwise; the key counts as valid
    exactly when it has the format and the response is ok; and no error
    message that it returns has a part of the shape of a key, whatever
    the remote side answers. *)
Theorem validateApiKey_spec (apiKey : jsstring) (remote : jsstring -> FetchOutcome) :
  let '(v, sent) := validateApiKey apiKey remote in
  (isValidApiKeyFormat apiKey = false -> sent = [] /\ v = mkValidation false (Some formatError)) /\
  (isValidApiKeyFormat apiKey = true -> sent = [validationUrl apiKey]) /\
  (isValid v = true <->
     isValidApiKeyFormat apiKey = true /\
     exists status msg, remote (validationUrl apiKey) = Responds status msg /\
                        200 <= status <= 299) /\
  (isValid v = true -> error v = None) /\
  (forall m, error v = Some m -> ~ containsKey m).
Proof.
  unfold validateApiKey. destruct (isValidApiKeyFormat apiKey) eqn:Ef; cbn [negb].
  - split; [done|]. split; [done|].
    destruct (remote (validationUrl apiKey)) as [message|status msg] eqn:Er.
    + cbn [isValid error]. split; [|split; [done|]].
      * split; [done|]. by intros (_ & status & msg & ? & _).
      * intros m [= <-]. apply sanitizeError_noKey.
    + destruct ((200 <=? status) && (status <=? 299)) eqn:Eok; cbn [isValid error].
      * apply andb_true_iff in Eok as [H1 H2]. apply Z.leb_le in H1, H2.
        split; [|done]. split; [|done]. intros _. split; [done|]. by exists status, msg.
      * split; [|split; [done|]].
        -- split; [done|]. intros (_ & status' & msg' & [= <- <-] & H1 & H2).
           apply andb_false_iff in Eok as [H|H]; apply Z.leb_gt in H; lia.
        -- intros m Hm. destruct (truthy msg); [injection Hm as <-; apply sanitizeError_noKey|].
           assert (E : m = lit "API Error " ++ decimal status) by congruence.
           rewrite E. clear E Hm.
           intros H. apply containsKey_z, elem_of_app in H as [H|H].
           ++ revert H. apply (bool_decide_unpack (cu "z" ∉ lit "API Error ")). by vm_compute.
           ++ by apply decimal_no_z in H.
  - cbn [isValid error]. split; [done|]. split; [done|]. split; [|split; [done|]].
    + split; [done|]. by intros [? _].
    + intros m [= <-]. apply keyFree_sound. by vm_compute.
Qed.

End ApiKeyFacts.

(* ===================================================================== *)
(** * Video ids: extractVideoId and isYouTubeShort *)
(* ===================================================================== *)
Module VideoIdFacts.
Import ApiKey ApiKeyFacts VideoId.

Lemma anchored_test_iff (Input : jsstring) (r : regex) (n : nat) :
  scanWith (anchored Input r) n (length Input) 0 <> None <-> Lang r Input.
Proof.
  rewrite scanWith_anchored. split.
  - destruct (compile Input r _ _) as [z|] eqn:Ec; [intros _|done].
    destruct (RegExpFacts.compile_sound Input r (mkState 0 (replicate n None)) _ _
                (Nat.le_0_l _) Ec) as (y & _ & Hy & _ & HL & Hend).
    unfold AssertEnd in Hend.
    destruct (Nat.eqb_spec (endIndex y) (length Input)) as [Ey|]; [|done].
    cbn [endIndex] in HL. rewrite Ey in HL.
    unfold slice in HL. by rewrite Nat.sub_0_r, drop_0, firstn_all in HL.
  - intros HL.
    assert (Hc : compile Input r (mkState 0 (replicate n None))
                   (fun z => AssertEnd Input z Some) <> None).
    { apply (RegExpFacts.compile_complete Input r Input (mkState 0 _) _ [] HL).
      - cbn [endIndex]. by rewrite drop_0, app_nil_r.
      - intros caps. unfold AssertEnd. cbn [endIndex]. by rewrite Nat.eqb_refl. }
    by destruct (compile Input r _ _).
Qed.

(** A raw video id: 11 code units of the class. *)
Definition rawId (s : jsstring) : Prop :=
  length s = 11%nat /\ Forall (fun ch => keyChar ch = true) s.

Lemma Lang_ID s : Lang ID_pattern s <-> rawId s.
Proof. apply Lang_Times_CharSet. Qed.

(** ** trim *)

Lemma trimStart_ws (ws s : jsstring) :
  Forall (fun ch => isWhiteSpace ch = true) ws -> trimStart (ws ++ s) = trimStart s.
Proof.
  induction ws as [|ch ws IH]; intros H; [done|].
  apply Forall_cons in H as [Hch H]. cbn [app trimStart]. rewrite Hch. by apply IH.
Qed.

Lemma trimStart_split (s : jsstring) :
  exists ws, s = ws ++ trimStart s /\ Forall (fun ch => isWhiteSpace ch = true) ws.
Proof.
  induction s as [|ch s (ws & E & H)]; [by exists []|]. cbn [trimStart].
  destruct (isWhiteSpace ch) eqn:Ech.
  - exists (ch :: ws). split; [cbn [app]; by rewrite <- E|]. by constructor.
  - by exists [].
Qed.

(** What trim returns is the text without white space at its ends. *)
Lemma trim_split (s : jsstring) :
  exists ws1 ws2, s = ws1 ++ trim s ++ ws2 /\
    Forall (fun ch => isWhiteSpace ch = true) ws1 /\
    Forall (fun ch => isWhiteSpace ch = true) ws2.
Proof.
  destruct (trimStart_split s) as (ws1 & E1 & H1).
  destruct (trimStart_split (reverse (trimStart s))) as (ws2 & E2 & H2).
  exists ws1, (reverse ws2). split; [|split; [done|]].
  - rewrite E1 at 1. f_equal. unfold trim. rewrite <- reverse_app, <- E2.
    by rewrite reverse_involutive.
  - apply Forall_reverse. done.
Qed.

Lemma trim_core (ws1 core ws2 : jsstring) (a b : N) (mid : jsstring) :
  Forall (fun ch => isWhiteSpace ch = true) ws1 ->
  Forall (fun ch => isWhiteSpace ch = true) ws2 ->
  core = a :: mid -> isWhiteSpace a = false ->
  last core = Some b -> isWhiteSpace b = false ->
  trim (ws1 ++ core ++ ws2) = core.
Proof.
  intros H1 H2 Ea Ha Eb Hb. unfold trim. rewrite trimStart_ws by done.
  rewrite Ea. cbn [app trimStart]. rewrite Ha. rewrite <- Ea.
  change (a :: mid ++ ws2) with ((a :: mid) ++ ws2). rewrite <- Ea.
  rewrite reverse_app, trimStart_ws by (by apply Forall_reverse).
  apply last_Some in Eb as (front & Ef). rewrite Ef, reverse_app. cbn [reverse app].
  change (reverse [b]) with [b]. cbn [app trimStart]. rewrite Hb.
  change (b :: reverse front) with ([b] ++ reverse front).
  by rewrite reverse_app, reverse_involutive.
Qed.

Lemma keyChar_not_space ch : keyChar ch = true -> isWhiteSpace ch = false.
Proof.
  unfold keyChar, isWhiteSpace, isLineTerminator, cu. cbn [N_of_ascii N_of_digits].
  intros H. apply not_true_is_false. intros Hw. revert H Hw.
  rewrite !orb_true_iff, !andb_true_iff, !N.leb_le, !N.eqb_eq. lia.
Qed.

Lemma trim_rawId (ws1 id ws2 : jsstring) :
  Forall (fun ch => isWhiteSpace ch = true) ws1 ->
  Forall (fun ch => isWhiteSpace ch = true) ws2 ->
  rawId id -> trim (ws1 ++ id ++ ws2) = id.
Proof.
  intros H1 H2 [Hl Hc]. destruct id as [|a mid] eqn:E; [done|].
  destruct (last (a :: mid)) as [b|] eqn:Eb; [|by apply last_None in Eb].
  apply (trim_core ws1 (a :: mid) ws2 a b mid); try done.
  - apply keyChar_not_space. by apply Forall_cons in Hc as [? _].
  - apply keyChar_not_space. rewrite Forall_forall in Hc. apply Hc.
    apply last_Some in Eb as (front & ->). apply elem_of_app. right. apply list_elem_of_here.
Qed.

(** ** The captures of the URL pattern *)

Lemma RepeatMatcher_CharSet_frame Input A g c fuel : forall x z,
  RepeatMatcher (compile Input (CharSet A)) g [] c fuel x = Some z ->
  exists j, (endIndex x <= j)%nat /\ c (mkState j (captures x)) = Some z.
Proof.
  induction fuel as [|fuel IH]; intros [i caps] z H;
    cbn [RepeatMatcher compile endIndex captures resetCaptures foldr] in H.
  - exists i. by split.
  - assert (Hstep : match Input !! i with
                    | Some ch =>
                        if A ch
                        then (if (S i =? i)%nat then None
                              else RepeatMatcher (compile Input (CharSet A)) g [] c fuel
                                     (mkState (S i) caps))
                        else None
                    | None => None
                    end = Some z ->
                    exists j, (i <= j)%nat /\ c (mkState j caps) = Some z).
    { destruct (Input !! i) as [ch|]; [|done]. destruct (A ch); [|done].
      destruct (Nat.eqb_spec (S i) i); [lia|]. intros Hr.
      apply IH in Hr as (j & Hj & Hc). cbn [endIndex captures] in *. exists j. split; [lia|done]. }
    destruct g.
    + destruct (match Input !! i with Some _ => _ | None => _ end) as [z'|] eqn:E.
      * inversion H; subst z'. by apply Hstep.
      * exists i. by split.
    + destruct (c (mkState i caps)) as [z'|] eqn:E.
      * inversion H; subst z'. exists i. by split.
      * by apply Hstep.
Qed.

Lemma RepeatMatcher_total Input A c fuel :
  (forall y, c y <> None) ->
  forall x, RepeatMatcher (compile Input (CharSet A)) true [] c fuel x <> None.
Proof.
  intros Hc. destruct fuel as [|fuel]; intros x; cbn [RepeatMatcher]; [apply Hc|].
  destruct (compile Input (CharSet A) _ _); [done|apply Hc].
Qed.

(** A greedy [A*] before a continuation that cannot fail takes all the
    code units of the class that follow. *)
Lemma RepeatMatcher_greedy_max Input A c fuel :
  (forall y, c y <> None) ->
  forall x z,
  RepeatMatcher (compile Input (CharSet A)) true [] c fuel x = Some z ->
  exists j, (endIndex x <= j)%nat /\ c (mkState j (captures x)) = Some z /\
    (forall k, (endIndex x <= k)%nat -> (k < j)%nat ->
       exists ch, Input !! k = Some ch /\ A ch = true) /\
    ((j < endIndex x + fuel)%nat -> forall ch, Input !! j = Some ch -> A ch = false).
Proof.
  intros Hc. induction fuel as [|fuel IH]; intros [i caps] z H;
    cbn [RepeatMatcher compile endIndex captures resetCaptures foldr] in H.
  - exists i. cbn [endIndex captures]. split; [done|]. split; [done|]. split; intros; lia.
  - cbn [endIndex captures].
    destruct (Input !! i) as [ch|] eqn:Ei.
    + destruct (A ch) eqn:EA.
      * destruct (Nat.eqb_spec (S i) i); [lia|].
        remember (RepeatMatcher _ true [] c fuel (mkState (S i) caps)) as rec eqn:Er in H.
        symmetry in Er.
        change (RepeatMatcher (compile Input (CharSet A)) true [] c fuel (mkState (S i) caps)
                = rec) in Er.
        destruct rec as [z'|]; [|by apply RepeatMatcher_total in Er].
        injection H as ->. apply IH in Er as (j & Hj & Hcj & Hrun & Hmax).
        cbn [endIndex captures] in *. exists j. split; [lia|]. split; [done|]. split.
        -- intros k H1 H2. destruct (decide (k = i)) as [->|]; [eauto|]. apply Hrun; lia.
        -- intros Hlt. apply Hmax. lia.
      * exists i. split; [done|]. split; [done|]. split; [intros; lia|].
        intros _ ch' Hch'. congruence.
    + exists i. split; [done|]. split; [done|]. split; [intros; lia|].
      intros _ ch' Hch'. congruence.
Qed.

Lemma URL_ID_match (text : jsstring) (z : MatchState) :
  compile text URL_ID_pattern (mkState 0 (replicate 2 None)) Some = Some z ->
  exists i1 i2 i3,
    (i1 <= i2)%nat /\ (i2 <= i3)%nat /\ (i3 <= length text)%nat /\
    captures z !! 1%nat = Some (Some (i2, i3)) /\
    Lang (Star true Dot) (slice text 0 i1) /\
    Lang markers (slice text i1 i2) /\
    Forall (fun ch => notDelim ch = true) (slice text i2 i3) /\
    (forall ch, text !! i3 = Some ch -> notDelim ch = false).
Proof.
  unfold URL_ID_pattern. intros H.
  apply AnalysisFacts.compile_Seq_inv in H as (y1 & H1 & H1' & Hl1 & HL1 & H);
    [|cbn [endIndex]; lia].
  apply AnalysisFacts.compile_Seq_inv in H as (y2 & H2 & H2' & Hl2 & HL2 & H); [|done].
  cbn [compile groups] in H.
  apply RepeatMatcher_greedy_max in H as (j & Hj & Hc & Hrun & Hmax).
  2:{ intros y. unfold Dot. apply RepeatMatcher_total. done. }
  unfold Dot in Hc. apply RepeatMatcher_CharSet_frame in Hc as (j' & Hj' & Hz).
  inversion Hz; subst z. cbn [endIndex captures] in *.
  assert (Hjlen : (j <= length text)%nat).
  { destruct (decide (j = endIndex y2)) as [->|Hne]; [done|].
    destruct (Hrun (j - 1)%nat ltac:(lia) ltac:(lia)) as (ch & Hch & _).
    apply lookup_lt_Some in Hch. lia. }
  exists (endIndex y1), (endIndex y2), j.
  split; [done|]. split; [done|]. split; [done|]. split.
  - apply list_lookup_insert_eq. rewrite Hl2, Hl1. cbn. lia.
  - split; [done|]. split; [by apply RegExpFacts.Lang_Group_inv in HL2|]. split.
    + by apply AnalysisExtras.Forall_slice.
    + apply Hmax. lia.
Qed.

Lemma scanWith_anchoredStart (Input : jsstring) r n :
  scanWith (anchoredStart Input r) n (length Input) 0
  = match compile Input r (mkState 0 (replicate n None)) Some with
    | Some z => Some (0%nat, z)
    | None => None
    end.
Proof.
  assert (Hlater : forall fuel i, (1 <= i)%nat ->
            scanWith (anchoredStart Input r) n fuel i = None).
  { induction fuel as [|fuel IH]; intros i Hi; cbn [scanWith];
      unfold anchoredStart at 1, AssertStart; cbn [endIndex];
      destruct i as [|i]; try lia; cbn [Nat.eqb]; [done|]. apply IH. lia. }
  destruct (length Input) as [|m]; cbn [scanWith]; unfold anchoredStart at 1, AssertStart;
    cbn [endIndex Nat.eqb]; destruct (compile Input r _ _); try done.
  apply Hlater. lia.
Qed.

(** X26: extractVideoId never throws; an id that it returns has 11 code
    units, and it is either the whole trimmed input, which then consists
    of ASCII letters, digits, underscores and hyphens, or the text that
    follows one of the seven markers in the trimmed input up to the next
    number sign, ampersand or question mark, or to the end, with no line
    terminator before the marker; an input whose trimmed form is a raw
    id is never rejected. *)
Theorem extractVideoId_sound (url : jsstring) :
  exists r, extractVideoId url = Return r /\
    match r with
    | Some id =>
        length id = 11%nat /\
        ((rawId (trim url) /\ id = trim url) \/
         (~ rawId (trim url) /\
          exists pre marker post,
            trim url = pre ++ marker ++ id ++ post /\
            Forall (fun ch => isLineTerminator ch = false) pre /\
            Lang markers marker /\
            Forall (fun ch => notDelim ch = true) id /\
            (forall ch, head post = Some ch -> notDelim ch = false)))
    | None => ~ rawId (trim url)
    end.
Proof.
  unfold extractVideoId. set (text := trim url).
  destruct (scanWith (anchored text ID_pattern) 0 (length text) 0) as [p|] eqn:Eraw.
  - assert (Hraw : rawId text).
    { apply Lang_ID, (anchored_test_iff text ID_pattern 0). by rewrite Eraw. }
    exists (Some text). split; [done|]. split; [apply Hraw|]. by left.
  - assert (Hraw : ~ rawId text).
    { intros Hr. apply Lang_ID, (anchored_test_iff text ID_pattern 0) in Hr. done. }
    rewrite scanWith_anchoredStart.
    destruct (compile text URL_ID_pattern _ Some) as [z|] eqn:Ez; [|by exists None].
    destruct (URL_ID_match text z Ez)
      as (i1 & i2 & i3 & H12 & H23 & H3 & Hcap & HL1 & HL2 & HL3 & Hmax).
    rewrite Hcap.
    destruct (Nat.eqb_spec (length (slice text i2 i3)) 11) as [Hlen|]; [|by exists None].
    exists (Some (slice text i2 i3)). split; [done|]. split; [done|]. right. split; [done|].
    exists (slice text 0 i1), (slice text i1 i2), (drop i3 text).
    split; [|split; [|split; [done|split; [done|]]]].
    + assert (Htake : take i2 text = slice text 0 i1 ++ slice text i1 i2).
      { rewrite (RegExpFacts.slice_app text 0 i1 i2) by lia.
        unfold slice. by rewrite Nat.sub_0_r, drop_0. }
      rewrite (RegExpFacts.slice_split text i2 i3) at 1 by lia.
      by rewrite Htake, <- app_assoc.
    + apply RegExpFacts.Lang_Star_CharSet in HL1.
      eapply Forall_impl; [exact HL1|]. intros ch Hch. by apply negb_true_iff in Hch.
    + intros ch Hch. apply Hmax. rewrite <- Hch.
      destruct (drop i3 text) as [|c0 l] eqn:Ed.
      * done.
      * cbn [head]. rewrite <- (Nat.add_0_r i3), <- lookup_drop, Ed. done.
Qed.

(** X27: an input that is a raw video id, with white space around it or
    without, is returned as the id by extractVideoId and is classed as
    a Short by isYouTubeShort; apart from raw ids, isYouTubeShort accepts
    exactly the inputs that contain [youtube.com/shorts/], the letters in
    any case. *)
Theorem raw_id_is_a_short :
  (forall ws1 id ws2,
     Forall (fun ch => isWhiteSpace ch = true) ws1 ->
     Forall (fun ch => isWhiteSpace ch = true) ws2 -> rawId id ->
     extractVideoId (ws1 ++ id ++ ws2) = Return (Some id) /\
     isYouTubeShort (ws1 ++ id ++ ws2) = true) /\
  (forall url,
     isYouTubeShort url = true <->
     rawId (trim url) \/
     exists pre w post,
       url = pre ++ w ++ post /\
       map (Canonicalize true) w = map (Canonicalize true) (lit "youtube.com/shorts/")).
Proof.
  assert (Hshort : forall url,
            isYouTubeShort url = true <->
            rawId (trim url) \/
            exists pre w post,
              url = pre ++ w ++ post /\
              map (Canonicalize true) w = map (Canonicalize true) (lit "youtube.com/shorts/")).
  { intros url. unfold isYouTubeShort.
    pose proof (RegExpFacts.scanFrom_contains url SHORTS_pattern 0) as Hc.
    pose proof (anchored_test_iff (trim url) (Group 0 ID_pattern) 1) as Ha.
    assert (Hg : Lang (Group 0 ID_pattern) (trim url) <-> rawId (trim url)).
    { rewrite <- Lang_ID. split; [apply RegExpFacts.Lang_Group_inv|by constructor]. }
    assert (Hw : RegExpFacts.contains SHORTS_pattern url <->
                 exists pre w post, url = pre ++ w ++ post /\
                   map (Canonicalize true) w
                   = map (Canonicalize true) (lit "youtube.com/shorts/")).
    { unfold RegExpFacts.contains, SHORTS_pattern. split.
      - intros (pre & w & post & E & HL). exists pre, w, post. split; [done|].
        by apply RegExpFacts.Lang_Word.
      - intros (pre & w & post & E & HL). exists pre, w, post. split; [done|].
        by apply RegExpFacts.Lang_Word. }
    destruct (scanFrom url SHORTS_pattern 0 (length url) 0) as [p|].
    - split; [intros _|done]. right. apply Hw, Hc. done.
    - destruct (scanWith _ 1 (length (trim url)) 0) as [p|].
      + split; [intros _|done]. left. apply Hg, Ha. done.
      + split; [done|]. intros [Hr|Hs].
        * apply Hg, Ha in Hr. done.
        * apply Hw, Hc in Hs. done. }
  split; [|exact Hshort].
  intros ws1 id ws2 H1 H2 Hid.
  pose proof (trim_rawId ws1 id ws2 H1 H2 Hid) as Et. split.
  - unfold extractVideoId. rewrite Et.
    destruct (scanWith (anchored id ID_pattern) 0 (length id) 0) as [p|] eqn:E; [done|].
    exfalso. apply Lang_ID, (anchored_test_iff id ID_pattern 0) in Hid. done.
  - apply Hshort. left. by rewrite Et.
Qed.

(** ** The usual URL forms *)

(** [s] is one of the markers. *)
Definition isMarker (s : jsstring) : bool :=
  match scanWith (anchored s markers) 0 (length s) 0 with
  | Some _ => true
  | None => false
  end.

Lemma isMarker_iff s : isMarker s = true <-> Lang markers s.
Proof.
  unfold isMarker. rewrite <- (anchored_test_iff s markers 0).
  by destruct (scanWith _ 0 (length s) 0).
Qed.

(** Where the markers that occur in [p] end. *)
Definition markerEnds (p : jsstring) : list nat :=
  flat_map (fun i2 =>
              flat_map (fun i1 => if isMarker (slice p i1 i2) then [i2] else [])
                       (seq 0 i2))
           (seq 1 (length p)).

(** A text before the id that starts with something other than white
    space, has no line terminator, and holds a marker at its end and
    nowhere else. *)
Definition goodPrefix (p : jsstring) : bool :=
  match p with
  | [] => false
  | ch :: _ => negb (isWhiteSpace ch)
  end
  && forallb (fun ch => negb (isLineTerminator ch)) p
  && match markerEnds p with [] => false | _ => true end
  && forallb (fun i2 => (i2 =? length p)%nat) (markerEnds p).

Lemma markerEnds_complete p i1 i2 :
  (i1 < i2)%nat -> (i2 <= length p)%nat -> Lang markers (slice p i1 i2) -> In i2 (markerEnds p).
Proof.
  intros H1 H2 HL. unfold markerEnds. apply in_flat_map. exists i2. split.
  - apply in_seq. lia.
  - apply in_flat_map. exists i1. split; [apply in_seq; lia|].
    apply isMarker_iff in HL. rewrite HL. by left.
Qed.

Lemma markerEnds_sound p i2 :
  In i2 (markerEnds p) ->
  exists i1, (i1 < i2)%nat /\ (i2 <= length p)%nat /\ Lang markers (slice p i1 i2).
Proof.
  unfold markerEnds. intros H. apply in_flat_map in H as (j2 & Hj2 & H).
  apply in_flat_map in H as (j1 & Hj1 & H). apply in_seq in Hj1, Hj2.
  destruct (isMarker (slice p j1 j2)) eqn:E; [|done]. destruct H as [<-|[]].
  exists j1. split; [lia|]. split; [lia|]. by apply isMarker_iff.
Qed.

(** Every marker ends with a slash or an equals sign. *)
Lemma markers_last s :
  Lang markers s -> exists front ch, s = front ++ [ch] /\ (ch = cu "/" \/ ch = cu "=").
Proof.
  unfold markers. intros H.
  repeat (apply RegExpFacts.Lang_Disj_inv in H as [H|H]).
  - apply RegExpFacts.Lang_Seq_inv in H as (s1 & s2 & -> & _ & H).
    apply RegExpFacts.Lang_Seq_inv in H as (s3 & s4 & -> & _ & H).
    apply Word_plain in H. subst s4. exists (s1 ++ s3 ++ lit "be"), (cu "/").
    split; [by rewrite <- !app_assoc|by left].
  - apply Word_plain in H. subst s. exists (lit "v"), (cu "/"). split; [done|by left].
  - apply RegExpFacts.Lang_Seq_inv in H as (s1 & s2 & -> & _ & H).
    apply RegExpFacts.Lang_Seq_inv in H as (s3 & s4 & -> & _ & H).
    apply RegExpFacts.Lang_CharSet_inv in H as (ch & -> & Hch).
    apply N.eqb_eq in Hch. cbn [Canonicalize andb] in Hch. subst ch.
    exists (s1 ++ s3), (cu "/"). split; [by rewrite <- !app_assoc|by left].
  - apply Word_plain in H. subst s. exists (lit "embed"), (cu "/"). split; [done|by left].
  - apply Word_plain in H. subst s. exists (lit "watch?v"), (cu "="). split; [done|by right].
  - apply Word_plain in H. subst s. exists (lit "&v"), (cu "="). split; [done|by right].
  - apply Word_plain in H. subst s. exists (lit "shorts"), (cu "/"). split; [done|by left].
Qed.

Lemma keyChar_notDelim ch : keyChar ch = true -> notDelim ch = true.
Proof.
  unfold keyChar, notDelim, cu. cbn [N_of_ascii N_of_digits].
  intros H. apply negb_true_iff, not_true_is_false. intros Hw. revert H Hw.
  rewrite !orb_true_iff, !andb_true_iff, !N.leb_le, !N.eqb_eq. lia.
Qed.

Lemma keyChar_not_end ch : keyChar ch = true -> ch <> cu "/" /\ ch <> cu "=".
Proof.
  unfold keyChar, cu. cbn [N_of_ascii N_of_digits].
  rewrite !orb_true_iff, !andb_true_iff, !N.leb_le, !N.eqb_eq. lia.
Qed.

Lemma keyChar_not_terminator ch : keyChar ch = true -> isLineTerminator ch = false.
Proof.
  intros H. apply keyChar_not_space in H. unfold isWhiteSpace in H.
  by apply orb_false_iff in H as [_ ?].
Qed.

(** X28: a URL that consists of a text with one marker, at its end, and
    an 11 character id is resolved to that id; the usual forms of a watch
    URL, a short link, a Shorts URL and an embed URL are such texts. *)
Theorem extractVideoId_roundtrip (prefix id : jsstring) :
  goodPrefix prefix = true -> rawId id ->
  extractVideoId (prefix ++ id) = Return (Some id).
Proof.
  intros Hgood [Hlen Hchars]. unfold goodPrefix in Hgood.
  apply andb_true_iff in Hgood as [Hgood Hends].
  apply andb_true_iff in Hgood as [Hgood Hsome].
  apply andb_true_iff in Hgood as [Hhead Hlt].
  destruct prefix as [|p0 prest] eqn:Ep; [done|]. rewrite <- Ep in *.
  apply negb_true_iff in Hhead.
  set (text := prefix ++ id).
  assert (Htrim : trim text = text).
  { destruct (last id) as [b|] eqn:Eb; [|apply last_None in Eb; by subst id].
    assert (Hb : isWhiteSpace b = false).
    { apply keyChar_not_space. rewrite Forall_forall in Hchars. apply Hchars.
      apply last_Some in Eb as (front & ->). apply elem_of_app. right. apply list_elem_of_here. }
    pose proof (trim_core [] text [] p0 b (prest ++ id)) as Ht.
    rewrite app_nil_r in Ht. cbn [app] in Ht. apply Ht; try done.
    - unfold text. by rewrite Ep.
    - unfold text. rewrite last_app, Eb. done. }
  assert (Hltext : length text = (length prefix + 11)%nat)
    by (unfold text; rewrite length_app; lia).
  assert (Hidchar : forall k ch, (length prefix <= k)%nat -> text !! k = Some ch ->
                      keyChar ch = true).
  { intros k ch Hk Hch. unfold text in Hch. rewrite lookup_app_r in Hch by lia.
    rewrite Forall_forall in Hchars. apply Hchars. by eapply list_elem_of_lookup_2. }
  unfold extractVideoId. rewrite Htrim.
  destruct (scanWith (anchored text ID_pattern) 0 (length text) 0) as [q|] eqn:Eraw.
  { exfalso. assert (Hr : rawId text).
    { apply Lang_ID, (anchored_test_iff text ID_pattern 0). by rewrite Eraw. }
    destruct Hr as [Hr _]. rewrite Hltext, Ep in Hr. cbn [length] in Hr. lia. }
  rewrite scanWith_anchoredStart.
  (* the markers of the prefix *)
  destruct (markerEnds prefix) as [|e0 ends] eqn:Eends; [done|].
  assert (He0 : In e0 (markerEnds prefix)) by (rewrite Eends; by left).
  destruct (markerEnds_sound prefix e0 He0) as (m1 & Hm1 & Hm2 & HLm).
  rewrite <- Eends in Hends. rewrite forallb_forall in Hends.
  pose proof (Hends e0 He0) as He. apply Nat.eqb_eq in He. subst e0.
  (* the pattern matches *)
  assert (Hmatch : compile text URL_ID_pattern (mkState 0 (replicate 2 None)) Some <> None).
  { apply (RegExpFacts.compile_complete text URL_ID_pattern text _ _ []).
    - unfold text.
      rewrite (RegExpFacts.slice_split prefix m1 (length prefix)) by lia.
      rewrite drop_all, app_nil_r. unfold URL_ID_pattern.
      rewrite <- !app_assoc. constructor.
      + apply RegExpFacts.Lang_Star_CharSet. apply Forall_take.
        apply Forall_forall. intros ch Hch. rewrite forallb_forall in Hlt.
        apply Hlt. by apply list_elem_of_In.
      + constructor; [by constructor|].
        rewrite <- (app_nil_r id). constructor; [|constructor].
        constructor. apply RegExpFacts.Lang_Star_CharSet.
        eapply Forall_impl; [exact Hchars|]. apply keyChar_notDelim.
    - cbn [endIndex]. by rewrite drop_0, app_nil_r.
    - intros caps. done. }
  destruct (compile text URL_ID_pattern _ Some) as [z|] eqn:Ez; [|done].
  destruct (URL_ID_match text z Ez)
    as (i1 & i2 & i3 & H12 & H23 & H3 & Hcap & HL1 & HL2 & HL3 & Hmax).
  rewrite Hcap.
  (* the marker that was taken ends the prefix *)
  destruct (markers_last _ HL2) as (front & ch & Eslice & Hch).
  assert (Hi12 : (i1 < i2)%nat).
  { apply (f_equal length) in Eslice. rewrite RegExpFacts.length_slice in Eslice by lia.
    rewrite length_app in Eslice. cbn in Eslice. lia. }
  assert (Hlast : text !! (i2 - 1)%nat = Some ch).
  { assert (Hl : slice text i1 i2 !! (i2 - 1 - i1)%nat = Some ch).
    { rewrite Eslice. apply (f_equal length) in Eslice.
      rewrite RegExpFacts.length_slice, length_app in Eslice by lia. cbn in Eslice.
      rewrite lookup_app_r by lia. replace (i2 - 1 - i1 - length front)%nat with 0%nat by lia.
      done. }
    unfold slice in Hl. apply lookup_take_Some in Hl as [Hl _]. rewrite lookup_drop in Hl.
    by replace (i1 + (i2 - 1 - i1))%nat with (i2 - 1)%nat in Hl by lia. }
  assert (Hi2 : (i2 <= length prefix)%nat).
  { destruct (Nat.le_gt_cases i2 (length prefix)) as [|Hgt]; [done|].
    apply Hidchar, keyChar_not_end in Hlast; [|lia]. destruct Hch; tauto. }
  assert (Hsl : slice text i1 i2 = slice prefix i1 i2).
  { unfold slice, text. rewrite drop_app_le by lia. rewrite take_app_le; [done|].
    rewrite length_drop. lia. }
  rewrite Hsl in HL2.
  pose proof (markerEnds_complete prefix i1 i2 Hi12 Hi2 HL2) as Hin.
  apply Hends, Nat.eqb_eq in Hin. subst i2.
  (* the id runs to the end *)
  assert (Hi3 : i3 = length text).
  { destruct (decide (i3 = length text)) as [|Hne]; [done|].
    destruct (lookup_lt_is_Some_2 text i3 ltac:(lia)) as (c3 & Hc3).
    pose proof (Hmax c3 Hc3) as Hd.
    apply Hidchar, keyChar_notDelim in Hc3; [|lia]. congruence. }
  subst i3.
  assert (Hid : slice text (length prefix) (length text) = id).
  { unfold slice, text. rewrite drop_app_length, length_app.
    replace (length prefix + length id - length prefix)%nat with (length id) by lia.
    by rewrite firstn_all. }
  rewrite Hid, Hlen. done.
Qed.

Lemma extractVideoId_roundtrip_witness :
  Forall (fun p => goodPrefix (lit p) = true)
    ["https://www.youtube.com/watch?v="; "https://youtu.be/";
     "https://www.youtube.com/shorts/"; "https://www.youtube.com/embed/"]%string /\
  extractVideoId (lit "https://www.youtube.com/watch?v=" ++ lit "dQw4w9WgXcQ")
    = Return (Some (lit "dQw4w9WgXcQ")).
Proof.
  split.
  - repeat (constructor; [by vm_compute|]). constructor.
  - apply (extractVideoId_roundtrip (lit "https://www.youtube.com/watch?v=") (lit "dQw4w9WgXcQ")).
    + by vm_compute.
    + split; [done|]. repeat (constructor; [by vm_compute|]). constructor.
Defined.

End VideoIdFacts.
